(** * Kinesis shard advisor: the hash-key mapper, the distribution summary
      and the regex-like key generator

    A shallow embedding of [src/lib/kinesis.ts] and [src/lib/regexGen.ts],
    and of what the page, [src/App.tsx], computes with them.

    Modelling conventions.
    - A [bigint] is a [Z].
    - A JavaScript [number] is an IEEE 754 binary64 value, [spec_float] of the
      standard library with [prec = 53] and [emax = 1024].  A number that is
      known to hold an integer (an array index, a counter, the result of
      [Math.floor] or of [Number(bigint)]) is kept as that integer, in the
      type [jsint], which also has the values NaN and the two infinities.
    - A string is the list of its UTF-16 code units, each a [Z]; a cursor [i]
      into a string that is only ever moved forward is the suffix of the string
      that starts at [i].
    - A [throw] is the [Err] case of [result]; every error message of the
      sources is one constructor of [error].
    - A [while] loop that moves its cursor forward in every round is a
      function of a number of rounds left, the fuel, which starts at the
      length of the pattern; [compileLoop_fuel] shows that it never runs out.
    - [Math.random()] is the next element of a stream of doubles that are at
      least 0 and less than 1, an argument of every function that draws from
      it; the product with it is rounded as the doubles round it.
    - ECMAScript semantics is followed where the language fixes it (rounding of
      [Number(bigint)], the RangeError of an array length of 2^32 or more);
      limits that only an engine sets (memory, maximal string length) are not
      part of the model. *)

From Stdlib Require Import ZArith List Bool Lia Ascii String Permutation.
From Stdlib Require Import SpecFloat.
Import ListNotations.

Local Open Scope Z_scope.

(** ** Errors and results *)

#[warnings="-notation-for-abbreviation"]
Notation char := Z (only parsing).
#[warnings="-notation-for-abbreviation"]
Notation jsstring := (list Z) (only parsing).

Definition chr (c : ascii) : char := Z.of_N (N_of_ascii c).

Definition str (s : string) : jsstring :=
  List.map chr (list_ascii_of_string s).

(** One constructor per [throw new Error(...)] of the sources, and one for the
    RangeError that [Array.from] raises. *)
Inductive error : Type :=
| InvalidMD5Hex                      (* 'Invalid MD5 hex' *)
| InvalidShardCount                  (* 'Invalid shardCount' *)
| InvalidArrayLength                 (* RangeError: Invalid array length *)
| InvalidRangeOf (a b : char)        (* `Invalid range ${a}-${b}` *)
| ExpectedOpenBracket                (* 'Expected [' *)
| NegatedClass                       (* 'Negated character classes ([^...]) are not supported' *)
| EmptyClass                         (* 'Empty character class [] is not supported' *)
| InvalidEscapeAtEnd                 (* 'Invalid escape at end of pattern' *)
| UnterminatedClass                  (* 'Unterminated character class' *)
| QuantifierExpectedNumber           (* 'Invalid quantifier: expected number after {' *)
| QuantifierExpectedClose            (* 'Invalid quantifier: expected }' *)
| QuantifierBounds                   (* 'Invalid quantifier bounds' *)
| QuantifierTooLarge                 (* 'Quantifier too large' *)
| DanglingQuantifierAt (ch : char)   (* `Dangling quantifier '${ch}'` *)
| GroupsUnsupported.                 (* 'Groups and alternation are not supported in this generator' *)

(** The error kinds of the specification (section 7); [OtherError] collects
    what the taxonomy does not name. *)
Inductive ErrorKind : Type :=
| InvalidDigestFormat | InvalidPartitionCount | UnsupportedSyntax
| EmptyCharClass | InvalidRange | UnterminatedCharClass | UnterminatedEscape
| DanglingQuantifier | InvalidQuantifier | OtherError.

Definition kind (e : error) : ErrorKind :=
  match e with
  | InvalidMD5Hex => InvalidDigestFormat
  | InvalidShardCount => InvalidPartitionCount
  | InvalidArrayLength => OtherError
  | InvalidRangeOf _ _ => InvalidRange
  | ExpectedOpenBracket => OtherError
  | NegatedClass => UnsupportedSyntax
  | EmptyClass => EmptyCharClass
  | InvalidEscapeAtEnd => UnterminatedEscape
  | UnterminatedClass => UnterminatedCharClass
  | QuantifierExpectedNumber => InvalidQuantifier
  | QuantifierExpectedClose => InvalidQuantifier
  | QuantifierBounds => InvalidQuantifier
  | QuantifierTooLarge => InvalidQuantifier
  | DanglingQuantifierAt _ => DanglingQuantifier
  | GroupsUnsupported => UnsupportedSyntax
  end.

Inductive result (A : Type) : Type :=
| Ok (a : A)
| Err (e : error).
Arguments Ok {A} a.
Arguments Err {A} e.

Definition bind {A B : Type} (r : result A) (k : A -> result B) : result B :=
  match r with
  | Ok a => k a
  | Err e => Err e
  end.

Notation "x <- r ;; k" := (bind r (fun x => k))
  (at level 61, r at next level, right associativity).
Notation "' pat <- r ;; k" := (bind r (fun x => match x with pat => k end))
  (at level 61, pat pattern, r at next level, right associativity).

Definition fails_with {A : Type} (r : result A) (k : ErrorKind) : Prop :=
  exists e, r = Err e /\ kind e = k.

Definition succeeds {A : Type} (r : result A) : Prop :=
  exists a, r = Ok a.

(** ** Numbers *)

Module JS.

Definition number := spec_float.

Definition prec : Z := 53.
Definition emax : Z := 1024.

(** A number whose value is an integer, NaN or an infinity. *)
Inductive jsint : Type :=
| NaN
| Infinity (negative : bool)
| Int (z : Z).

(** The double nearest to the integer [z]: [z] itself up to 2^53. *)
Definition ofZ (z : Z) : number := binary_normalize prec emax z 0 false.

Definition Number_isFinite (x : number) : bool :=
  match x with
  | S754_zero _ | S754_finite _ _ _ => true
  | S754_infinity _ | S754_nan => false
  end.

(** [x <= y] on numbers. *)
Definition number_leb (x y : number) : bool := SFleb x y.

(** The integer [floor v] for a finite [v = (-1)^s * m * 2^e]. *)
Definition floorZ (x : number) : Z :=
  match x with
  | S754_finite s m e =>
      let sm := cond_Zopp s (Zpos m) in
      if 0 <=? e then sm * 2 ^ e else sm / 2 ^ (- e)
  | _ => 0
  end.

(** [Math.floor]. *)
Definition Math_floor (x : number) : jsint :=
  match x with
  | S754_nan => NaN
  | S754_infinity s => Infinity s
  | _ => Int (floorZ x)
  end.

(** [BigInt(Math.floor(x))] for a finite [x]. *)
Definition BigInt_of_floor (x : number) : Z := floorZ x.

(** [Number(b)] for a BigInt [b]: the double nearest to [b], ties to the even
    significand and infinite from 2^1024 on, which is what [binary_normalize]
    computes; the double holds an integer, and is kept as that integer. *)
Definition Number (b : Z) : jsint := Math_floor (ofZ b).

(** The order of integer-valued numbers; NaN compares with nothing. *)
Definition jsint_le (x y : jsint) : Prop :=
  match x, y with
  | NaN, _ | _, NaN => False
  | Infinity true, _ => True
  | _, Infinity false => True
  | Int a, Int b => a <= b
  | _, _ => False
  end.

Definition jsint_ltb (x y : jsint) : bool :=
  match x, y with
  | NaN, _ | _, NaN => false
  | Infinity true, Infinity true => false
  | Infinity true, _ => true
  | _, Infinity true => false
  | Infinity false, _ => false
  | Int _, Infinity false => true
  | Int a, Int b => a <? b
  end.

(** [x + 1] for a count [x], which is below 2^53. *)
Definition jsint_succ (x : jsint) : jsint :=
  match x with
  | Int z => Int (z + 1)
  | _ => x
  end.

(** An integer-valued number as a double. *)
Definition toNumber (x : jsint) : number :=
  match x with
  | NaN => S754_nan
  | Infinity s => S754_infinity s
  | Int z => ofZ z
  end.

(** [i < x] for an integer [i] and a number [x], by their values. *)
Definition int_ltb (i : Z) (x : number) : bool :=
  match x with
  | S754_nan => false
  | S754_infinity s => negb s
  | S754_zero _ => i <? 0
  | S754_finite s m e =>
      let sm := cond_Zopp s (Zpos m) in
      if 0 <=? e then i <? sm * 2 ^ e else i * 2 ^ (- e) <? sm
  end.

(** ToLength: the array length that a number stands for. *)
Definition ToLength (x : number) : Z :=
  match x with
  | S754_nan | S754_zero _ => 0
  | S754_infinity s => if s then 0 else 2 ^ 53 - 1
  | S754_finite s _ _ => if s then 0 else Z.min (floorZ x) (2 ^ 53 - 1)
  end.

(** [x + 16] for an integer-valued [x]: the exact sum, rounded. *)
Definition plus16 (x : jsint) : jsint :=
  match x with
  | Int z => Number (z + 16)
  | _ => x
  end.

(** The number of rounds of [for (let i = 0; i < n; i++)].  With [n] plus
    infinity the loop would not end; no loop of the sources has that bound. *)
Definition rounds (n : jsint) : nat :=
  match n with
  | Int z => Z.to_nat z
  | _ => 0%nat
  end.

(** [Math.min] and [Math.max] of an integer and an integer-valued number. *)
Definition Math_min (a : Z) (x : jsint) : jsint :=
  match x with
  | NaN => NaN
  | Infinity true => Infinity true
  | Infinity false => Int a
  | Int z => Int (Z.min a z)
  end.

Definition Math_max (a : Z) (x : jsint) : jsint :=
  match x with
  | NaN => NaN
  | Infinity true => Int a
  | Infinity false => Infinity false
  | Int z => Int (Z.max a z)
  end.

End JS.
Import JS.

(** ** kinesis.ts *)

Module Kinesis.

(** *** md5ToBigInt *)

(** The code units that [String.prototype.trim] removes: WhiteSpace and
    LineTerminator of ECMAScript. *)
Definition isWhiteSpace (c : char) : bool :=
  ((9 <=? c) && (c <=? 13)) || (c =? 32) || (c =? 160) || (c =? 5760)
  || ((8192 <=? c) && (c <=? 8202))
  || (c =? 8232) || (c =? 8233) || (c =? 8239) || (c =? 8287)
  || (c =? 12288) || (c =? 65279).

Fixpoint trimStart (s : jsstring) : jsstring :=
  match s with
  | c :: s' => if isWhiteSpace c then trimStart s' else s
  | [] => []
  end.

Definition trimEnd (s : jsstring) : jsstring := rev (trimStart (rev s)).

Definition trim (s : jsstring) : jsstring := trimEnd (trimStart s).

(** [toLowerCase] on one code unit.  Only A-Z are mapped: the case mappings of
    letters outside ASCII never give a hexadecimal digit, so the test of
    [md5ToBigInt] does not see them. *)
Definition lowerChar (c : char) : char :=
  if (65 <=? c) && (c <=? 90) then c + 32 else c.

Definition toLowerCase (s : jsstring) : jsstring := List.map lowerChar s.

(** One character of the class [[0-9a-f]]. *)
Definition isLowerHex (c : char) : bool :=
  ((48 <=? c) && (c <=? 57)) || ((97 <=? c) && (c <=? 102)).

(** [/^[0-9a-f]{32}$/.test(s)] *)
Definition isMd5Hex (s : jsstring) : bool :=
  (Nat.eqb (List.length s) 32) && forallb isLowerHex s.

Definition hexDigit (c : char) : Z :=
  if c <=? 57 then c - 48 else c - 87.

(** [BigInt('0x' + s)] for a string of hexadecimal digits. *)
Definition BigInt_of_hex (s : jsstring) : Z :=
  fold_left (fun acc c => acc * 16 + hexDigit c) s 0.

Definition md5ToBigInt (md5hex : jsstring) : result Z :=
  let normalized := toLowerCase (trim md5hex) in
  if negb (isMd5Hex normalized) then Err InvalidMD5Hex
  else Ok (BigInt_of_hex normalized).

(** *** hashKeyToShardIndex *)

Definition keyspace : Z := Z.shiftl 1 128.

(** BigInt division truncates, hence [Z.quot]. *)
Definition hashKeyToShardIndex (hashKey : Z) (shardCount : number) : result jsint :=
  if negb (Number_isFinite shardCount) || number_leb shardCount (S754_zero false)
  then Err InvalidShardCount
  else
    let n := BigInt_of_floor shardCount in
    Ok (Number (Z.quot (hashKey * n) keyspace)).

(** *** The functions that go through MD5

    [md5Hex] is imported from [./md5], which is outside this development. *)

Section Analyzer.

Variable md5Hex : jsstring -> jsstring.

Definition partitionKeyToHashKey (partitionKey : jsstring) : result Z :=
  md5ToBigInt (md5Hex partitionKey).

Definition partitionKeyToShardIndex (partitionKey : jsstring) (shardCount : number)
  : result jsint :=
  hashKey <- partitionKeyToHashKey partitionKey ;;
  hashKeyToShardIndex hashKey shardCount.

Record ShardResult : Type := {
  partitionKey : jsstring;
  md5hex : jsstring;
  hashKey : Z;
  shardIndex : jsint
}.

(** [partitionKeys.map(...)]: the first key that fails ends the call. *)
Fixpoint analyzePartitionKeys (partitionKeys : list jsstring) (shardCount : number)
  : result (list ShardResult) :=
  match partitionKeys with
  | [] => Ok []
  | k :: keys =>
      let md5hex := md5Hex k in
      hashKey <- md5ToBigInt md5hex ;;
      shardIndex <- hashKeyToShardIndex hashKey shardCount ;;
      results <- analyzePartitionKeys keys shardCount ;;
      Ok ({| partitionKey := k; md5hex := md5hex; hashKey := hashKey;
             shardIndex := shardIndex |} :: results)
  end.

End Analyzer.

(** *** summarizeDistribution

    The indexes are integers, as a PartitionIndex is; the counts stay below
    2^53 and are exact.  A count is an integer or, where the array has grown,
    NaN.  The function on indexes that are any numbers follows in
    [AnyIndex]. *)

Record DistributionSummary : Type := {
  shardCount : number;
  totalKeys : Z;
  counts : list jsint;
  maxCount : jsint;
  maxShard : Z;
  avg : number;
  stddev : number
}.

(** [Array.from({ length: len }, () => 0)]: the length is brought into
    [0, 2^53 - 1] by ToLength, and the Array constructor raises a RangeError
    from 2^32 on. *)
Definition Array_from_zeros (len : number) : result (list jsint) :=
  let l := ToLength len in
  if 2 ^ 32 <=? l then Err InvalidArrayLength
  else Ok (repeat (Int 0) (Z.to_nat l)).

(** [counts[idx]++] for an array index [idx].  Inside the array the count
    goes up by one.  At the end of the array [counts[idx]] is [undefined],
    [undefined + 1] is NaN, and the array grows by that NaN; this happens when
    [shardCount] is not an integer and [idx] is its floor.  The guard of the
    caller keeps [idx] from lying further out, where the elements in between
    would be holes. *)
Fixpoint increment (cs : list jsint) (idx : nat) : list jsint :=
  match cs, idx with
  | [], O => [NaN]
  | [], S i => NaN :: increment [] i
  | c :: cs', O => jsint_succ c :: cs'
  | c :: cs', S i => c :: increment cs' i
  end.

(** [counts[idx]++] for an integer [idx] that is not negative.  The array
    indexes are the integers up to 2^32 - 2.  From 2^32 - 1 on the key names
    a property of the array object that is none of its elements: the
    statement sets that property, and the elements and the length of the
    array stay as they are. *)
Definition bump (cs : list jsint) (idx : Z) : list jsint :=
  if idx <? 2 ^ 32 - 1 then increment cs (Z.to_nat idx) else cs.

(** The first loop: [if (idx >= 0 && idx < shardCount) counts[idx]++]. *)
Definition tally (shardCount : number) (shardIndexes : list Z) (counts : list jsint)
  : list jsint :=
  fold_left
    (fun cs idx =>
       if (0 <=? idx) && int_ltb idx shardCount then bump cs idx else cs)
    shardIndexes counts.

(** The second loop, from index [i] on: [if (counts[i] > maxCount) ...]. *)
Fixpoint scanMax (cs : list jsint) (i : Z) (maxCount : jsint) (maxShard : Z) : jsint * Z :=
  match cs with
  | [] => (maxCount, maxShard)
  | c :: cs' =>
      if jsint_ltb maxCount c
      then scanMax cs' (i + 1) c i
      else scanMax cs' (i + 1) maxCount maxShard
  end.

(** The third loop: [d = counts[i] - avg; variance += d * d]. *)
Definition sumSquares (cs : list jsint) (avg : number) : number :=
  fold_left
    (fun variance c =>
       let d := SFsub prec emax (toNumber c) avg in
       SFadd prec emax variance (SFmul prec emax d d))
    cs (ofZ 0).

Definition summarizeDistribution (shardCount : number) (shardIndexes : list Z)
  : result DistributionSummary :=
  zeros <- Array_from_zeros shardCount ;;
  let counts := tally shardCount shardIndexes zeros in
  let totalKeys := Z.of_nat (List.length shardIndexes) in
  let avg := SFdiv prec emax (ofZ totalKeys) shardCount in
  let '(maxCount, maxShard) := scanMax counts 0 (Infinity true) 0 in
  let variance := SFdiv prec emax (sumSquares counts avg) shardCount in
  let stddev := SFsqrt prec emax variance in
  Ok {| shardCount := shardCount; totalKeys := totalKeys; counts := counts;
        maxCount := maxCount; maxShard := maxShard; avg := avg; stddev := stddev |}.

End Kinesis.
Import Kinesis.

(** *** summarizeDistribution on any numbers

    The type of the indexes is [number[]], and nothing in the function asks
    for more: an index may be a fraction, an infinity or NaN.  This is the
    function on such a list.  [Kinesis.summarizeDistribution] is the same
    function on a list of integers, where the comparisons and the key of
    [counts[idx]] are those of the integers. *)

Module AnyIndex.

(** [Number.isInteger]. *)
Definition isInteger (x : number) : bool :=
  match x with
  | S754_zero _ => true
  | S754_finite _ m e => (0 <=? e) || (Zpos m mod 2 ^ (- e) =? 0)
  | S754_infinity _ | S754_nan => false
  end.

(** The guard [idx >= 0 && idx < shardCount], by the comparisons of the
    doubles: NaN compares with nothing, and minus zero is zero. *)
Definition passes (idx shardCount : number) : bool :=
  SFleb (ofZ 0) idx && SFltb idx shardCount.

(** [counts[idx]++] for a number that passed the guard.  The key is the text
    of the number.  For an integer, of which minus zero is one, that is the
    integer as [bump] takes it; for a fraction it names a property that is
    none of the elements, and the elements stay as they are. *)
Definition bumpAt (cs : list jsint) (idx : number) : list jsint :=
  if isInteger idx then bump cs (floorZ idx) else cs.

Definition tally (shardCount : number) (shardIndexes : list number) (counts : list jsint)
  : list jsint :=
  fold_left
    (fun cs idx => if passes idx shardCount then bumpAt cs idx else cs)
    shardIndexes counts.

Definition summarizeDistribution (shardCount : number) (shardIndexes : list number)
  : result DistributionSummary :=
  zeros <- Array_from_zeros shardCount ;;
  let counts := tally shardCount shardIndexes zeros in
  let totalKeys := Z.of_nat (List.length shardIndexes) in
  let avg := SFdiv prec emax (ofZ totalKeys) shardCount in
  let '(maxCount, maxShard) := scanMax counts 0 (Infinity true) 0 in
  let variance := SFdiv prec emax (sumSquares counts avg) shardCount in
  let stddev := SFsqrt prec emax variance in
  Ok {| shardCount := shardCount; totalKeys := totalKeys; counts := counts;
        maxCount := maxCount; maxShard := maxShard; avg := avg; stddev := stddev |}.

End AnyIndex.

(** ** regexGen.ts *)

Module RegexGen.

Inductive Atom : Type :=
| Literal (value : char)
| CharClass (chars : list char)
| Digit
| Word
| Space.

Record Piece : Type := { atom : Atom; min : Z; max : Z }.

(** The characters the scanner looks for. *)
Definition LBRACKET : char := 91.   (* [ *)
Definition RBRACKET : char := 93.   (* ] *)
Definition BACKSLASH : char := 92.
Definition CARET : char := 94.      (* ^ *)
Definition DOLLAR : char := 36.     (* $ *)
Definition HYPHEN : char := 45.     (* - *)
Definition LBRACE : char := 123.    (* { *)
Definition RBRACE : char := 125.    (* } *)
Definition QUESTION : char := 63.   (* ? *)
Definition PLUS : char := 43.       (* + *)
Definition STAR : char := 42.       (* * *)
Definition COMMA : char := 44.      (* , *)
Definition LPAREN : char := 40.     (* ( *)
Definition RPAREN : char := 41.     (* ) *)
Definition BAR : char := 124.       (* | *)

Definition isDigit (c : char) : bool := (48 <=? c) && (c <=? 57).

(** *** Randomness

    [Math.random()] gives a double that is at least 0 and less than 1.  The
    generator is a stream of such doubles: a draw takes the first and leaves
    the rest. *)

(** [0 <= x < 1] for a double [x]. *)
Definition inUnitInterval (x : number) : bool :=
  match x with
  | S754_zero _ => true
  | S754_finite false _ _ => SFltb x (ofZ 1)
  | _ => false
  end.

(** What [Math.random()] can give. *)
Record Draw : Type := {
  drawn : number;
  drawn_valid : valid_binary prec emax drawn = true;
  drawn_unit : inUnitInterval drawn = true
}.

Definition rng := nat -> Draw.

Definition Math_random (r : rng) : number * rng :=
  (drawn (r O), fun n => r (S n)).

(** The stream that gives the same double at every draw, and the one of
    zeros. *)
Definition always (d : Draw) : rng := fun _ => d.

Definition zeroDraws : rng :=
  always {| drawn := S754_zero false; drawn_valid := eq_refl; drawn_unit := eq_refl |}.

(** [randInt] for the double [x] that [Math.random()] gave:
    [lo + Math.floor(x * (hi - lo + 1))], the product rounded to a double.
    The bounds are integers, as they are wherever [randInt] is called, so
    that [Math.ceil] and [Math.floor] leave them as they are; sums and
    differences of integers are exact up to 2^53. *)
Definition randInt_double (min max : Z) (x : number) : jsint :=
  let lo := min in
  let hi := max in
  match Math_floor (SFmul prec emax x (ofZ (hi - lo + 1))) with
  | Int k => Int (lo + k)
  | other => other
  end.

Definition randInt (min max : Z) (r : rng) : jsint * rng :=
  let '(x, r') := Math_random r in
  (randInt_double min max x, r').

(** [arr[i]] for an integer-valued number [i]; [None] is [undefined], which
    is what the array has outside its indexes and at NaN and the
    infinities. *)
Definition elementAt {T : Type} (arr : list T) (i : jsint) : option T :=
  match i with
  | Int i => if i <? 0 then None else nth_error arr (Z.to_nat i)
  | _ => None
  end.

(** [arr[randInt(0, arr.length - 1)]]. *)
Definition pick {T : Type} (arr : list T) (r : rng) : option T * rng :=
  let '(i, r') := randInt 0 (Z.of_nat (List.length arr) - 1) r in
  (elementAt arr i, r').

(** [pick] for the double [x] that [Math.random()] gave. *)
Definition pick_double {T : Type} (arr : list T) (x : number) : option T :=
  elementAt arr (randInt_double 0 (Z.of_nat (List.length arr) - 1) x).

(** *** Parsing *)

Definition expandRange (a b : char) : result (list char) :=
  let start := a in
  let end_ := b in
  if end_ <? start then Err (InvalidRangeOf a b)
  else Ok (List.map (fun k => start + Z.of_nat k) (seq 0 (Z.to_nat (end_ - start + 1)))).

(** The loop of [parseCharClass]; [rest] is the pattern from the cursor on. *)
Fixpoint classLoop (rest : jsstring) (chars : list char) : result (list char * jsstring) :=
  match rest with
  | [] => Err UnterminatedClass
  | ch :: rest1 =>
      if ch =? RBRACKET then
        if Nat.eqb (List.length chars) 0 then Err EmptyClass else Ok (chars, rest1)
      else if ch =? BACKSLASH then
        match rest1 with
        | [] => Err InvalidEscapeAtEnd
        | ch' :: rest2 => classLoop rest2 (chars ++ [ch'])
        end
      else
        match rest1 with
        | dash :: b :: rest3 =>
            if (dash =? HYPHEN) && negb (b =? RBRACKET) then
              match expandRange ch b with
              | Err e => Err e
              | Ok range => classLoop rest3 (chars ++ range)
              end
            else classLoop rest1 (chars ++ [ch])
        | _ => classLoop rest1 (chars ++ [ch])
        end
  end.

Definition parseCharClass (rest : jsstring) : result (list char * jsstring) :=
  match rest with
  | ch :: rest1 =>
      if negb (ch =? LBRACKET) then Err ExpectedOpenBracket
      else
        match rest1 with
        | c :: _ => if c =? CARET then Err NegatedClass else classLoop rest1 []
        | [] => classLoop rest1 []
        end
  | [] => Err ExpectedOpenBracket
  end.

(** [while (i < pattern.length && isDigit(pattern[i])) { n += pattern[i]; i++ }] *)
Fixpoint takeDigits (rest : jsstring) (n : jsstring) : jsstring * jsstring :=
  match rest with
  | c :: rest' => if isDigit c then takeDigits rest' (n ++ [c]) else (n, rest)
  | [] => (n, rest)
  end.

(** The integer that a string of decimal digits writes. *)
Definition decimal (n : jsstring) : Z :=
  fold_left (fun acc c => acc * 10 + (c - 48)) n 0.

(** [Number(n)] for a string of decimal digits. *)
Definition Number_of_digits (n : jsstring) : jsint := Number (decimal n).

(** The two tests that end [parseQuantifier].  Past them both bounds are
    integers between 0 and 100000, which is what a piece stores. *)
Definition checkBounds (min max : jsint) (rest : jsstring) : result (Z * Z * jsstring) :=
  if jsint_ltb min (Int 0) || jsint_ltb max min then Err QuantifierBounds
  else if jsint_ltb (Int 100000) max then Err QuantifierTooLarge
  else
    match min, max with
    | Int mn, Int mx => Ok (mn, mx, rest)
    | _, _ => Err QuantifierTooLarge
    end.

Definition parseQuantifier (rest : jsstring) : result (Z * Z * jsstring) :=
  match rest with
  | [] => Ok (1, 1, rest)
  | ch :: rest1 =>
      if ch =? QUESTION then Ok (0, 1, rest1)
      else if ch =? PLUS then Ok (1, 16, rest1)
      else if ch =? STAR then Ok (0, 16, rest1)
      else if negb (ch =? LBRACE) then Ok (1, 1, rest)
      else
        let '(n1, rest2) := takeDigits rest1 [] in
        if Nat.eqb (List.length n1) 0 then Err QuantifierExpectedNumber
        else
          let min := Number_of_digits n1 in
          let '(max, rest3) :=
            match rest2 with
            | c :: rest2' =>
                if c =? COMMA then
                  let '(n2, rest3) := takeDigits rest2' [] in
                  (if Nat.eqb (List.length n2) 0 then plus16 min else Number_of_digits n2,
                   rest3)
                else (min, rest2)
            | [] => (min, rest2)
            end in
          match rest3 with
          | c :: rest4 =>
              if negb (c =? RBRACE) then Err QuantifierExpectedClose
              else checkBounds min max rest4
          | [] => Err QuantifierExpectedClose
          end
  end.

Definition isQuantifierChar (ch : char) : bool :=
  (ch =? LBRACE) || (ch =? RBRACE) || (ch =? QUESTION) || (ch =? PLUS) || (ch =? STAR).

(** The atom that starts with [ch], the character under the cursor. *)
Definition parseAtom (ch : char) (rest1 : jsstring) : result (Atom * jsstring) :=
  if ch =? LBRACKET then
    '(chars, next) <- parseCharClass (ch :: rest1) ;;
    Ok (CharClass chars, next)
  else if ch =? BACKSLASH then
    match rest1 with
    | [] => Err InvalidEscapeAtEnd
    | esc :: rest2 =>
        Ok (if esc =? 100 then Digit           (* d *)
            else if esc =? 119 then Word       (* w *)
            else if esc =? 115 then Space      (* s *)
            else Literal esc, rest2)
    end
  else if isQuantifierChar ch then Err (DanglingQuantifierAt ch)
  else Ok (Literal ch, rest1).

(** The [while (i < pattern.length)] loop that builds [pieces].  Every round
    moves the cursor forward, so [length rest] rounds are enough; [fuel]
    counts them. *)
Fixpoint compileLoop (fuel : nat) (rest : jsstring) (pieces : list Piece)
  : result (list Piece) :=
  match rest with
  | [] => Ok pieces
  | ch :: rest1 =>
      match fuel with
      | O => Ok pieces
      | S fuel' =>
          if (ch =? CARET) || (ch =? DOLLAR) then compileLoop fuel' rest1 pieces
          else
            '(atom, rest2) <- parseAtom ch rest1 ;;
            '(qmin, qmax, rest3) <- parseQuantifier rest2 ;;
            compileLoop fuel' rest3 (pieces ++ [{| atom := atom; min := qmin; max := qmax |}])
      end
  end.

Definition includes (s : jsstring) (c : char) : bool := existsb (Z.eqb c) s.

(** The first half of [generateFromRegexLikePattern] (lines 116-157): the
    pattern is checked and parsed into pieces.  The specification calls it
    [compile]. *)
Definition compile (pattern : jsstring) : result (list Piece) :=
  if includes pattern LPAREN || includes pattern RPAREN || includes pattern BAR
  then Err GroupsUnsupported
  else compileLoop (List.length pattern) pattern [].

(** *** Generation *)

Definition wordChars : list char :=
  str "abcdefghijklmnopqrstuvwxyzABCDEFGHIJKLMNOPQRSTUVWXYZ0123456789_".
Definition digits : list char := str "0123456789".
Definition spaces : list char := [32; 9].

(** [out += pick(arr)]: [undefined] is appended as the text "undefined". *)
Definition appendPick (out : jsstring) (arr : list char) (r : rng) : jsstring * rng :=
  let '(c, r') := pick arr r in
  (out ++ match c with Some c => [c] | None => str "undefined" end, r').

(** One round of the inner loop. *)
Definition emit (a : Atom) (out : jsstring) (r : rng) : jsstring * rng :=
  match a with
  | Literal value => (out ++ [value], r)
  | CharClass chars => appendPick out chars r
  | Digit => appendPick out digits r
  | Word => appendPick out wordChars r
  | Space => appendPick out spaces r
  end.

Fixpoint emitMany (count : nat) (a : Atom) (out : jsstring) (r : rng) : jsstring * rng :=
  match count with
  | O => (out, r)
  | S count' => let '(out', r') := emit a out r in emitMany count' a out' r'
  end.

(** The second half of [generateFromRegexLikePattern] (lines 159-176); the
    specification calls it [generateOne].  The bounds of a piece that
    [compile] has made are integers from 0 to 100000, so that the number of
    rounds, fixed or drawn, is an integer. *)
Fixpoint generateOne (pieces : list Piece) (out : jsstring) (r : rng) : jsstring * rng :=
  match pieces with
  | [] => (out, r)
  | piece :: pieces' =>
      let '(count, r1) :=
        if min piece =? max piece then (Int (min piece), r)
        else randInt (min piece) (max piece) r in
      let '(out', r2) := emitMany (rounds count) (atom piece) out r1 in
      generateOne pieces' out' r2
  end.

Definition generateFromRegexLikePattern (pattern : jsstring) (r : rng)
  : result (jsstring * rng) :=
  pieces <- compile pattern ;;
  Ok (generateOne pieces [] r).

Fixpoint generateManyLoop (n : nat) (pattern : jsstring) (out : list jsstring) (r : rng)
  : result (list jsstring * rng) :=
  match n with
  | O => Ok (out, r)
  | S n' =>
      '(s, r') <- generateFromRegexLikePattern pattern r ;;
      generateManyLoop n' pattern (out ++ [s]) r'
  end.

(** [Math.max(0, Math.min(50000, Math.floor(count)))] *)
Definition clampCount (count : number) : jsint :=
  Math_max 0 (Math_min 50000 (Math_floor count)).

Definition generateMany (pattern : jsstring) (count : number) (r : rng)
  : result (list jsstring * rng) :=
  let n := clampCount count in
  generateManyLoop (rounds n) pattern [] r.

End RegexGen.
Import RegexGen.

(** ** Reference definitions, in the words of the specification *)

Module Reference.

(** "Round to nearest, ties to even", on the 53 bits of a double's
    significand, for a natural number [a]: the bits beyond the first 53 are
    cut off and the rest goes up by one if they are more than half a unit, or
    just half and the rest is odd. *)
Definition round53 (a : Z) : Z :=
  let sh := Z.log2 a + 1 - prec in
  if sh <=? 0 then a
  else
    let q := a / 2 ^ sh in
    let r := a mod 2 ^ sh in
    let half := 2 ^ (sh - 1) in
    let q' := if r <? half then q
              else if half <? r then q + 1
              else if Z.even q then q else q + 1 in
    q' * 2 ^ sh.

(** The value of [Number(b)] by that rule. *)
Definition nearestDouble (b : Z) : jsint :=
  let r := round53 (Z.abs b) in
  if 2 ^ emax <=? r then Infinity (b <? 0) else Int (Z.sgn b * r).

(** One hexadecimal character, digits and lower-case letters. *)
Definition isHexChar (c : char) : Prop := 48 <= c <= 57 \/ 97 <= c <= 102.

(** White space only, as [trim] sees it. *)
Definition allWhite (s : jsstring) : Prop := Forall (fun c => isWhiteSpace c = true) s.

(** "Exactly 32 hexadecimal characters". *)
Definition isDigest (s : jsstring) : Prop :=
  List.length s = 32%nat /\ Forall isHexChar s.

(** The value of one hexadecimal character. *)
Definition digitValue (c : char) : Z :=
  if (48 <=? c) && (c <=? 57) then c - 48 else 10 + (c - 97).

(** "The exact integer value of interpreting those hex digits as a base-16
    number": the digit with [k] digits after it counts [16^k] times. *)
Fixpoint hexValue (s : jsstring) : Z :=
  match s with
  | [] => 0
  | c :: s' => digitValue c * 16 ^ Z.of_nat (List.length s') + hexValue s'
  end.

(** "sum(perPartitionCounts)". *)
Definition sumZ (l : list Z) : Z := fold_right Z.add 0 l.

(** How often the index [j] is found in [indexes]. *)
Definition occurrences (j : Z) (indexes : list Z) : Z :=
  Z.of_nat (count_occ Z.eq_dec indexes j).

(** An index "within [0, partitionCount)". *)
Definition inRange (p : Z) (idx : Z) : bool := (0 <=? idx) && (idx <? p).

(** The bucket of index [j]; [j] is inside the array wherever it is used. *)
Definition bucket (counts : list Z) (j : Z) : Z := nth (Z.to_nat j) counts 0.

(** A string of decimal digits, and a rest of the pattern that does not go on
    with one. *)
Definition allDigits (ds : jsstring) : Prop := Forall (fun c => isDigit c = true) ds.

Definition noDigitAhead (rest : jsstring) : Prop :=
  match rest with
  | [] => True
  | c :: _ => isDigit c = false
  end.

(** The rest of the pattern does not go on with the character [x]. *)
Definition notAhead (x : char) (rest : jsstring) : Prop :=
  match rest with
  | [] => True
  | c :: _ => c <> x
  end.

(** "0 <= min <= max <= 100000". *)
Definition boundsOk (p : Piece) : Prop := 0 <= min p /\ min p <= max p /\ max p <= 100000.

(** "Invokes generateOne that many times, returning results in generation
    order": the first string generated comes first. *)
Fixpoint generations (n : nat) (pieces : list Piece) (r : rng) : list jsstring * rng :=
  match n with
  | O => ([], r)
  | S n' =>
      let '(s, r1) := generateOne pieces [] r in
      let '(ss, r2) := generations n' pieces r1 in
      (s :: ss, r2)
  end.

(** None of the characters that the pattern is refused for up front. *)
Definition noGroups (pattern : jsstring) : Prop :=
  ~ In LPAREN pattern /\ ~ In RPAREN pattern /\ ~ In BAR pattern.

(** The parts of a bracket expression, as the specification lists them: an
    escaped character [\X], a "three-character run A-B", or "any other
    character", which stands for itself. *)
Inductive ClassItem : Type :=
| Escaped (x : char)
| Run (a b : char)
| Single (c : char).

(** The text of an item, and of the items of a class one after the other. *)
Definition written (it : ClassItem) : jsstring :=
  match it with
  | Escaped x => [BACKSLASH; x]
  | Run a b => [a; HYPHEN; b]
  | Single c => [c]
  end.

Definition writtenAll (its : list ClassItem) : jsstring := flat_map written its.

(** "Every character with code point between A and B inclusive": [n]
    characters from [a] upwards. *)
Fixpoint upFrom (a : char) (n : nat) : list char :=
  match n with
  | O => []
  | S n' => a :: upFrom (a + 1) n'
  end.

(** What an item adds to the class. *)
Definition contributes (it : ClassItem) : list char :=
  match it with
  | Escaped x => [x]
  | Run a b => upFrom a (Z.to_nat (b - a + 1))
  | Single c => [c]
  end.

(** A run whose end is not below its start. *)
Definition ascending (it : ClassItem) : Prop :=
  match it with
  | Run a b => a <= b
  | _ => True
  end.

(** "A three-character run A-B (where B is not ])".  Its first character is
    neither the bracket that closes the class nor the backslash that opens
    an escape. *)
Definition isRun (a b : char) : Prop :=
  a <> RBRACKET /\ a <> BACKSLASH /\ b <> RBRACKET.

(** The text [next] behind a character does not make a run of it. *)
Definition noRunAhead (next : jsstring) : Prop :=
  match next with
  | dash :: b :: _ => dash <> HYPHEN \/ b = RBRACKET
  | _ => True
  end.

(** The item is what is read where it stands, with [next] behind it. *)
Definition standsAs (it : ClassItem) (next : jsstring) : Prop :=
  match it with
  | Escaped _ => True
  | Run a b => isRun a b
  | Single c => c <> RBRACKET /\ c <> BACKSLASH /\ noRunAhead next
  end.

(** The items are what is read, from left to right, of a text that goes on
    with [next] behind them. *)
Fixpoint readAs (its : list ClassItem) (next : jsstring) : Prop :=
  match its with
  | [] => True
  | it :: its' => standsAs it (writtenAll its' ++ next) /\ readAs its' next
  end.

(** How a bracket expression that is read as [its] ends: with the bracket
    that closes it, with a run that goes down, with a backslash that is the
    last character of the pattern, or with the pattern. *)
Inductive ClassEnd : Type :=
| Closed (rest : jsstring)
| Descending (a b : char) (rest : jsstring)
| OpenEscape
| RunsOut.

Definition endText (t : ClassEnd) : jsstring :=
  match t with
  | Closed rest => RBRACKET :: rest
  | Descending a b rest => a :: HYPHEN :: b :: rest
  | OpenEscape => [BACKSLASH]
  | RunsOut => []
  end.

Definition endOk (t : ClassEnd) : Prop :=
  match t with
  | Descending a b _ => isRun a b /\ b < a
  | _ => True
  end.

End Reference.
Import Reference.

(** ** App.tsx

    The computations of the page that do not touch the document: the keys
    read from the text area, the two numeric inputs, the analysis of the keys
    and the button that generates keys.  A numeric input is taken from the
    value of [Number(text)] on; how the text is read is not part of the
    model. *)

Module App.

Definition LF : char := 10.
Definition CR : char := 13.

(** [raw.split(/\r?\n/)], by the steps of RegExp.prototype[Symbol.split]:
    [rest] is the text from the cursor on and [piece] the text between the
    last separator and the cursor.  At the cursor the expression matches a
    line feed, or a carriage return with a line feed behind it; a carriage
    return alone is no separator. *)
Fixpoint split (rest piece : jsstring) : list jsstring :=
  match rest with
  | [] => [piece]
  | c :: rest1 =>
      if c =? LF then piece :: split rest1 []
      else
        match rest1 with
        | d :: rest2 =>
            if (c =? CR) && (d =? LF) then piece :: split rest2 []
            else split rest1 (piece ++ [c])
        | [] => split rest1 (piece ++ [c])
        end
  end.

Definition parseKeys (raw : jsstring) : list jsstring :=
  filter (fun s => Nat.ltb 0 (List.length s)) (List.map trim (split raw [])).

(** [generated.join('\n')], for any separator. *)
Fixpoint join (sep : jsstring) (l : list jsstring) : jsstring :=
  match l with
  | [] => []
  | s :: l' =>
      match l' with
      | [] => s
      | _ :: _ => s ++ sep ++ join sep l'
      end
  end.

(** [x || d] on numbers: NaN and the two zeros are falsy. *)
Definition orElse (x d : number) : number :=
  match x with
  | S754_nan | S754_zero _ => d
  | _ => x
  end.

(** [Math.max(1, Math.floor(Number(shardCountRaw) || 1))], for
    [x = Number(shardCountRaw)]: an integer or an infinity, which the
    functions of kinesis.ts get as the double [toNumber] of it. *)
Definition shardCountOf (x : number) : jsint :=
  Math_max 1 (Math_floor (orElse x (ofZ 1))).

(** [Math.max(0, Math.floor(Number(genCountRaw) || 0))], for
    [x = Number(genCountRaw)]. *)
Definition countOf (x : number) : jsint :=
  Math_max 0 (Math_floor (orElse x (ofZ 0))).

(** The part of the state that [onGenerate] writes. *)
Record State : Type := { keysRaw : jsstring; genError : option error }.

(** [onGenerate]: the error is cleared; the generated keys replace the text
    area, or the message of the error that was thrown is kept and the text
    area stays.  The count goes to [generateMany] as the double that it is.
    A pattern that is refused is refused before a random number is drawn, so
    that the stream is then as it was. *)
Definition onGenerate (genPattern : jsstring) (x : number) (st : State) (r : rng)
  : State * rng :=
  let count := countOf x in
  match generateMany genPattern (toNumber count) r with
  | Ok (generated, r') => ({| keysRaw := join [LF] generated; genError := None |}, r')
  | Err e => ({| keysRaw := keysRaw st; genError := Some e |}, r)
  end.

Section Page.

Variable md5Hex : jsstring -> jsstring.

(** [results]: what [analyzePartitionKeys] returns, and no result at all when
    it throws. *)
Definition results (keys : list jsstring) (shardCount : number) : list ShardResult :=
  match analyzePartitionKeys md5Hex keys shardCount with
  | Ok rs => rs
  | Err _ => []
  end.

End Page.

End App.
Import App.

(** ** Notions that the further properties are stated with *)

Module Layout.

(** The first hash key of shard [i] when the key space is split over [p]
    shards: the least [h] with [i * 2^128 <= h * p]. *)
Definition startingHashKey (p i : Z) : Z := (i * 2 ^ 128 + p - 1) / p.

(** A text with every line feed turned into a carriage return and a line
    feed. *)
Definition crlf (raw : jsstring) : jsstring :=
  flat_map (fun c => if c =? App.LF then [App.CR; App.LF] else [c]) raw.

End Layout.
Import Layout.

(** What the pieces of a pattern stand for. *)

Module Language.

(** The characters that an atom can give. *)
Definition alphabet (a : Atom) : list char :=
  match a with
  | Literal value => [value]
  | CharClass chars => chars
  | Digit => digits
  | Word => wordChars
  | Space => spaces
  end.

(** [seg] is a run that the piece allows: between [min] and [max] characters
    of the alphabet of its atom. *)
Definition fits (p : Piece) (seg : jsstring) : Prop :=
  min p <= Z.of_nat (List.length seg) <= max p /\
  Forall (fun c => In c (alphabet (atom p))) seg.

(** [s] is made of one run for each piece, in the order of the pieces. *)
Definition matches (pieces : list Piece) (s : jsstring) : Prop :=
  exists segs, s = List.concat segs /\ Forall2 fits pieces segs.

(** The least and the greatest length that the pieces allow. *)
Definition minLength (pieces : list Piece) : Z :=
  fold_right (fun p n => min p + n) 0 pieces.

Definition maxLength (pieces : list Piece) : Z :=
  fold_right (fun p n => max p + n) 0 pieces.

(** The two anchors, and the characters that stand for themselves wherever
    they are in a pattern. *)
Definition isAnchor (c : char) : bool := (c =? CARET) || (c =? DOLLAR).

Definition isOrdinary (c : char) : bool :=
  negb ((c =? LBRACKET) || (c =? BACKSLASH) || isQuantifierChar c
        || (c =? LPAREN) || (c =? RPAREN) || (c =? BAR)).

(** The pieces of a text of ordinary characters: one literal for each of
    them, the anchors left out. *)
Definition literals (s : jsstring) : list Piece :=
  List.map (fun c => {| atom := Literal c; min := 1; max := 1 |})
           (filter (fun c => negb (isAnchor c)) s).

(** [compile] fails with an error of the kind [k] at the bracket expression
    that opens before [body]: wherever the scan has come to it, whatever the
    pieces so far, and as a pattern with only ordinary characters before
    it. *)
Definition classRefused (body : jsstring) (k : ErrorKind) : Prop :=
  (forall fuel pieces, fails_with (compileLoop (S fuel) (LBRACKET :: body) pieces) k) /\
  (forall pre,
     forallb isOrdinary pre = true -> noGroups body ->
     fails_with (compile (pre ++ LBRACKET :: body)) k).

(** The pattern that writes every character of [s] behind a backslash. *)
Definition escaped (s : jsstring) : jsstring := flat_map (fun c => [BACKSLASH; c]) s.

End Language.
Import Language.

(** The errors of a pattern. *)

Module Errors.

(** The errors that a pattern can be refused with; a range is refused when
    it goes down, a quantifier is dangling when it is one of [{ } ? + *]. *)
Definition patternError (e : error) : Prop :=
  match e with
  | GroupsUnsupported | NegatedClass | EmptyClass | UnterminatedClass
  | InvalidEscapeAtEnd | QuantifierExpectedNumber | QuantifierExpectedClose
  | QuantifierBounds | QuantifierTooLarge => True
  | InvalidRangeOf a b => b < a
  | DanglingQuantifierAt ch => isQuantifierChar ch = true
  | InvalidMD5Hex | InvalidShardCount | InvalidArrayLength | ExpectedOpenBracket => False
  end.

(** An error of the scan: any error of a pattern but the one for groups,
    which is raised before the scan. *)
Definition scanError (e : error) : Prop := patternError e /\ e <> GroupsUnsupported.

End Errors.
Import Errors.


(** * Properties *)

(** A result that is an error of the kind expected, by computation. *)
Ltac raises := eexists; split; [vm_compute; reflexivity | reflexivity].

(** ** Rounding to a double *)

Section Round53.

Lemma round53_small (a : Z) : 0 <= a < 2 ^ 53 -> round53 a = a.
Proof.
  intros [H0 H1]. unfold round53, prec.
  destruct (Z.eq_dec a 0) as [->|Hn]; [reflexivity|].
  assert (Z.log2 a < 53) by (apply Z.log2_lt_pow2; lia).
  destruct (Z.leb_spec (Z.log2 a + 1 - 53) 0); [reflexivity | lia].
Qed.

(** The shape of the rounded value of a number of more than 53 bits. *)
Lemma round53_large (a : Z) :
  2 ^ 53 <= a ->
  let sh := Z.log2 a + 1 - 53 in
  let q := a / 2 ^ sh in
  0 < sh /\ 2 ^ 52 <= q < 2 ^ 53 /\
  exists q', round53 a = q' * 2 ^ sh /\ q <= q' <= q + 1 /\
    (2 * (a mod 2 ^ sh) < 2 ^ sh -> q' = q) /\
    (2 ^ sh < 2 * (a mod 2 ^ sh) -> q' = q + 1).
Proof.
  intros Ha sh q.
  assert (Hpos : 0 < a) by (pose proof (Z.pow_pos_nonneg 2 53); lia).
  assert (Hlog : 53 <= Z.log2 a) by (apply Z.log2_le_pow2; lia).
  assert (Hsh : 0 < sh) by (unfold sh; lia).
  destruct (Z.log2_spec a Hpos) as [Hlo Hhi].
  assert (E1 : 2 ^ Z.log2 a = 2 ^ 52 * 2 ^ sh).
  { rewrite <- Z.pow_add_r by lia. f_equal. unfold sh. lia. }
  assert (E2 : 2 ^ Z.succ (Z.log2 a) = 2 ^ 53 * 2 ^ sh).
  { rewrite <- Z.pow_add_r by lia. f_equal. unfold sh. lia. }
  assert (Hp : 0 < 2 ^ sh) by (apply Z.pow_pos_nonneg; lia).
  assert (Hq : 2 ^ 52 <= q < 2 ^ 53).
  { unfold q. split.
    - apply Z.div_le_lower_bound; lia.
    - apply Z.div_lt_upper_bound; lia. }
  split; [exact Hsh|]. split; [exact Hq|].
  unfold round53, prec. fold sh.
  destruct (Z.leb_spec sh 0); [lia|].
  fold q.
  assert (Hhalf : 2 ^ sh = 2 * 2 ^ (sh - 1)).
  { replace sh with (1 + (sh - 1)) at 1 by lia. rewrite Z.pow_add_r by lia. reflexivity. }
  set (r := a mod 2 ^ sh). set (half := 2 ^ (sh - 1)) in *.
  destruct (Z.ltb_spec r half).
  - exists q. repeat split; try lia.
  - destruct (Z.ltb_spec half r).
    + exists (q + 1). repeat split; try lia.
    + destruct (Z.even q); [exists q | exists (q + 1)]; repeat split; lia.
Qed.

Lemma round53_nonneg (a : Z) : 0 <= a -> 0 <= round53 a.
Proof.
  intros Ha. destruct (Z_lt_le_dec a (2 ^ 53)).
  - rewrite round53_small; lia.
  - destruct (round53_large a l) as (Hsh & Hq & q' & E & Hq' & _).
    rewrite E. apply Z.mul_nonneg_nonneg; [lia|]. apply Z.pow_nonneg. lia.
Qed.

Lemma round53_mono (a b : Z) : 0 <= a <= b -> round53 a <= round53 b.
Proof.
  intros [Ha Hab].
  destruct (Z.eq_dec a b) as [->|Hne]; [lia|].
  destruct (Z_lt_le_dec b (2 ^ 53)) as [Hb|Hb].
  { rewrite !round53_small; lia. }
  destruct (round53_large b Hb) as (Hshb & Hqb & qb' & Eb & Hqb' & Hdb & Hub).
  set (sb := Z.log2 b + 1 - 53) in *.
  assert (Hpb : 0 < 2 ^ sb) by (apply Z.pow_pos_nonneg; lia).
  destruct (Z_lt_le_dec a (2 ^ 53)) as [Ha'|Ha'].
  { rewrite (round53_small a) by lia. rewrite Eb.
    assert (2 ^ 52 * 2 ^ sb <= qb' * 2 ^ sb) by (apply Z.mul_le_mono_nonneg_r; lia).
    assert (2 ^ 52 * 2 <= 2 ^ 52 * 2 ^ sb).
    { apply Z.mul_le_mono_nonneg_l; [lia|].
      change 2 with (2 ^ 1) at 1. apply Z.pow_le_mono_r; lia. }
    change (2 ^ 53) with (2 ^ 52 * 2) in Ha'. lia. }
  destruct (round53_large a Ha') as (Hsha & Hqa & qa' & Ea & Hqa' & Hda & Hua).
  set (sa := Z.log2 a + 1 - 53) in *.
  assert (Hpa : 0 < 2 ^ sa) by (apply Z.pow_pos_nonneg; lia).
  assert (Hs : sa <= sb) by (unfold sa, sb; pose proof (Z.log2_le_mono a b Hab); lia).
  rewrite Ea, Eb. clearbody sa sb.
  destruct (Z.eq_dec sa sb) as [Es|Ns].
  - subst sa. apply Z.mul_le_mono_nonneg_r; [lia|].
    assert (Hq : a / 2 ^ sb <= b / 2 ^ sb) by (apply Z.div_le_mono; lia).
    destruct (Z.eq_dec (a / 2 ^ sb) (b / 2 ^ sb)) as [Eq|Nq]; [|lia].
    assert (Hr : a mod 2 ^ sb <= b mod 2 ^ sb).
    { pose proof (Z.div_mod a (2 ^ sb)). pose proof (Z.div_mod b (2 ^ sb)).
      rewrite Eq in *. lia. }
    destruct (Z.eq_dec qa' qb') as [|N]; [lia|].
    destruct (Z_lt_le_dec (2 * (a mod 2 ^ sb)) (2 ^ sb)) as [L|L].
    + rewrite (Hda L). lia.
    + destruct (Z.eq_dec (2 * (a mod 2 ^ sb)) (2 ^ sb)) as [E|NE].
      * destruct (Z.eq_dec (a mod 2 ^ sb) (b mod 2 ^ sb)) as [Er|Nr].
        { exfalso. apply Hne.
          pose proof (Z.div_mod a (2 ^ sb)). pose proof (Z.div_mod b (2 ^ sb)).
          rewrite Eq, Er in *. lia. }
        { rewrite Hub by lia. lia. }
      * rewrite Hub by lia. lia.
  - assert (Hle : (qa' * 2 ^ sa) <= 2 ^ 53 * 2 ^ sa).
    { apply Z.mul_le_mono_nonneg_r; lia. }
    assert (Hge : 2 ^ 52 * 2 ^ sb <= qb' * 2 ^ sb).
    { apply Z.mul_le_mono_nonneg_r; lia. }
    assert (Hpow : 2 * 2 ^ sa <= 2 ^ sb).
    { replace (2 * 2 ^ sa) with (2 ^ (sa + 1)) by (rewrite Z.pow_add_r by lia; lia).
      apply Z.pow_le_mono_r; lia. }
    change (2 ^ 53) with (2 ^ 52 * 2) in Hle. nia.
Qed.

End Round53.

(** ** Integers as doubles *)

Lemma digits2_pos_size (m : positive) : digits2_pos m = Pos.size m.
Proof. induction m; simpl; congruence. Qed.

Lemma digits2_pos_log2 (m : positive) : Zpos (digits2_pos m) = Z.log2 (Zpos m) + 1.
Proof.
  rewrite digits2_pos_size. destruct m; simpl; try reflexivity; rewrite Pos.add_1_r; reflexivity.
Qed.

Lemma iter_xO_digits (m k : positive) :
  digits2_pos (Pos.iter xO m k) = (digits2_pos m + k)%positive.
Proof.
  induction k using Pos.peano_ind.
  - simpl. rewrite Pos.add_1_r. reflexivity.
  - rewrite Pos.iter_succ. simpl. rewrite IHk. lia.
Qed.

Lemma iter_xO_value (m k : positive) :
  Zpos (Pos.iter xO m k) = Zpos m * 2 ^ Zpos k.
Proof.
  induction k using Pos.peano_ind.
  - simpl. lia.
  - rewrite Pos.iter_succ, Pos2Z.inj_succ, Z.pow_succ_r by lia.
    rewrite Pos2Z.inj_xO, IHk. lia.
Qed.

Lemma shr_fexp_canonical (m : positive) (e : Z) :
  fexp prec emax (Zpos (digits2_pos m) + e) = e ->
  shr_fexp prec emax (Zpos m) e loc_Exact =
  ({| shr_m := Zpos m; shr_r := false; shr_s := false |}, e).
Proof.
  intros H. unfold shr_fexp, Zdigits2. rewrite H, Z.sub_diag. reflexivity.
Qed.

Lemma binary_round_aux_canonical (s : bool) (m : positive) (e : Z) :
  fexp prec emax (Zpos (digits2_pos m) + e) = e ->
  e <= emax - prec ->
  binary_round_aux prec emax s (Zpos m) e loc_Exact = S754_finite s m e.
Proof.
  intros H He. unfold binary_round_aux.
  rewrite (shr_fexp_canonical m e H). cbn [shr_m loc_of_shr_record round_nearest_even].
  rewrite (shr_fexp_canonical m e H). cbn [shr_m].
  destruct (Z.leb_spec e (emax - prec)); [reflexivity | lia].
Qed.

(** An integer of at most 53 bits is a double: rounding keeps its value. *)
Lemma binary_round_small (s : bool) (m : positive) :
  Zpos m < 2 ^ 53 ->
  exists m' e, binary_round prec emax s m 0 = S754_finite s m' e /\ e <= 0 /\
               Zpos m' = Zpos m * 2 ^ (- e).
Proof.
  intros Hm.
  assert (Hd : Zpos (digits2_pos m) <= 53).
  { rewrite digits2_pos_log2. assert (Z.log2 (Zpos m) < 53) by (apply Z.log2_lt_pow2; lia). lia. }
  unfold binary_round.
  set (d := digits2_pos m) in *.
  assert (Hf : fexp prec emax (Zpos d + 0) = Zpos d - 53).
  { unfold fexp, emin, prec, emax. lia. }
  rewrite Hf. unfold shl_align.
  destruct (Zpos d - 53 - 0) eqn:Hk; try lia.
  - (* exactly 53 bits *)
    exists m, 0. split; [|split; [lia|simpl; lia]].
    apply binary_round_aux_canonical; [fold d; rewrite Hf; lia | unfold emax, prec; lia].
  - (* fewer: the significand is shifted up to 53 bits *)
    exists (Pos.iter xO m p), (Zpos d - 53).
    split; [|split; [lia|]].
    + apply binary_round_aux_canonical; [|unfold emax, prec; lia].
      rewrite iter_xO_digits. fold d. unfold fexp, emin, prec, emax. lia.
    + rewrite iter_xO_value. f_equal. f_equal. lia.
Qed.

Lemma ofZ_pos_exact (m : positive) :
  Zpos m < 2 ^ 53 ->
  exists m' e, ofZ (Zpos m) = S754_finite false m' e /\ e <= 0 /\
               Zpos m' = Zpos m * 2 ^ (- e).
Proof. apply binary_round_small. Qed.

Lemma floorZ_ofZ (p : Z) : 1 <= p <= 2 ^ 53 -> floorZ (ofZ p) = p.
Proof.
  intros Hp. destruct (Z.eq_dec p (2 ^ 53)) as [->|Hn]; [vm_compute; reflexivity|].
  destruct p as [|m|m]; try lia.
  destruct (ofZ_pos_exact m) as (m' & e & E & He & Hv); [lia|].
  rewrite E. unfold floorZ. simpl cond_Zopp.
  destruct (Z.leb_spec 0 e).
  - assert (e = 0) by lia. subst e. rewrite Hv. simpl. lia.
  - rewrite Hv. apply Z.div_mul. apply Z.pow_nonzero; lia.
Qed.

Lemma ofZ_positive (p : Z) :
  1 <= p <= 2 ^ 53 ->
  Number_isFinite (ofZ p) = true /\ number_leb (ofZ p) (S754_zero false) = false.
Proof.
  intros Hp. destruct (Z.eq_dec p (2 ^ 53)) as [->|Hn]; [vm_compute; auto|].
  destruct p as [|m|m]; try lia.
  destruct (ofZ_pos_exact m) as (m' & e & E & He & Hv); [lia|].
  rewrite E. split; reflexivity.
Qed.


Lemma pow2_pos (k : Z) : 0 <= k -> 0 < 2 ^ k.
Proof. intros H. apply Z.pow_pos_nonneg; lia. Qed.

Lemma pow2_split (a b : Z) : 0 <= a -> 0 <= b -> 2 ^ (a + b) = 2 ^ a * 2 ^ b.
Proof. intros. apply Z.pow_add_r; assumption. Qed.

Lemma digits_bounds (m : positive) :
  2 ^ (Zpos (digits2_pos m) - 1) <= Zpos m < 2 ^ Zpos (digits2_pos m).
Proof.
  rewrite digits2_pos_log2.
  pose proof (Z.log2_spec (Zpos m) ltac:(lia)) as H.
  replace (Z.log2 (Zpos m) + 1 - 1) with (Z.log2 (Zpos m)) by lia.
  replace (Z.log2 (Zpos m) + 1) with (Z.succ (Z.log2 (Zpos m))) by lia. exact H.
Qed.

Lemma digits_le (m : positive) (k : Z) :
  0 <= k -> Zpos m < 2 ^ k -> Zpos (digits2_pos m) <= k.
Proof.
  intros Hk H. pose proof (digits_bounds m) as [Hlo _].
  destruct (Z.le_gt_cases (Zpos (digits2_pos m)) k) as [|Hgt]; [assumption|].
  assert (2 ^ k <= 2 ^ (Zpos (digits2_pos m) - 1)) by (apply Z.pow_le_mono_r; lia). lia.
Qed.

Lemma valid_mantissa (s : bool) (m : positive) (e : Z) :
  valid_binary prec emax (S754_finite s m e) = true ->
  Zpos m < 2 ^ 53 /\ e <= 971.
Proof.
  simpl. unfold bounded, canonical_mantissa. intros H.
  apply andb_true_iff in H. destruct H as [Hc He].
  apply Z.eqb_eq in Hc. apply Z.leb_le in He.
  rewrite digits2_pos_log2 in Hc. unfold fexp, emin, prec, emax in *.
  split; [|lia].
  assert (Z.log2 (Zpos m) < 53) by lia.
  apply Z.log2_lt_cancel. change (Z.log2 (2 ^ 53)) with 53. exact H.
Qed.

(** An integer from 1 to 2^53 - 1 as a double: a significand of 53 bits. *)
Lemma ofZ_canonical (n : Z) :
  1 <= n < 2 ^ 53 ->
  exists m e, ofZ n = S754_finite false m e /\ -52 <= e <= 0 /\
              Zpos m = n * 2 ^ (- e) /\ Zpos (digits2_pos m) = 53.
Proof.
  intros Hn. destruct n as [|m|m]; try lia.
  assert (Hd : Zpos (digits2_pos m) <= 53) by (apply digits_le; lia).
  unfold ofZ, binary_normalize, binary_round.
  set (d := digits2_pos m) in *.
  assert (Hf : fexp prec emax (Zpos d + 0) = Zpos d - 53).
  { unfold fexp, emin, prec, emax. lia. }
  rewrite Hf. unfold shl_align.
  destruct (Zpos d - 53 - 0) eqn:Hk; try lia.
  - exists m, 0. split; [|split; [lia|split; [simpl; lia | fold d; lia]]].
    apply binary_round_aux_canonical; [fold d; rewrite Hf; lia | unfold emax, prec; lia].
  - exists (Pos.iter xO m p), (Zpos d - 53).
    assert (Hdig : Zpos (digits2_pos (Pos.iter xO m p)) = 53).
    { rewrite iter_xO_digits. fold d. lia. }
    split; [|split; [lia|split; [|exact Hdig]]].
    + apply binary_round_aux_canonical; [|unfold emax, prec; lia].
      rewrite Hdig. unfold fexp, emin, prec, emax. lia.
    + rewrite iter_xO_value. f_equal. f_equal. lia.
Qed.

(** ** The rounding of the IEEE 754 model *)

Lemma iter_pos_iter {A : Type} (f : A -> A) (n : positive) (x : A) :
  iter_pos f n x = Pos.iter f x n.
Proof.
  revert x. induction n as [n IH|n IH|]; intros x; simpl.
  - rewrite !IH, !Pos.iter_swap. reflexivity.
  - rewrite !IH. reflexivity.
  - reflexivity.
Qed.

Lemma shr_1_nonneg (m : Z) (r s : bool) :
  0 <= m ->
  shr_1 {| shr_m := m; shr_r := r; shr_s := s |} =
  {| shr_m := m / 2; shr_r := Z.odd m; shr_s := r || s |}.
Proof.
  intros Hm. rewrite <- Z.div2_div.
  destruct m as [|[p|p|]|p]; try lia; reflexivity.
Qed.

Lemma mod_pow2_succ (m n : Z) :
  0 <= n ->
  m mod 2 ^ (n + 1) = m mod 2 ^ n + Z.b2z (Z.testbit m n) * 2 ^ n.
Proof.
  intros Hn.
  destruct (Z.testbit_spec m n Hn) as (l & h & Hl & E).
  assert (Hp : 0 < 2 ^ n) by (apply Z.pow_pos_nonneg; lia).
  rewrite Z.pow_add_r, Z.pow_1_r by lia.
  assert (E1 : m mod 2 ^ n = l).
  { symmetry. apply (Z.mod_unique _ _ (Z.b2z (Z.testbit m n) + 2 * h)); [lia|]. lia. }
  rewrite E1. symmetry.
  apply (Z.mod_unique _ _ h).
  - destruct (Z.testbit m n); simpl Z.b2z; lia.
  - rewrite E at 1. ring.
Qed.

(** [n] shifts to the right of a significand that carries no round and no
    sticky bit yet. *)
Lemma iter_shr_1 (n : positive) (m : Z) :
  0 <= m ->
  iter_pos shr_1 n {| shr_m := m; shr_r := false; shr_s := false |} =
  {| shr_m := m / 2 ^ Zpos n;
     shr_r := Z.testbit m (Zpos n - 1);
     shr_s := negb (m mod 2 ^ (Zpos n - 1) =? 0) |}.
Proof.
  intros Hm. rewrite iter_pos_iter. induction n as [|n IH] using Pos.peano_ind.
  - cbn [Pos.iter]. rewrite (shr_1_nonneg m false false Hm).
    change (Zpos 1 - 1) with 0. rewrite Z.pow_0_r, Z.mod_1_r, Z.bit0_odd. reflexivity.
  - rewrite Pos.iter_succ, IH.
    assert (Hp : 0 < 2 ^ Zpos n) by (apply Z.pow_pos_nonneg; lia).
    rewrite shr_1_nonneg by (apply Z.div_pos; lia).
    rewrite Pos2Z.inj_succ. f_equal.
    + rewrite Z.pow_succ_r by lia. rewrite Z.div_div by lia. f_equal. lia.
    + replace (Z.succ (Zpos n) - 1) with (Zpos n) by lia.
      rewrite Z.testbit_odd, Z.shiftr_div_pow2 by lia. reflexivity.
    + replace (Z.succ (Zpos n) - 1) with ((Zpos n - 1) + 1) by lia.
      rewrite (mod_pow2_succ m (Zpos n - 1)) by lia.
      assert (0 <= m mod 2 ^ (Zpos n - 1)).
      { apply Z.mod_pos_bound. apply Z.pow_pos_nonneg; lia. }
      assert (0 < 2 ^ (Zpos n - 1)) by (apply Z.pow_pos_nonneg; lia).
      destruct (Z.testbit m (Zpos n - 1)); cbn [Z.b2z orb].
      * symmetry. apply negb_true_iff, Z.eqb_neq. lia.
      * rewrite Z.mul_0_l, Z.add_0_r. reflexivity.
Qed.

(** The rounded significand, as [round_nearest_even] finds it from the round
    and sticky bits, is the one of [round53]. *)
Lemma nearest_even_bits (m sh : Z) :
  0 <= m -> 0 < sh ->
  round_nearest_even (m / 2 ^ sh)
    (loc_of_shr_record {| shr_m := m / 2 ^ sh;
                          shr_r := Z.testbit m (sh - 1);
                          shr_s := negb (m mod 2 ^ (sh - 1) =? 0) |}) =
  (let q := m / 2 ^ sh in
   let r := m mod 2 ^ sh in
   let half := 2 ^ (sh - 1) in
   if r <? half then q else if half <? r then q + 1 else if Z.even q then q else q + 1).
Proof.
  intros Hm Hsh. cbv zeta.
  assert (Er : m mod 2 ^ sh =
               m mod 2 ^ (sh - 1) + Z.b2z (Z.testbit m (sh - 1)) * 2 ^ (sh - 1)).
  { rewrite <- mod_pow2_succ by lia. do 2 f_equal. lia. }
  rewrite Er.
  assert (Hh : 0 < 2 ^ (sh - 1)) by (apply Z.pow_pos_nonneg; lia).
  pose proof (Z.mod_pos_bound m (2 ^ (sh - 1)) Hh) as Hl.
  set (l := m mod 2 ^ (sh - 1)) in *. set (half := 2 ^ (sh - 1)) in *.
  destruct (Z.testbit m (sh - 1)); cbn [Z.b2z loc_of_shr_record];
    destruct (Z.eqb_spec l 0) as [E|E]; cbn [negb loc_of_shr_record round_nearest_even].
  - rewrite E. destruct (Z.ltb_spec (0 + 1 * half) half); [lia|].
    destruct (Z.ltb_spec half (0 + 1 * half)); [lia|]. reflexivity.
  - destruct (Z.ltb_spec (l + 1 * half) half); [lia|].
    destruct (Z.ltb_spec half (l + 1 * half)); [reflexivity | lia].
  - rewrite E. destruct (Z.ltb_spec (0 + 0 * half) half); [reflexivity | lia].
  - destruct (Z.ltb_spec (l + 0 * half) half); [reflexivity | lia].
Qed.

Lemma shr_fexp_shift (m : positive) (e sh : Z) :
  0 < sh ->
  fexp prec emax (Zpos (digits2_pos m) + e) - e = sh ->
  shr_fexp prec emax (Zpos m) e loc_Exact =
  ({| shr_m := Zpos m / 2 ^ sh;
      shr_r := Z.testbit (Zpos m) (sh - 1);
      shr_s := negb (Zpos m mod 2 ^ (sh - 1) =? 0) |}, e + sh).
Proof.
  intros Hsh H. unfold shr_fexp, Zdigits2. rewrite H.
  destruct sh as [|p|p]; try lia. cbn [shr shr_record_of_loc].
  rewrite iter_shr_1 by lia. reflexivity.
Qed.

Lemma digits_53 (q : positive) :
  2 ^ 52 <= Zpos q < 2 ^ 53 -> Zpos (digits2_pos q) = 53.
Proof.
  intros Hq. rewrite digits2_pos_log2.
  assert (Z.log2 (Zpos q) = 52); [|lia].
  apply Z.log2_unique; [lia|]. exact Hq.
Qed.

(** The double nearest to an integer of more than 53 bits. *)
Lemma binary_round_large (s : bool) (m : positive) :
  2 ^ 53 <= Zpos m ->
  Math_floor (binary_round prec emax s m 0) =
  if 2 ^ emax <=? round53 (Zpos m) then Infinity s
  else Int (cond_Zopp s (round53 (Zpos m))).
Proof.
  intros Hm.
  destruct (round53_large (Zpos m) Hm) as (Hsh & Hq & _).
  assert (Hd : Zpos (digits2_pos m) = Z.log2 (Zpos m) + 1) by apply digits2_pos_log2.
  set (sh := Z.log2 (Zpos m) + 1 - 53) in *.
  assert (Hf : fexp prec emax (Zpos (digits2_pos m) + 0) = sh).
  { unfold fexp, emin, prec, emax. lia. }
  assert (Hp : 0 < 2 ^ sh) by (apply Z.pow_pos_nonneg; lia).
  (* the rounded significand *)
  assert (Er : round53 (Zpos m) =
               round_nearest_even (Zpos m / 2 ^ sh)
                 (loc_of_shr_record
                    {| shr_m := Zpos m / 2 ^ sh;
                       shr_r := Z.testbit (Zpos m) (sh - 1);
                       shr_s := negb (Zpos m mod 2 ^ (sh - 1) =? 0) |}) * 2 ^ sh).
  { rewrite nearest_even_bits by lia. unfold round53, prec. fold sh.
    destruct (Z.leb_spec sh 0); [lia | reflexivity]. }
  set (q' := round_nearest_even _ _) in Er.
  assert (Hq' : 2 ^ 52 <= q' <= 2 ^ 53).
  { destruct (round53_large (Zpos m) Hm) as (_ & _ & q1 & E1 & Hq1 & _). fold sh in E1, Hq1.
    assert (q1 = q') by (apply (Z.mul_reg_r _ _ (2 ^ sh)); lia). lia. }
  (* the two shifts of binary_round_aux *)
  unfold binary_round. rewrite Hf. unfold shl_align.
  destruct (sh - 0) as [|p|p] eqn:Hs; try lia.
  unfold binary_round_aux.
  rewrite (shr_fexp_shift m 0 sh Hsh) by (rewrite Hf; lia).
  cbn [shr_m]. fold q'. rewrite Z.add_0_l.
  destruct q' as [|q|q] eqn:Eq'; try lia.
  destruct (Z.eq_dec (Zpos q) (2 ^ 53)) as [Etop|Ntop].
  - (* the significand has rounded up to 2^53: one more shift *)
    assert (Hdq : Zpos (digits2_pos q) = 54).
    { rewrite digits2_pos_log2, Etop. reflexivity. }
    rewrite (shr_fexp_shift q sh 1) by (unfold fexp, emin, prec, emax; lia).
    cbn [shr_m]. rewrite Etop. change (2 ^ 53 / 2 ^ 1) with (Zpos 4503599627370496).
    cbv iota. rewrite Er, Etop.
    assert (E2 : 2 ^ 53 * 2 ^ sh = 2 ^ (53 + sh)) by (rewrite Z.pow_add_r by lia; reflexivity).
    rewrite E2.
    destruct (Z.leb_spec (sh + 1) (emax - prec)) as [Hle|Hgt]; unfold emax, prec in *.
    + destruct (Z.leb_spec (2 ^ 1024) (2 ^ (53 + sh))) as [Hbig|_].
      * exfalso. assert (2 ^ (53 + sh) < 2 ^ 1024) by (apply Z.pow_lt_mono_r; lia). lia.
      * unfold Math_floor, floorZ. destruct (Z.leb_spec 0 (sh + 1)); [|lia].
        f_equal. rewrite <- E2.
        replace (2 ^ (sh + 1)) with (2 * 2 ^ sh) by (rewrite Z.pow_add_r by lia; lia).
        destruct s; cbn [cond_Zopp]; lia.
    + destruct (Z.leb_spec (2 ^ 1024) (2 ^ (53 + sh))) as [_|Hsmall]; [reflexivity|].
      exfalso. assert (2 ^ 1024 <= 2 ^ (53 + sh)) by (apply Z.pow_le_mono_r; lia). lia.
  - (* 53 bits: no further shift *)
    assert (Hdq : Zpos (digits2_pos q) = 53) by (apply digits_53; lia).
    rewrite (shr_fexp_canonical q sh) by (rewrite Hdq; unfold fexp, emin, prec, emax; lia).
    cbn [shr_m]. rewrite Er.
    destruct (Z.leb_spec sh (emax - prec)) as [Hle|Hgt]; unfold emax, prec in *.
    + destruct (Z.leb_spec (2 ^ 1024) (Zpos q * 2 ^ sh)) as [Hbig|_].
      * exfalso.
        assert (2 ^ (53 + sh) <= 2 ^ 1024) by (apply Z.pow_le_mono_r; lia).
        rewrite Z.pow_add_r in H by lia. nia.
      * unfold Math_floor, floorZ. destruct (Z.leb_spec 0 sh); [|lia].
        f_equal. destruct s; cbn [cond_Zopp]; lia.
    + destruct (Z.leb_spec (2 ^ 1024) (Zpos q * 2 ^ sh)) as [_|Hsmall]; [reflexivity|].
      exfalso.
      assert (2 ^ 1024 <= 2 ^ (52 + sh)) by (apply Z.pow_le_mono_r; lia).
      rewrite Z.pow_add_r in H by lia. nia.
Qed.

(** [Number] rounds to nearest, ties to even. *)
Lemma Number_nearestDouble (z : Z) : Number z = nearestDouble z.
Proof.
  unfold Number, nearestDouble, ofZ, binary_normalize. destruct z as [|m|m].
  - reflexivity.
  - change (Z.abs (Zpos m)) with (Zpos m). change (Zpos m <? 0) with false.
    change (Z.sgn (Zpos m)) with 1. rewrite Z.mul_1_l.
    destruct (Z_lt_le_dec (Zpos m) (2 ^ 53)) as [Hs|Hl].
    + destruct (binary_round_small false m Hs) as (m' & e & E & He & Hv). rewrite E.
      rewrite round53_small by lia.
      destruct (Z.leb_spec (2 ^ emax) (Zpos m)) as [Hbig|_].
      { assert (2 ^ 53 < 2 ^ emax) by (apply Z.pow_lt_mono_r; unfold emax; lia). lia. }
      unfold Math_floor, floorZ, cond_Zopp. f_equal. rewrite Hv.
      destruct (Z.leb_spec 0 e).
      * assert (e = 0) by lia. subst e. simpl. lia.
      * apply Z.div_mul. apply Z.pow_nonzero; lia.
    + rewrite (binary_round_large false m Hl). reflexivity.
  - change (Z.abs (Zneg m)) with (Zpos m). change (Zneg m <? 0) with true.
    change (Z.sgn (Zneg m)) with (-1).
    destruct (Z_lt_le_dec (Zpos m) (2 ^ 53)) as [Hs|Hl].
    + destruct (binary_round_small true m Hs) as (m' & e & E & He & Hv). rewrite E.
      rewrite round53_small by lia.
      destruct (Z.leb_spec (2 ^ emax) (Zpos m)) as [Hbig|_].
      { assert (2 ^ 53 < 2 ^ emax) by (apply Z.pow_lt_mono_r; unfold emax; lia). lia. }
      unfold Math_floor, floorZ, cond_Zopp. f_equal. rewrite Hv.
      destruct (Z.leb_spec 0 e).
      * assert (e = 0) by lia. subst e. simpl. lia.
      * rewrite <- Z.mul_opp_l. rewrite Z.div_mul by (apply Z.pow_nonzero; lia). lia.
    + rewrite (binary_round_large true m Hl).
      destruct (2 ^ emax <=? round53 (Zpos m)); [reflexivity|].
      f_equal; cbn [cond_Zopp]; lia.
Qed.

(** ** [Number] of a BigInt *)

Lemma round53_le_pow53 (a : Z) : 0 <= a <= 2 ^ 53 -> round53 a = a.
Proof.
  intros H. destruct (Z.eq_dec a (2 ^ 53)) as [->|]; [reflexivity|].
  apply round53_small. lia.
Qed.

Lemma Number_exact (z : Z) : 0 <= z <= 2 ^ 53 -> Number z = Int z.
Proof.
  intros H. rewrite Number_nearestDouble. unfold nearestDouble.
  rewrite Z.abs_eq by lia. rewrite round53_le_pow53 by lia.
  destruct (Z.leb_spec (2 ^ emax) z).
  - assert (2 ^ 53 < 2 ^ emax) by (apply Z.pow_lt_mono_r; unfold emax; lia). lia.
  - f_equal. destruct (Z.eq_dec z 0) as [->|]; [reflexivity|].
    rewrite Z.sgn_pos by lia. lia.
Qed.

Lemma Number_nonneg (z : Z) :
  0 <= z -> Number z = Infinity false \/ exists r, Number z = Int r /\ r = round53 z.
Proof.
  intros H. rewrite Number_nearestDouble. unfold nearestDouble. rewrite Z.abs_eq by lia.
  destruct (Z.leb_spec (2 ^ emax) (round53 z)).
  - left. destruct (Z.ltb_spec z 0); [lia | reflexivity].
  - right. eexists. split; [reflexivity|].
    destruct (Z.eq_dec z 0) as [->|]; [reflexivity|].
    rewrite Z.sgn_pos by lia. lia.
Qed.

Lemma Number_mono (a b : Z) : 0 <= a <= b -> jsint_le (Number a) (Number b).
Proof.
  intros [Ha Hab]. pose proof (round53_mono a b (conj Ha Hab)) as Hm.
  rewrite !Number_nearestDouble. unfold nearestDouble. rewrite !Z.abs_eq by lia.
  replace (a <? 0) with false by (symmetry; apply Z.ltb_ge; lia).
  replace (b <? 0) with false by (symmetry; apply Z.ltb_ge; lia).
  assert (Ea : Z.sgn a * round53 a = round53 a).
  { destruct (Z.eq_dec a 0) as [->|]; [reflexivity|]. rewrite Z.sgn_pos by lia. lia. }
  assert (Eb : Z.sgn b * round53 b = round53 b).
  { destruct (Z.eq_dec b 0) as [->|]; [reflexivity|]. rewrite Z.sgn_pos by lia. lia. }
  rewrite Ea, Eb.
  destruct (Z.leb_spec (2 ^ emax) (round53 a)), (Z.leb_spec (2 ^ emax) (round53 b));
    simpl; try exact I; lia.
Qed.

(** ** hashKeyToShardIndex *)

Lemma keyspace_eq : keyspace = 2 ^ 128.
Proof. reflexivity. Qed.

(** The quotient the function computes, for a hash key and a count that are
    not negative. *)
Lemma quotient_floor (h n : Z) :
  0 <= h -> 0 <= n -> Z.quot (h * n) keyspace = h * n / 2 ^ 128.
Proof.
  intros Hh Hn. rewrite keyspace_eq. apply Z.quot_div_nonneg; [|lia].
  apply Z.mul_nonneg_nonneg; lia.
Qed.

Lemma quotient_range (h p : Z) :
  0 <= h <= 2 ^ 128 - 1 -> 1 <= p -> 0 <= h * p / 2 ^ 128 <= p - 1.
Proof.
  intros Hh Hp. split.
  - apply Z.div_pos; [|lia]. apply Z.mul_nonneg_nonneg; lia.
  - assert (h * p / 2 ^ 128 < p); [|lia].
    apply Z.div_lt_upper_bound; [lia|]. nia.
Qed.

Lemma quotient_top (p : Z) : 1 <= p <= 2 ^ 128 -> (2 ^ 128 - 1) * p / 2 ^ 128 = p - 1.
Proof.
  intros Hp. symmetry. apply (Z.div_unique _ _ _ (2 ^ 128 - p)); lia.
Qed.

Lemma hashKeyToShardIndex_ok (h : Z) (sc : number) :
  Number_isFinite sc = true -> number_leb sc (S754_zero false) = false ->
  hashKeyToShardIndex h sc = Ok (Number (Z.quot (h * BigInt_of_floor sc) keyspace)).
Proof.
  intros Hf Hl. unfold hashKeyToShardIndex. rewrite Hf, Hl. reflexivity.
Qed.

(** C1 (as amended).  For a hash key [h] in [0, 2^128 - 1] and an integer
    shard count [p] with [1 <= p <= 2^53], [hashKeyToShardIndex] returns
    exactly [floor (h * p / 2^128)], a value between [0] and [p - 1]; the
    largest hash key gives [p - 1]. *)
Theorem hashKeyToShardIndex_exact_floor (h p : Z) :
  0 <= h <= 2 ^ 128 - 1 -> 1 <= p <= 2 ^ 53 ->
  hashKeyToShardIndex h (ofZ p) = Ok (Int (h * p / 2 ^ 128)) /\
  0 <= h * p / 2 ^ 128 <= p - 1 /\
  hashKeyToShardIndex (2 ^ 128 - 1) (ofZ p) = Ok (Int (p - 1)).
Proof.
  intros Hh Hp.
  destruct (ofZ_positive p Hp) as [Hf Hl].
  assert (Hr : forall k, 0 <= k <= 2 ^ 128 - 1 ->
             hashKeyToShardIndex k (ofZ p) = Ok (Int (k * p / 2 ^ 128))).
  { intros k Hk. rewrite (hashKeyToShardIndex_ok k _ Hf Hl).
    unfold BigInt_of_floor. rewrite (floorZ_ofZ p Hp).
    rewrite quotient_floor by lia.
    pose proof (quotient_range k p Hk ltac:(lia)).
    rewrite Number_exact by lia. reflexivity. }
  split; [apply Hr; exact Hh|]. split; [apply quotient_range; lia|].
  rewrite Hr by lia. rewrite quotient_top; [reflexivity|].
  assert (2 ^ 53 < 2 ^ 128) by (apply Z.pow_lt_mono_r; lia). lia.
Qed.

Lemma hashKeyToShardIndex_exact_floor_witness :
  hashKeyToShardIndex (2 ^ 128 - 1) (ofZ 8) = Ok (Int ((2 ^ 128 - 1) * 8 / 2 ^ 128)) /\
  0 <= (2 ^ 128 - 1) * 8 / 2 ^ 128 <= 8 - 1 /\
  hashKeyToShardIndex (2 ^ 128 - 1) (ofZ 8) = Ok (Int (8 - 1)).
Proof.
  apply (hashKeyToShardIndex_exact_floor (2 ^ 128 - 1) 8); lia.
Defined.

(** C1 as stated fails above 2^53.  The shard count 2^53 + 4 is an integer
    and a double; with the largest hash key the exact quotient is 2^53 + 3,
    which is not a double, and the function returns 2^53 + 4: neither the
    floor nor a value below the shard count. *)
Lemma hashKeyToShardIndex_rounds_above_2_53 :
  valid_binary prec emax (ofZ 9007199254740996) = true /\
  BigInt_of_floor (ofZ 9007199254740996) = 9007199254740996 /\
  (2 ^ 128 - 1) * 9007199254740996 / 2 ^ 128 = 9007199254740995 /\
  hashKeyToShardIndex (2 ^ 128 - 1) (ofZ 9007199254740996) = Ok (Int 9007199254740996) /\
  ~ (9007199254740996 <= 9007199254740996 - 1).
Proof.
  repeat split; try (vm_compute; reflexivity). lia.
Qed.

Lemma floorZ_nonneg (m : positive) (e : Z) : 0 <= floorZ (S754_finite false m e).
Proof.
  unfold floorZ, cond_Zopp.
  destruct (Z.leb_spec 0 e).
  - apply Z.mul_nonneg_nonneg; [lia|]. apply Z.pow_nonneg. lia.
  - apply Z.div_pos; [lia|]. apply Z.pow_pos_nonneg; lia.
Qed.

(** A finite number that is not [<= 0] is a positive finite one. *)
Lemma positive_finite (sc : number) :
  Number_isFinite sc = true -> number_leb sc (S754_zero false) = false ->
  exists m e, sc = S754_finite false m e.
Proof.
  destruct sc as [s|s| |s m e]; simpl; try discriminate.
  destruct s; [discriminate|]. intros _ _. eauto.
Qed.

Lemma at_least_one_finite (sc : number) :
  Number_isFinite sc = true -> number_leb (ofZ 1) sc = true ->
  exists m e, sc = S754_finite false m e.
Proof.
  destruct sc as [s|s| |s m e]; try discriminate.
  destruct s; [discriminate|]. intros _ _. eauto.
Qed.

(** A double that is at least 1 has a floor that is at least 1. *)
Lemma floorZ_at_least_one (sc : number) :
  valid_binary prec emax sc = true -> Number_isFinite sc = true ->
  number_leb (ofZ 1) sc = true -> 1 <= floorZ sc.
Proof.
  intros Hv Hf Hl. destruct (at_least_one_finite sc Hf Hl) as (m & e & ->).
  simpl in Hv. unfold bounded, canonical_mantissa in Hv.
  apply andb_true_iff in Hv. destruct Hv as [Hc _]. apply Z.eqb_eq in Hc.
  change (ofZ 1) with (S754_finite false 4503599627370496 (-52)) in Hl.
  unfold number_leb, SFleb, SFcompare in Hl.
  change (Pos.compare_cont Eq 4503599627370496 m)
    with (Pos.compare 4503599627370496 m) in Hl.
  assert (Hm : 0 < Zpos m) by lia.
  pose proof (Z.log2_spec (Zpos m) Hm) as [Hlo _].
  rewrite digits2_pos_log2 in Hc. unfold fexp, emin, prec, emax in Hc.
  unfold floorZ, cond_Zopp.
  destruct (Z.compare_spec (-52) e) as [He|He|He]; try discriminate.
  - subst e. change (0 <=? -52) with false. cbv iota.
    change (2 ^ (- -52)) with 4503599627370496.
    destruct (Pos.compare_spec 4503599627370496 m) as [E|L|G]; try discriminate.
    + subst m. reflexivity.
    + apply Z.div_le_lower_bound; lia.
  - assert (Hlog : Z.log2 (Zpos m) = 52) by lia.
    rewrite Hlog in Hlo.
    destruct (Z.leb_spec 0 e).
    + assert (0 < 2 ^ e) by (apply Z.pow_pos_nonneg; lia). nia.
    + apply Z.div_le_lower_bound; [apply Z.pow_pos_nonneg; lia|].
      assert (2 ^ (- e) <= 2 ^ 52) by (apply Z.pow_le_mono_r; lia). lia.
Qed.

(** C8.  For a fixed shard count that is at least 1, a larger hash key never
    gets a smaller shard index. *)
Theorem hashKeyToShardIndex_monotone (sc : number) (h1 h2 : Z) :
  Number_isFinite sc = true -> number_leb (ofZ 1) sc = true ->
  0 <= h1 -> h1 < h2 -> h2 <= 2 ^ 128 - 1 ->
  exists i1 i2,
    hashKeyToShardIndex h1 sc = Ok i1 /\ hashKeyToShardIndex h2 sc = Ok i2 /\
    jsint_le i1 i2.
Proof.
  intros Hf Hl H1 H12 H2.
  destruct (at_least_one_finite sc Hf Hl) as (m & e & ->).
  pose proof (floorZ_nonneg m e) as Hn.
  do 2 eexists. split; [|split].
  - apply hashKeyToShardIndex_ok; reflexivity.
  - apply hashKeyToShardIndex_ok; reflexivity.
  - unfold BigInt_of_floor. rewrite !quotient_floor by lia.
    apply Number_mono. split.
    + apply Z.div_pos; [|lia]. apply Z.mul_nonneg_nonneg; lia.
    + apply Z.div_le_mono; [lia|]. apply Z.mul_le_mono_nonneg_r; lia.
Qed.

Lemma hashKeyToShardIndex_monotone_witness :
  exists i1 i2,
    hashKeyToShardIndex 0 (ofZ 8) = Ok i1 /\
    hashKeyToShardIndex (2 ^ 128 - 1) (ofZ 8) = Ok i2 /\
    jsint_le i1 i2.
Proof.
  apply (hashKeyToShardIndex_monotone (ofZ 8) 0 (2 ^ 128 - 1)); [reflexivity | reflexivity | lia ..].
Defined.

(** C2 (as amended).  [hashKeyToShardIndex] fails, with 'Invalid shardCount',
    exactly when the shard count is not finite or is [<= 0].  For every other
    shard count, an integer or not, it returns, and the count it uses is the
    floor of the shard count: an integer that is at least 0, and at least 1
    when the shard count is at least 1. *)
Theorem hashKeyToShardIndex_validation (h : Z) (sc : number) :
  (hashKeyToShardIndex h sc = Err InvalidShardCount <->
   Number_isFinite sc = false \/ number_leb sc (ofZ 0) = true) /\
  (forall e, hashKeyToShardIndex h sc = Err e ->
             e = InvalidShardCount /\ kind e = InvalidPartitionCount) /\
  (Number_isFinite sc = true -> number_leb sc (ofZ 0) = false ->
   hashKeyToShardIndex h sc = Ok (Number (Z.quot (h * floorZ sc) keyspace)) /\
   Math_floor sc = Int (floorZ sc) /\ 0 <= floorZ sc) /\
  (valid_binary prec emax sc = true -> Number_isFinite sc = true ->
   number_leb (ofZ 1) sc = true -> 1 <= floorZ sc).
Proof.
  change (ofZ 0) with (S754_zero false).
  split; [|split; [|split]].
  - unfold hashKeyToShardIndex.
    destruct (Number_isFinite sc), (number_leb sc (S754_zero false)); simpl;
      split; intros H; try reflexivity; try discriminate; auto;
      destruct H; discriminate.
  - unfold hashKeyToShardIndex.
    destruct (negb (Number_isFinite sc) || number_leb sc (S754_zero false)); intros e He.
    + inversion He. split; reflexivity.
    + discriminate.
  - intros Hf Hl. split; [apply hashKeyToShardIndex_ok; assumption|].
    destruct (positive_finite sc Hf Hl) as (m & e & ->).
    split; [reflexivity | apply floorZ_nonneg].
  - apply floorZ_at_least_one.
Qed.

Lemma hashKeyToShardIndex_validation_witness :
  hashKeyToShardIndex 5 (S754_finite false 5629499534213120 (-51)) =
    Ok (Number (Z.quot (5 * floorZ (S754_finite false 5629499534213120 (-51))) keyspace)) /\
  1 <= floorZ (S754_finite false 5629499534213120 (-51)).
Proof.
  destruct (hashKeyToShardIndex_validation 5 (S754_finite false 5629499534213120 (-51)))
    as (_ & _ & H3 & H4).
  split.
  - apply H3; reflexivity.
  - apply H4; reflexivity.
Defined.

(** C2 as stated fails between 0 and 1.  One half is a double, finite and not
    [<= 0]; the call returns, and the count it has used is [floor 0.5 = 0],
    which is not at least 1. *)
Lemma hashKeyToShardIndex_one_half :
  SFdiv prec emax (ofZ 1) (ofZ 2) = S754_finite false 4503599627370496 (-53) /\
  valid_binary prec emax (S754_finite false 4503599627370496 (-53)) = true /\
  Number_isFinite (S754_finite false 4503599627370496 (-53)) = true /\
  number_leb (S754_finite false 4503599627370496 (-53)) (ofZ 0) = false /\
  hashKeyToShardIndex (2 ^ 128 - 1) (S754_finite false 4503599627370496 (-53)) = Ok (Int 0) /\
  BigInt_of_floor (S754_finite false 4503599627370496 (-53)) = 0 /\
  ~ (1 <= BigInt_of_floor (S754_finite false 4503599627370496 (-53))).
Proof.
  repeat split; try (vm_compute; reflexivity).
  vm_compute. intros H. apply H. reflexivity.
Qed.

(** ** md5ToBigInt *)

Lemma isLowerHex_spec (c : char) : isLowerHex c = true <-> isHexChar c.
Proof. unfold isLowerHex, isHexChar. lia. Qed.

Lemma isMd5Hex_spec (s : jsstring) : isMd5Hex s = true <-> isDigest s.
Proof.
  unfold isMd5Hex, isDigest.
  rewrite andb_true_iff, Nat.eqb_eq, forallb_forall, Forall_forall.
  split; intros [H1 H2]; (split; [exact H1|]); intros c Hc; apply isLowerHex_spec, H2, Hc.
Qed.

Lemma hexDigit_digitValue (c : char) : isHexChar c -> hexDigit c = digitValue c.
Proof.
  unfold isHexChar, hexDigit, digitValue. intros H.
  destruct (Z.leb_spec 48 c), (Z.leb_spec c 57); cbn [andb]; lia.
Qed.

Lemma digitValue_range (c : char) : isHexChar c -> 0 <= digitValue c <= 15.
Proof.
  unfold isHexChar, digitValue. intros H.
  destruct (Z.leb_spec 48 c), (Z.leb_spec c 57); cbn [andb]; lia.
Qed.

Lemma fold_hex (s : jsstring) (acc : Z) :
  Forall isHexChar s ->
  fold_left (fun a c => a * 16 + hexDigit c) s acc =
  acc * 16 ^ Z.of_nat (List.length s) + hexValue s.
Proof.
  intros H. revert acc. induction H as [|c s Hc Hs IH]; intros acc.
  - simpl. lia.
  - cbn [fold_left hexValue List.length]. rewrite IH, (hexDigit_digitValue c Hc).
    rewrite Nat2Z.inj_succ, Z.pow_succ_r by lia. lia.
Qed.

Lemma BigInt_of_hex_value (s : jsstring) :
  Forall isHexChar s -> BigInt_of_hex s = hexValue s.
Proof. intros H. unfold BigInt_of_hex. rewrite fold_hex by assumption. lia. Qed.

Lemma hexValue_range (s : jsstring) :
  Forall isHexChar s -> 0 <= hexValue s <= 16 ^ Z.of_nat (List.length s) - 1.
Proof.
  induction 1 as [|c s Hc Hs IH]; [simpl; lia|].
  cbn [hexValue List.length]. rewrite Nat2Z.inj_succ, Z.pow_succ_r by lia.
  pose proof (digitValue_range c Hc).
  assert (0 < 16 ^ Z.of_nat (List.length s)) by (apply Z.pow_pos_nonneg; lia).
  nia.
Qed.

(** *** Trimming *)

Lemma trimStart_white (ws s : jsstring) :
  allWhite ws -> trimStart (ws ++ s) = trimStart s.
Proof.
  induction 1 as [|c ws Hc _ IH]; [reflexivity|]. simpl. rewrite Hc. exact IH.
Qed.

Lemma trimStart_id (s : jsstring) :
  Forall (fun c => isWhiteSpace c = false) s -> trimStart s = s.
Proof. destruct 1 as [|c s Hc _]; [reflexivity|]. simpl. rewrite Hc. reflexivity. Qed.

Lemma trimEnd_white (s ws : jsstring) :
  allWhite ws -> trimEnd (s ++ ws) = trimEnd s.
Proof.
  intros H. unfold trimEnd. rewrite rev_app_distr, trimStart_white; [reflexivity|].
  apply Forall_rev. exact H.
Qed.

Lemma trimEnd_id (s : jsstring) :
  Forall (fun c => isWhiteSpace c = false) s -> trimEnd s = s.
Proof.
  intros H. unfold trimEnd. rewrite trimStart_id by (apply Forall_rev; exact H).
  apply rev_involutive.
Qed.

(** White space around a string that has none is trimmed away. *)
Lemma trim_surrounded (ws1 d ws2 : jsstring) :
  allWhite ws1 -> allWhite ws2 -> Forall (fun c => isWhiteSpace c = false) d ->
  trim (ws1 ++ d ++ ws2) = d.
Proof.
  intros H1 H2 Hd. unfold trim. rewrite trimStart_white by exact H1.
  destruct d as [|c d].
  - simpl. rewrite <- (app_nil_r ws2), trimStart_white by exact H2. reflexivity.
  - assert (Hs : trimStart ((c :: d) ++ ws2) = (c :: d) ++ ws2).
    { inversion Hd as [|? ? Hc _]. simpl. rewrite Hc. reflexivity. }
    rewrite Hs, trimEnd_white by exact H2. apply trimEnd_id. exact Hd.
Qed.

Lemma hex_not_white (c : char) : isLowerHex (lowerChar c) = true -> isWhiteSpace c = false.
Proof.
  unfold isLowerHex, lowerChar, isWhiteSpace.
  destruct ((65 <=? c) && (c <=? 90)) eqn:E; lia.
Qed.

Lemma digest_not_white (d : jsstring) :
  isDigest (toLowerCase d) -> Forall (fun c => isWhiteSpace c = false) d.
Proof.
  intros [_ H]. unfold toLowerCase in H. rewrite Forall_map in H.
  eapply Forall_impl; [|exact H]. intros c Hc. apply hex_not_white, isLowerHex_spec, Hc.
Qed.

(** C3.  [md5ToBigInt] trims and lower-cases its input.  If what is left is
    exactly 32 hexadecimal characters it returns their base-16 value, which
    lies in [0, 2^128 - 1]; otherwise it fails with 'Invalid MD5 hex'.  So
    white space around a digest and upper-case digits in it do not matter.
    The result depends on the input alone; the all-zeros digest gives 0 and
    the all-f digest gives 2^128 - 1. *)
Theorem md5ToBigInt_spec (md5hex : jsstring) :
  (isDigest (toLowerCase (trim md5hex)) ->
     md5ToBigInt md5hex = Ok (hexValue (toLowerCase (trim md5hex))) /\
     0 <= hexValue (toLowerCase (trim md5hex)) <= 2 ^ 128 - 1) /\
  (~ isDigest (toLowerCase (trim md5hex)) ->
     md5ToBigInt md5hex = Err InvalidMD5Hex /\ kind InvalidMD5Hex = InvalidDigestFormat) /\
  (forall ws1 d ws2,
     allWhite ws1 -> allWhite ws2 -> isDigest (toLowerCase d) ->
     md5hex = ws1 ++ d ++ ws2 ->
     md5ToBigInt md5hex = Ok (hexValue (toLowerCase d))) /\
  (forall v w, md5ToBigInt md5hex = Ok v -> md5ToBigInt md5hex = Ok w -> v = w) /\
  md5ToBigInt (str "00000000000000000000000000000000") = Ok 0 /\
  md5ToBigInt (str "ffffffffffffffffffffffffffffffff") = Ok (2 ^ 128 - 1).
Proof.
  assert (Hok : forall s, isDigest (toLowerCase (trim s)) ->
                md5ToBigInt s = Ok (hexValue (toLowerCase (trim s))) /\
                0 <= hexValue (toLowerCase (trim s)) <= 2 ^ 128 - 1).
  { intros s H. pose proof H as [Hlen Hall]. unfold md5ToBigInt.
    rewrite (proj2 (isMd5Hex_spec _) H). simpl negb. cbv iota.
    rewrite (BigInt_of_hex_value _ Hall). split; [reflexivity|].
    pose proof (hexValue_range _ Hall) as Hr. rewrite Hlen in Hr. exact Hr. }
  split; [apply Hok|]. split; [|split; [|split; [|split]]].
  - intros H. unfold md5ToBigInt.
    destruct (isMd5Hex (toLowerCase (trim md5hex))) eqn:E.
    + exfalso. apply H. apply isMd5Hex_spec. exact E.
    + split; reflexivity.
  - intros ws1 d ws2 H1 H2 Hd ->.
    pose proof (trim_surrounded ws1 d ws2 H1 H2 (digest_not_white d Hd)) as Ht.
    assert (Hd' : isDigest (toLowerCase (trim (ws1 ++ d ++ ws2)))) by (rewrite Ht; exact Hd).
    destruct (Hok _ Hd') as [E _]. rewrite Ht in E. exact E.
  - intros v w Hv Hw. rewrite Hv in Hw. inversion Hw. reflexivity.
  - vm_compute. reflexivity.
  - vm_compute. reflexivity.
Qed.

Lemma md5ToBigInt_spec_witness :
  md5ToBigInt (str "  0123456789ABCDEFabcdef9876543210 ") =
    Ok (hexValue (str "0123456789abcdefabcdef9876543210")) /\
  md5ToBigInt (str "xyz") = Err InvalidMD5Hex /\
  md5ToBigInt (str "  " ++ str "FFFFFFFFFFFFFFFFFFFFFFFFFFFFFFFF" ++ str " ") =
    Ok (hexValue (toLowerCase (str "FFFFFFFFFFFFFFFFFFFFFFFFFFFFFFFF"))).
Proof.
  destruct (md5ToBigInt_spec (str "  0123456789ABCDEFabcdef9876543210 ")) as (H1 & _).
  destruct (md5ToBigInt_spec (str "xyz")) as (_ & H2 & _).
  destruct (md5ToBigInt_spec (str "  " ++ str "FFFFFFFFFFFFFFFFFFFFFFFFFFFFFFFF" ++ str " "))
    as (_ & _ & H3 & _).
  split; [|split].
  - apply H1. apply isMd5Hex_spec. vm_compute. reflexivity.
  - apply H2. intros H. apply isMd5Hex_spec in H. vm_compute in H. discriminate.
  - apply (H3 (str "  ") (str "FFFFFFFFFFFFFFFFFFFFFFFFFFFFFFFF") (str " ")).
    + repeat constructor.
    + repeat constructor.
    + apply isMd5Hex_spec. vm_compute. reflexivity.
    + reflexivity.
Defined.

(** ** summarizeDistribution *)

(** *** Integers as shard counts *)

(** The double that [ofZ] makes of an integer of at most 53 bits holds that
    integer. *)
Lemma ofZ_exact (p : Z) :
  p <> 0 -> - 2 ^ 53 < p < 2 ^ 53 ->
  exists m' e, ofZ p = S754_finite (p <? 0) m' e /\ e <= 0 /\
               Zpos m' = Z.abs p * 2 ^ (- e).
Proof.
  intros Hn Hp. destruct p as [|m|m]; [congruence| |].
  - apply (binary_round_small false m). lia.
  - apply (binary_round_small true m). lia.
Qed.

Lemma int_ltb_ofZ (i p : Z) :
  - 2 ^ 53 < p < 2 ^ 53 -> int_ltb i (ofZ p) = (i <? p).
Proof.
  intros Hp. destruct (Z.eq_dec p 0) as [->|Hn]; [reflexivity|].
  destruct (ofZ_exact p Hn Hp) as (m' & e & E & He & Hv). rewrite E. unfold int_ltb.
  assert (Hpow : 0 < 2 ^ (- e)) by (apply Z.pow_pos_nonneg; lia).
  assert (Hs : cond_Zopp (p <? 0) (Zpos m') = p * 2 ^ (- e)).
  { rewrite Hv. destruct (Z.ltb_spec p 0); cbn [cond_Zopp]; [rewrite Z.abs_neq | rewrite Z.abs_eq]; lia. }
  cbv zeta. rewrite Hs.
  destruct (Z.leb_spec 0 e).
  - assert (e = 0) by lia. subst e. f_equal. simpl. lia.
  - destruct (Z.ltb_spec (i * 2 ^ (- e)) (p * 2 ^ (- e))), (Z.ltb_spec i p);
      try reflexivity; nia.
Qed.

Lemma ToLength_ofZ (p : Z) :
  - 2 ^ 53 < p < 2 ^ 53 -> ToLength (ofZ p) = Z.max 0 p.
Proof.
  intros Hp. destruct (Z.eq_dec p 0) as [->|Hn]; [reflexivity|].
  destruct (ofZ_exact p Hn Hp) as (m' & e & E & He & Hv).
  destruct (Z.ltb_spec p 0) as [Hneg|Hpos].
  - rewrite E. cbn [ToLength]. lia.
  - pose proof (floorZ_ofZ p ltac:(lia)) as Hf. rewrite E in *. cbn [ToLength].
    rewrite Hf. lia.
Qed.

Lemma ToLength_nothing (sc : number) :
  sc = S754_nan \/ number_leb sc (ofZ 0) = true -> ToLength sc = 0.
Proof.
  intros [->|H]; [reflexivity|].
  destruct sc as [s|s| |s m e]; try discriminate; try reflexivity;
    destruct s; (reflexivity || discriminate).
Qed.

(** *** The count array *)

Lemma Array_from_zeros_ok (sc : number) :
  ToLength sc < 2 ^ 32 ->
  Array_from_zeros sc = Ok (repeat (Int 0) (Z.to_nat (ToLength sc))).
Proof.
  intros H. unfold Array_from_zeros.
  destruct (Z.leb_spec (2 ^ 32) (ToLength sc)); [lia | reflexivity].
Qed.

Lemma increment_ints (cs : list Z) (i : nat) :
  (i < List.length cs)%nat ->
  exists cs',
    increment (List.map Int cs) i = List.map Int cs' /\
    List.length cs' = List.length cs /\
    (forall j, nth j cs' 0 = nth j cs 0 + (if Nat.eqb j i then 1 else 0)) /\
    sumZ cs' = sumZ cs + 1.
Proof.
  revert i. induction cs as [|c cs IH]; intros i Hi; simpl in Hi; [lia|].
  destruct i as [|i].
  - exists ((c + 1) :: cs). repeat split; simpl; try lia.
    intros [|j]; simpl; lia.
  - destruct (IH i ltac:(lia)) as (cs' & E & Hl & Hn & Hs).
    exists (c :: cs'). cbn [List.map increment]. rewrite E.
    repeat split; simpl; try lia.
    intros [|j]; simpl; [lia | apply Hn].
Qed.

(** An integer below 2^32 - 1 is an array index. *)
Lemma bump_index (cs : list jsint) (idx : Z) :
  idx < 2 ^ 32 - 1 -> bump cs idx = increment cs (Z.to_nat idx).
Proof. intros H. unfold bump. destruct (Z.ltb_spec idx (2 ^ 32 - 1)); [reflexivity | lia]. Qed.

Lemma bump_property (cs : list jsint) (idx : Z) :
  2 ^ 32 - 1 <= idx -> bump cs idx = cs.
Proof. intros H. unfold bump. destruct (Z.ltb_spec idx (2 ^ 32 - 1)); [lia | reflexivity]. Qed.

Section Counting.

Variable p : Z.
Hypothesis p_double : - 2 ^ 53 < p < 2 ^ 53.
Hypothesis p_array : p < 2 ^ 32.

(** With an integer shard count the counts stay integers: the bucket of [j]
    grows by the number of times [j] is found, and the sum by the number of
    indexes inside the range. *)
Lemma tally_ints (idxs : list Z) :
  forall cs,
    List.length cs = Z.to_nat p ->
    exists cs',
      tally (ofZ p) idxs (List.map Int cs) = List.map Int cs' /\
      List.length cs' = Z.to_nat p /\
      (forall j, 0 <= j < p -> bucket cs' j = bucket cs j + occurrences j idxs) /\
      sumZ cs' = sumZ cs + Z.of_nat (List.length (filter (inRange p) idxs)).
Proof.
  unfold tally, bucket, occurrences, inRange.
  induction idxs as [|idx idxs IH]; intros cs Hlen.
  - exists cs. simpl. repeat split; try assumption; intros; lia.
  - cbn [fold_left]. rewrite int_ltb_ofZ by exact p_double.
    destruct (Z.leb_spec 0 idx), (Z.ltb_spec idx p); cbn [andb filter count_occ];
      try (destruct (IH cs Hlen) as (cs' & E & Hl & Hn & Hs);
           exists cs'; rewrite E; repeat split; try assumption;
           [intros j Hj; rewrite (Hn j Hj); destruct (Z.eq_dec idx j); lia
           | rewrite Hs;
             destruct (Z.leb_spec 0 idx), (Z.ltb_spec idx p); cbn [andb]; lia]).
    rewrite bump_index by lia.
    destruct (increment_ints cs (Z.to_nat idx) ltac:(lia)) as (cs1 & E1 & Hl1 & Hn1 & Hs1).
    rewrite E1.
    destruct (IH cs1 ltac:(lia)) as (cs' & E & Hl & Hn & Hs).
    exists cs'. rewrite E. repeat split; try assumption.
    + intros j Hj. rewrite (Hn j Hj), Hn1.
      destruct (Z.eq_dec idx j) as [->|Hne].
      * rewrite Nat.eqb_refl. lia.
      * destruct (Nat.eqb_spec (Z.to_nat j) (Z.to_nat idx)); lia.
    + rewrite Hs, Hs1.
      destruct (Z.leb_spec 0 idx), (Z.ltb_spec idx p); cbn [andb List.length]; lia.
Qed.

End Counting.

Lemma sumZ_repeat_zero (n : nat) : sumZ (repeat 0 n) = 0.
Proof. induction n; simpl; lia. Qed.

Lemma bucket_repeat_zero (n : nat) (j : Z) : bucket (repeat 0 n) j = 0.
Proof.
  unfold bucket. generalize (Z.to_nat j). induction n; intros [|k]; simpl; auto.
Qed.

Lemma map_Int_repeat (n : nat) : repeat (Int 0) n = List.map Int (repeat 0 n).
Proof. induction n; simpl; congruence. Qed.

Lemma filter_all (p : Z) (idxs : list Z) :
  Forall (fun idx => 0 <= idx < p) idxs -> filter (inRange p) idxs = idxs.
Proof.
  induction 1 as [|idx idxs H _ IH]; simpl; [reflexivity|].
  unfold inRange at 1. destruct (Z.leb_spec 0 idx), (Z.ltb_spec idx p); cbn [andb]; try lia.
  rewrite IH. reflexivity.
Qed.

(** *** The largest count *)

(** The scan over integer counts, started at index [i] with a largest count
    [m0] found at [s0]. *)
Lemma scanMax_from (cs : list Z) (i m0 s0 : Z) :
  exists m s,
    scanMax (List.map Int cs) i (Int m0) s0 = (Int m, s) /\ m0 <= m /\
    Forall (fun c => c <= m) cs /\
    ((m = m0 /\ s = s0) \/
     (m0 < m /\ exists k, (k < List.length cs)%nat /\ s = i + Z.of_nat k /\
                          nth k cs 0 = m /\
                          forall j, (j < k)%nat -> nth j cs 0 < m)).
Proof.
  revert i m0 s0. induction cs as [|c cs IH]; intros i m0 s0.
  - exists m0, s0. simpl. repeat split; auto; lia.
  - cbn [List.map scanMax jsint_ltb]. destruct (Z.ltb_spec m0 c) as [Hlt|Hge].
    + destruct (IH (i + 1) c i) as (m & s & E & Hm & Hall & Hcase).
      exists m, s. rewrite E. split; [reflexivity|]. split; [lia|].
      split; [constructor; [lia | exact Hall]|]. right. split; [lia|].
      destruct Hcase as [[-> ->]|(Hcm & k & Hk & -> & Hn & Hbefore)].
      * exists O. simpl. repeat split; try lia.
      * exists (S k). simpl. repeat split; try lia.
        intros [|j] Hj; [lia|]. apply Hbefore. lia.
    + destruct (IH (i + 1) m0 s0) as (m & s & E & Hm & Hall & Hcase).
      exists m, s. rewrite E. split; [reflexivity|]. split; [lia|].
      split; [constructor; [lia | exact Hall]|].
      destruct Hcase as [[-> ->]|(Hcm & k & Hk & -> & Hn & Hbefore)]; [left; auto|].
      right. split; [lia|]. exists (S k). simpl. repeat split; try lia.
      intros [|j] Hj; [lia|]. apply Hbefore. lia.
Qed.

(** The whole scan over integer counts, at least one: the largest count and
    the first index that holds it. *)
Lemma scanMax_first_maximum (cs : list Z) :
  cs <> [] ->
  exists m k,
    scanMax (List.map Int cs) 0 (Infinity true) 0 = (Int m, Z.of_nat k) /\
    (k < List.length cs)%nat /\ nth k cs 0 = m /\
    (forall j, (j < List.length cs)%nat -> nth j cs 0 <= m) /\
    (forall j, (j < k)%nat -> nth j cs 0 < m).
Proof.
  destruct cs as [|c cs]; [congruence|]. intros _.
  cbn [List.map scanMax jsint_ltb].
  destruct (scanMax_from cs (0 + 1) c 0) as (m & s & E & Hm & Hall & Hcase).
  rewrite E.
  assert (Hle : forall j, (j < List.length (c :: cs))%nat -> nth j (c :: cs) 0 <= m).
  { intros [|j] Hj; simpl in *; [lia|].
    rewrite Forall_forall in Hall. apply Hall, nth_In. lia. }
  destruct Hcase as [[-> ->]|(Hcm & k & Hk & -> & Hn & Hbefore)].
  - exists c, O. simpl. repeat split; auto; try lia.
  - exists m, (S k). split; [f_equal; lia|]. simpl. repeat split; auto; try lia.
    intros [|j] Hj; [lia|]. apply Hbefore. lia.
Qed.

(** *** The summary *)

(** The summary, field by field, when the array can be built. *)
Lemma summarizeDistribution_fields (sc : number) (idxs : list Z) :
  ToLength sc < 2 ^ 32 ->
  exists s,
    summarizeDistribution sc idxs = Ok s /\
    shardCount s = sc /\
    counts s = tally sc idxs (repeat (Int 0) (Z.to_nat (ToLength sc))) /\
    totalKeys s = Z.of_nat (List.length idxs) /\
    avg s = SFdiv prec emax (ofZ (Z.of_nat (List.length idxs))) sc /\
    (maxCount s, maxShard s) = scanMax (counts s) 0 (Infinity true) 0.
Proof.
  intros Hp. unfold summarizeDistribution.
  rewrite (Array_from_zeros_ok sc Hp). cbn [bind].
  destruct (scanMax (tally sc idxs (repeat (Int 0) (Z.to_nat (ToLength sc)))) 0
              (Infinity true) 0) as [mc ms] eqn:E.
  eexists. split; [reflexivity|]. cbn. rewrite E. repeat split; reflexivity.
Qed.

(** The summary for an integer shard count [p] below 2^32: the counts are
    integers. *)
Lemma summarizeDistribution_integer (p : Z) (idxs : list Z) :
  0 <= p < 2 ^ 32 ->
  exists s cs,
    summarizeDistribution (ofZ p) idxs = Ok s /\
    counts s = List.map Int cs /\
    List.length cs = Z.to_nat p /\
    (forall j, 0 <= j < p -> bucket cs j = occurrences j idxs) /\
    sumZ cs = Z.of_nat (List.length (filter (inRange p) idxs)) /\
    totalKeys s = Z.of_nat (List.length idxs) /\
    avg s = SFdiv prec emax (ofZ (totalKeys s)) (ofZ p) /\
    (maxCount s, maxShard s) = scanMax (List.map Int cs) 0 (Infinity true) 0.
Proof.
  intros Hp.
  assert (Hd : - 2 ^ 53 < p < 2 ^ 53) by lia.
  assert (Hl : ToLength (ofZ p) = p) by (rewrite ToLength_ofZ; lia).
  destruct (summarizeDistribution_fields (ofZ p) idxs) as (s & E & _ & Hc & Ht & Ha & Hs);
    [lia|].
  rewrite Hl, map_Int_repeat in Hc.
  destruct (tally_ints p Hd ltac:(lia) idxs (repeat 0 (Z.to_nat p)) (repeat_length _ _))
    as (cs & Ec & Hlen & Hn & Hsum).
  rewrite Ec in Hc. rewrite Hc in Hs.
  exists s, cs. split; [exact E|]. split; [exact Hc|]. split; [exact Hlen|].
  split; [|split; [|split; [|split]]].
  - intros j Hj. rewrite (Hn j Hj), bucket_repeat_zero. lia.
  - rewrite Hsum, sumZ_repeat_zero. lia.
  - exact Ht.
  - rewrite Ht. exact Ha.
  - exact Hs.
Qed.

(** C5 (as amended).  For an integer shard count [p] with [0 <= p < 2^32] the
    summary exists, whatever the indexes are.  Its count array has [p]
    buckets, all integers, and the bucket of [j] holds the number of times
    [j] is found among the indexes, so that an index outside [0, p) counts
    nowhere and raises nothing; [totalKeys] is the number of indexes; the
    counts add up to the number of indexes inside the range, and to
    [totalKeys] when all of them are. *)
Theorem summarizeDistribution_counts (p : Z) (idxs : list Z) :
  0 <= p < 2 ^ 32 ->
  exists s cs,
    summarizeDistribution (ofZ p) idxs = Ok s /\
    counts s = List.map Int cs /\
    Z.of_nat (List.length cs) = p /\
    (forall j, 0 <= j < p -> bucket cs j = occurrences j idxs) /\
    totalKeys s = Z.of_nat (List.length idxs) /\
    sumZ cs = Z.of_nat (List.length (filter (inRange p) idxs)) /\
    (Forall (fun idx => 0 <= idx < p) idxs -> sumZ cs = totalKeys s).
Proof.
  intros Hp.
  destruct (summarizeDistribution_integer p idxs Hp)
    as (s & cs & E & Hc & Hlen & Hn & Hsum & Ht & _).
  exists s, cs. split; [exact E|]. split; [exact Hc|]. split; [lia|].
  split; [exact Hn|]. split; [exact Ht|]. split; [exact Hsum|].
  intros Hall. rewrite Hsum, Ht, (filter_all p idxs Hall). reflexivity.
Qed.

Lemma summarizeDistribution_counts_witness :
  exists s cs,
    summarizeDistribution (ofZ 4) [0; 7; 1; -1; 0] = Ok s /\
    counts s = List.map Int cs /\
    Z.of_nat (List.length cs) = 4 /\
    (forall j, 0 <= j < 4 -> bucket cs j = occurrences j [0; 7; 1; -1; 0]) /\
    totalKeys s = Z.of_nat (List.length [0; 7; 1; -1; 0]) /\
    sumZ cs = Z.of_nat (List.length (filter (inRange 4) [0; 7; 1; -1; 0])) /\
    (Forall (fun idx => 0 <= idx < 4) [0; 7; 1; -1; 0] -> sumZ cs = totalKeys s).
Proof.
  apply (summarizeDistribution_counts 4 [0; 7; 1; -1; 0]). lia.
Defined.

(** C5 as stated fails from 2^32 on: 2^32 is an integer and a double, and
    [Array.from] raises a RangeError for that length, so that no count array
    is built. *)
Lemma summarizeDistribution_no_array_at_2_32 :
  valid_binary prec emax (ofZ 4294967296) = true /\
  floorZ (ofZ 4294967296) = 4294967296 /\
  summarizeDistribution (ofZ 4294967296) [0] = Err InvalidArrayLength.
Proof. repeat split. Qed.

(** C9 (as amended).  For an integer shard count [p] with [1 <= p < 2^32] the
    summary has [totalKeys] the number of indexes and [avg] the quotient of
    [totalKeys] by [p]; [maxCount] is the largest count and [maxShard] the
    first index that holds it.  [summarizeDistribution 4 [0;0;1;2;2;2]] has
    the counts [2;1;3;0], 6 keys, the average 1.5 and the largest count 3 at
    index 2. *)
Theorem summarizeDistribution_maximum (p : Z) (idxs : list Z) :
  1 <= p < 2 ^ 32 ->
  (exists s cs m,
    summarizeDistribution (ofZ p) idxs = Ok s /\
    counts s = List.map Int cs /\
    totalKeys s = Z.of_nat (List.length idxs) /\
    avg s = SFdiv prec emax (ofZ (totalKeys s)) (ofZ p) /\
    maxCount s = Int m /\
    0 <= maxShard s < p /\
    bucket cs (maxShard s) = m /\
    (forall j, 0 <= j < p -> bucket cs j <= m) /\
    (forall j, 0 <= j < maxShard s -> bucket cs j < m)) /\
  (exists s,
    summarizeDistribution (ofZ 4) [0; 0; 1; 2; 2; 2] = Ok s /\
    counts s = [Int 2; Int 1; Int 3; Int 0] /\ totalKeys s = 6 /\
    avg s = S754_finite false (3 * 2 ^ 51) (-52) /\
    maxCount s = Int 3 /\ maxShard s = 2).
Proof.
  intros Hp. split.
  - destruct (summarizeDistribution_integer p idxs)
      as (s & cs & E & Hc & Hlen & _ & _ & Ht & Ha & Hs); [lia|].
    assert (Hne : cs <> []).
    { intros H0. rewrite H0 in Hlen. simpl in Hlen. lia. }
    destruct (scanMax_first_maximum cs Hne) as (m & k & Hscan & Hk & Hnth & Hle & Hlt).
    rewrite Hscan in Hs. inversion Hs as [[Hmc Hms]].
    exists s, cs, m. split; [exact E|]. split; [exact Hc|]. split; [exact Ht|].
    split; [exact Ha|]. split; [exact Hmc|].
    unfold bucket. rewrite Hms, Nat2Z.id.
    split; [lia|]. split; [exact Hnth|]. split.
    + intros j Hj. apply Hle. lia.
    + intros j Hj. apply Hlt. lia.
  - eexists. split; [vm_compute; reflexivity|]. cbn. repeat split; reflexivity.
Qed.

Lemma summarizeDistribution_maximum_witness :
  exists s cs m,
    summarizeDistribution (ofZ 3) [2; 0; 2; 0] = Ok s /\
    counts s = List.map Int cs /\
    totalKeys s = Z.of_nat (List.length [2; 0; 2; 0]) /\
    avg s = SFdiv prec emax (ofZ (totalKeys s)) (ofZ 3) /\
    maxCount s = Int m /\
    0 <= maxShard s < 3 /\
    bucket cs (maxShard s) = m /\
    (forall j, 0 <= j < 3 -> bucket cs j <= m) /\
    (forall j, 0 <= j < maxShard s -> bucket cs j < m).
Proof.
  apply (summarizeDistribution_maximum 3 [2; 0; 2; 0]). lia.
Defined.

(** C9 as stated fails from 2^32 on, where no summary is returned. *)
Lemma summarizeDistribution_no_summary_above_2_32 :
  1 <= 4294967297 /\
  valid_binary prec emax (ofZ 4294967297) = true /\
  floorZ (ofZ 4294967297) = 4294967297 /\
  summarizeDistribution (ofZ 4294967297) [0; 0; 1] = Err InvalidArrayLength.
Proof. split; [lia | repeat split]. Qed.

(** *** Indexes that are any numbers *)

(** A double is normal, with a significand of 53 bits, or has the least
    exponent. *)
Lemma valid_canonical (s : bool) (m : positive) (e : Z) :
  valid_binary prec emax (S754_finite s m e) = true ->
  Zpos m < 2 ^ 53 /\ -1074 <= e /\ (-1074 < e -> 2 ^ 52 <= Zpos m).
Proof.
  intros Hv. destruct (valid_mantissa _ _ _ Hv) as [Hm _].
  simpl in Hv. unfold bounded, canonical_mantissa in Hv.
  apply andb_true_iff in Hv. destruct Hv as [Hc _]. apply Z.eqb_eq in Hc.
  unfold fexp, emin, prec, emax in Hc.
  pose proof (digits_bounds m) as [Hlo _].
  split; [exact Hm|]. split; [lia|]. intros He.
  assert (Hd : Zpos (digits2_pos m) = 53) by lia.
  rewrite Hd in Hlo. exact Hlo.
Qed.

(** [idx < shardCount] for an integer [idx] from 1 on, as the doubles compare
    and as the integers do. *)
Lemma SFltb_int (z : Z) (sc : number) :
  1 <= z < 2 ^ 53 -> valid_binary prec emax sc = true ->
  SFltb (ofZ z) sc = int_ltb z sc.
Proof.
  intros Hz Hv. destruct (ofZ_canonical z Hz) as (m1 & e1 & E & He1 & Hm1 & Hd1).
  rewrite E. pose proof (digits_bounds m1) as [Hlo Hhi]. rewrite Hd1 in Hlo, Hhi.
  change (2 ^ (53 - 1)) with (2 ^ 52) in Hlo.
  pose proof (pow2_pos (- e1) ltac:(lia)) as Hp1.
  destruct sc as [s|s| |s m2 e2]; cbn [int_ltb].
  - (* zero *) destruct (Z.ltb_spec z 0); [lia | reflexivity].
  - destruct s; reflexivity.
  - reflexivity.
  - destruct s.
    + (* a negative count *)
      unfold SFltb, SFcompare, cond_Zopp.
      destruct (Z.leb_spec 0 e2).
      * pose proof (pow2_pos e2 ltac:(lia)). symmetry. apply Z.ltb_ge. nia.
      * pose proof (pow2_pos (- e2) ltac:(lia)). symmetry. apply Z.ltb_ge. nia.
    + destruct (valid_canonical _ _ _ Hv) as (Hm2 & He2 & Hn2).
      unfold SFltb, SFcompare, cond_Zopp.
      destruct (Z.compare_spec e1 e2) as [Ee|Hlt|Hgt].
      * (* the same exponent *)
        subst e2. pose proof (Pos.compare_spec m1 m2) as Hc. unfold Pos.compare in Hc.
        destruct (Z.leb_spec 0 e1).
        -- assert (e1 = 0) by lia. subst e1. change (2 ^ (- 0)) with 1 in Hm1.
           change (2 ^ 0) with 1.
           destruct Hc as [Hc|Hc|Hc]; symmetry;
             [apply Z.ltb_ge | apply Z.ltb_lt | apply Z.ltb_ge]; try subst m2; lia.
        -- rewrite <- Hm1.
           destruct Hc as [Hc|Hc|Hc]; symmetry;
             [apply Z.ltb_ge | apply Z.ltb_lt | apply Z.ltb_ge]; try subst m2; lia.
      * (* a greater exponent: the count is normal *)
        specialize (Hn2 ltac:(lia)).
        destruct (Z.leb_spec 0 e2).
        -- symmetry. apply Z.ltb_lt.
           destruct (Z.eq_dec e2 0) as [->|Hne].
           ++ change (2 ^ 0) with 1.
              assert (2 <= 2 ^ (- e1)).
              { change 2 with (2 ^ 1) at 1. apply Z.pow_le_mono_r; lia. }
              nia.
           ++ assert (2 <= 2 ^ e2).
              { change 2 with (2 ^ 1) at 1. apply Z.pow_le_mono_r; lia. }
              nia.
        -- symmetry. apply Z.ltb_lt.
           assert (Es : 2 ^ (- e1) = 2 ^ (- e2) * 2 ^ (e2 - e1)).
           { rewrite <- pow2_split by lia. f_equal. lia. }
           assert (2 <= 2 ^ (e2 - e1)).
           { change 2 with (2 ^ 1) at 1. apply Z.pow_le_mono_r; lia. }
           pose proof (pow2_pos (- e2) ltac:(lia)).
           rewrite Es in Hm1. nia.
      * (* a smaller exponent *)
        destruct (Z.leb_spec 0 e2); [lia|].
        symmetry. apply Z.ltb_ge.
        assert (Es : 2 ^ (- e2) = 2 ^ (- e1) * 2 ^ (e1 - e2)).
        { rewrite <- pow2_split by lia. f_equal. lia. }
        assert (2 <= 2 ^ (e1 - e2)).
        { change 2 with (2 ^ 1) at 1. apply Z.pow_le_mono_r; lia. }
        rewrite Es. nia.
Qed.

(** One round of the first loop on an integer index, as a number and as
    the integer. *)
Lemma tally_step (sc : number) (z : Z) (cs : list jsint) :
  valid_binary prec emax sc = true -> - 2 ^ 53 < z < 2 ^ 53 ->
  (if AnyIndex.passes (ofZ z) sc then AnyIndex.bumpAt cs (ofZ z) else cs) =
  (if (0 <=? z) && int_ltb z sc then bump cs z else cs).
Proof.
  intros Hv Hz. unfold AnyIndex.passes.
  destruct (Z.lt_trichotomy z 0) as [Hneg|[->|Hpos]].
  - (* below zero *)
    destruct (ofZ_exact z ltac:(lia) Hz) as (m & e & E & _).
    destruct (Z.ltb_spec z 0); [|lia]. rewrite E.
    destruct (Z.leb_spec 0 z); [lia|]. reflexivity.
  - (* zero *)
    change (ofZ 0) with (S754_zero false).
    change (SFleb (S754_zero false) (S754_zero false)) with true.
    change (0 <=? 0) with true. cbn [andb].
    change (AnyIndex.bumpAt cs (S754_zero false)) with (bump cs 0).
    assert (Hlt : SFltb (S754_zero false) sc = int_ltb 0 sc); [|rewrite Hlt; reflexivity].
    destruct sc as [s|s| |s m e]; try reflexivity.
    + destruct s; reflexivity.
    + unfold SFltb, SFcompare, int_ltb, cond_Zopp.
      destruct s, (Z.leb_spec 0 e); try reflexivity.
      * pose proof (pow2_pos e ltac:(lia)). symmetry. apply Z.ltb_ge. lia.
      * pose proof (pow2_pos e ltac:(lia)). symmetry. apply Z.ltb_lt. lia.
  - (* an integer from 1 on *)
    rewrite (SFltb_int z sc ltac:(lia) Hv).
    destruct (ofZ_canonical z ltac:(lia)) as (m & e & E & He & Hm & _).
    assert (Hle : SFleb (ofZ 0) (ofZ z) = true) by (rewrite E; reflexivity).
    rewrite Hle. destruct (Z.leb_spec 0 z); [|lia]. cbn [andb].
    destruct (int_ltb z sc); [|reflexivity].
    unfold AnyIndex.bumpAt.
    assert (Hi : AnyIndex.isInteger (ofZ z) = true).
    { rewrite E. cbn [AnyIndex.isInteger]. apply orb_true_iff. right. apply Z.eqb_eq.
      rewrite Hm. apply Z.mod_mul. apply Z.pow_nonzero; lia. }
    rewrite Hi, (floorZ_ofZ z ltac:(lia)). reflexivity.
Qed.

Lemma tally_integers (sc : number) (zs : list Z) :
  valid_binary prec emax sc = true -> Forall (fun z => - 2 ^ 53 < z < 2 ^ 53) zs ->
  forall cs, AnyIndex.tally sc (List.map ofZ zs) cs = tally sc zs cs.
Proof.
  intros Hv Hz. unfold AnyIndex.tally, tally.
  induction Hz as [|z zs Hz _ IH]; intros cs; [reflexivity|].
  cbn [List.map fold_left]. rewrite (tally_step sc z cs Hv Hz). apply IH.
Qed.

(** On integers the function is [summarizeDistribution]. *)
Lemma summarizeDistribution_integers (sc : number) (zs : list Z) :
  valid_binary prec emax sc = true -> Forall (fun z => - 2 ^ 53 < z < 2 ^ 53) zs ->
  AnyIndex.summarizeDistribution sc (List.map ofZ zs) = summarizeDistribution sc zs.
Proof.
  intros Hv Hz. unfold AnyIndex.summarizeDistribution, summarizeDistribution.
  destruct (Array_from_zeros sc) as [zeros|e]; [|reflexivity]. cbn [bind].
  rewrite (tally_integers sc zs Hv Hz), length_map. reflexivity.
Qed.

(** A count that is NaN or not above zero lets no number pass. *)
Lemma passes_nothing (sc idx : number) :
  sc = S754_nan \/ number_leb sc (ofZ 0) = true -> AnyIndex.passes idx sc = false.
Proof.
  intros [->|H]; unfold AnyIndex.passes.
  - destruct idx as [s|s| |s m e]; try reflexivity; destruct s; reflexivity.
  - change (ofZ 0) with (S754_zero false) in *.
    destruct sc as [s|s| |s m e]; try discriminate.
    + destruct idx as [s'|s'| |s' m' e']; try reflexivity; destruct s'; reflexivity.
    + destruct s; [|discriminate].
      destruct idx as [s'|s'| |s' m' e']; try reflexivity; destruct s'; reflexivity.
    + destruct s; [|discriminate].
      destruct idx as [s'|s'| |s' m' e']; try reflexivity; destruct s'; reflexivity.
Qed.

Lemma tally_numbers_nothing (sc : number) (idxs : list number) (cs : list jsint) :
  (forall idx, AnyIndex.passes idx sc = false) -> AnyIndex.tally sc idxs cs = cs.
Proof.
  intros H. unfold AnyIndex.tally. induction idxs as [|idx idxs IH]; [reflexivity|].
  cbn [fold_left]. rewrite (H idx). exact IH.
Qed.

Lemma summarizeDistribution_numbers_fields (sc : number) (idxs : list number) :
  ToLength sc < 2 ^ 32 ->
  exists s,
    AnyIndex.summarizeDistribution sc idxs = Ok s /\
    counts s = AnyIndex.tally sc idxs (repeat (Int 0) (Z.to_nat (ToLength sc))) /\
    totalKeys s = Z.of_nat (List.length idxs) /\
    (maxCount s, maxShard s) = scanMax (counts s) 0 (Infinity true) 0.
Proof.
  intros Hp. unfold AnyIndex.summarizeDistribution.
  rewrite (Array_from_zeros_ok sc Hp). cbn [bind].
  destruct (scanMax (AnyIndex.tally sc idxs (repeat (Int 0) (Z.to_nat (ToLength sc)))) 0
              (Infinity true) 0) as [mc ms] eqn:E.
  eexists. split; [reflexivity|]. cbn. rewrite E. repeat split; reflexivity.
Qed.

(** C10 (as amended).  For every shard count below 2^32, of any sign, an
    integer or not, or NaN, and for every list of indexes, which may be
    fractions, infinities or NaN as well, [summarizeDistribution] returns a
    summary.  With a shard count that is zero, negative or NaN no index
    passes the guard: the counts are empty, [totalKeys] is the number of
    indexes, [maxCount] is minus infinity and [maxShard] is 0.  On indexes
    that are integers the function is the one on lists of integers. *)
Theorem summarizeDistribution_total (sc : number) (idxs : list number) :
  ToLength sc < 2 ^ 32 ->
  succeeds (AnyIndex.summarizeDistribution sc idxs) /\
  (sc = S754_nan \/ number_leb sc (ofZ 0) = true ->
   (forall idx, AnyIndex.passes idx sc = false) /\
   exists s, AnyIndex.summarizeDistribution sc idxs = Ok s /\
             counts s = [] /\ totalKeys s = Z.of_nat (List.length idxs) /\
             maxCount s = Infinity true /\ maxShard s = 0) /\
  (forall zs,
     valid_binary prec emax sc = true -> Forall (fun z => - 2 ^ 53 < z < 2 ^ 53) zs ->
     AnyIndex.summarizeDistribution sc (List.map ofZ zs) = summarizeDistribution sc zs).
Proof.
  intros Hp.
  destruct (summarizeDistribution_numbers_fields sc idxs Hp) as (s & E & Hc & Ht & Hs).
  split; [exists s; exact E|]. split.
  - intros H0. split; [intros idx; apply passes_nothing; exact H0|].
    assert (Hnil : counts s = []).
    { rewrite Hc, (ToLength_nothing sc H0). cbn [Z.to_nat repeat].
      apply tally_numbers_nothing. intros idx. apply passes_nothing. exact H0. }
    rewrite Hnil in Hs. simpl in Hs. inversion Hs.
    exists s. repeat split; assumption.
  - intros zs Hv Hz. apply summarizeDistribution_integers; assumption.
Qed.

Lemma summarizeDistribution_total_witness :
  succeeds (AnyIndex.summarizeDistribution (S754_finite false 5629499534213120 (-51))
              [ofZ 0; S754_finite false 6755399441055744 (-52); S754_nan;
               S754_infinity false; ofZ 2; S754_zero true; ofZ (-1)]) /\
  (exists s, AnyIndex.summarizeDistribution (ofZ 0)
               [ofZ 0; S754_finite false 6755399441055744 (-52); S754_nan; ofZ 2] = Ok s /\
             counts s = [] /\
             totalKeys s = Z.of_nat (List.length
               [ofZ 0; S754_finite false 6755399441055744 (-52); S754_nan; ofZ 2]) /\
             maxCount s = Infinity true /\ maxShard s = 0) /\
  (exists s, AnyIndex.summarizeDistribution (ofZ (-3)) [ofZ 0; S754_infinity false] = Ok s /\
             counts s = [] /\
             totalKeys s = Z.of_nat (List.length [ofZ 0; S754_infinity false]) /\
             maxCount s = Infinity true /\ maxShard s = 0) /\
  AnyIndex.summarizeDistribution (ofZ 3) (List.map ofZ [0; 2; 2; 5]) =
  summarizeDistribution (ofZ 3) [0; 2; 2; 5].
Proof.
  split; [|split; [|split]].
  - apply (summarizeDistribution_total (S754_finite false 5629499534213120 (-51))).
    vm_compute. reflexivity.
  - apply (summarizeDistribution_total (ofZ 0));
      [vm_compute; reflexivity | right; reflexivity].
  - apply (summarizeDistribution_total (ofZ (-3)));
      [vm_compute; reflexivity | right; reflexivity].
  - apply (summarizeDistribution_total (ofZ 3) []);
      [vm_compute; reflexivity | reflexivity | repeat constructor; lia].
Defined.

(** C10 as stated fails from 2^32 on and at plus infinity: the call raises a
    RangeError. *)
Lemma summarizeDistribution_throws_at_2_32 :
  valid_binary prec emax (ofZ (2 ^ 32)) = true /\
  AnyIndex.summarizeDistribution (ofZ (2 ^ 32)) [] = Err InvalidArrayLength /\
  AnyIndex.summarizeDistribution (S754_infinity false) [] = Err InvalidArrayLength /\
  ~ succeeds (AnyIndex.summarizeDistribution (ofZ (2 ^ 32)) []) /\
  summarizeDistribution (ofZ (2 ^ 32)) [] = Err InvalidArrayLength.
Proof.
  split; [reflexivity|]. split; [reflexivity|]. split; [reflexivity|].
  split; [|reflexivity]. intros [s H]. discriminate H.
Qed.

(** What the function does with indexes that are no integers. *)
Example summarizeDistribution_number_examples :
  (exists s, AnyIndex.summarizeDistribution (ofZ 3)
               [ofZ 1; S754_finite false 6755399441055744 (-52); S754_zero true;
                S754_nan; S754_infinity false; ofZ 1] = Ok s /\
             counts s = [Int 1; Int 2; Int 0] /\ totalKeys s = 6 /\
             maxCount s = Int 2 /\ maxShard s = 1).
Proof.
  eexists. split; [vm_compute; reflexivity|]. cbn. repeat split; reflexivity.
Qed.

Example summarizeDistribution_examples :
  (exists s, summarizeDistribution (S754_finite false 5629499534213120 (-51)) [0; 1; 2; 2] = Ok s /\
             counts s = [Int 1; Int 1; NaN] /\ maxCount s = Int 1 /\ maxShard s = 0 /\
             stddev s = S754_nan) /\
  (exists s, summarizeDistribution (ofZ 0) [0; 3] = Ok s /\
             avg s = S754_infinity false /\ stddev s = S754_nan) /\
  (exists s, summarizeDistribution (ofZ 2) [] = Ok s /\
             counts s = [Int 0; Int 0] /\ maxCount s = Int 0 /\ maxShard s = 0 /\
             avg s = ofZ 0 /\ stddev s = ofZ 0).
Proof.
  repeat split; eexists; (split; [vm_compute; reflexivity|]); cbn; repeat split; reflexivity.
Qed.

(** ** Quantifiers *)

Lemma Number_above (n : Z) : 100000 < n -> jsint_ltb (Int 100000) (Number n) = true.
Proof.
  intros Hn. destruct (Number_nonneg n ltac:(lia)) as [->|(r & -> & ->)]; [reflexivity|].
  simpl. apply Z.ltb_lt.
  pose proof (round53_mono 100001 n ltac:(lia)) as H.
  rewrite (round53_small 100001) in H by lia. lia.
Qed.

(** A number of digits that [Number] turns into an integer of at most 100000
    is that integer. *)
Lemma Number_small_inv (n a : Z) :
  0 <= n -> Number n = Int a -> a <= 100000 -> n = a.
Proof.
  intros Hn E Ha. destruct (Z_le_gt_dec n 100000) as [Hle|Hgt].
  - rewrite Number_exact in E by lia. congruence.
  - pose proof (Number_above n ltac:(lia)) as H. rewrite E in H. simpl in H.
    apply Z.ltb_lt in H. lia.
Qed.

Lemma checkBounds_inv (mn mx : jsint) (rest : jsstring) (a b : Z) (rest' : jsstring) :
  checkBounds mn mx rest = Ok (a, b, rest') ->
  mn = Int a /\ mx = Int b /\ rest' = rest /\ 0 <= a <= b /\ b <= 100000.
Proof.
  unfold checkBounds.
  destruct (jsint_ltb mn (Int 0)) eqn:E1; [discriminate|].
  destruct (jsint_ltb mx mn) eqn:E2; [discriminate|]. cbn [orb].
  destruct (jsint_ltb (Int 100000) mx) eqn:E3; [discriminate|].
  destruct mn as [|sn|x], mx as [|sx|y]; try discriminate.
  intros H. inversion H; subst. simpl in E1, E2, E3.
  apply Z.ltb_ge in E1, E2, E3. repeat split; lia.
Qed.

Lemma checkBounds_kind (mn mx : jsint) (rest : jsstring) (e : error) :
  checkBounds mn mx rest = Err e -> kind e = InvalidQuantifier.
Proof.
  unfold checkBounds.
  destruct (jsint_ltb mn (Int 0) || jsint_ltb mx mn); [intros H; inversion H; reflexivity|].
  destruct (jsint_ltb (Int 100000) mx); [intros H; inversion H; reflexivity|].
  destruct mn, mx; intros H; inversion H; reflexivity.
Qed.

Lemma checkBounds_ok (n m : Z) (rest : jsstring) :
  0 <= n <= m -> m <= 100000 ->
  checkBounds (Number n) (Number m) rest = Ok (n, m, rest).
Proof.
  intros Hn Hm. rewrite !Number_exact by lia. unfold checkBounds. simpl.
  destruct (Z.ltb_spec n 0); [lia|]. destruct (Z.ltb_spec m n); [lia|].
  destruct (Z.ltb_spec 100000 m); [lia|]. reflexivity.
Qed.

(** The two numbers that the tests of [parseQuantifier] refuse. *)
Lemma checkBounds_refuses (n m : Z) (rest : jsstring) :
  0 <= n -> 0 <= m -> m < n \/ 100000 < m ->
  fails_with (checkBounds (Number n) (Number m) rest) InvalidQuantifier.
Proof.
  intros Hn Hm Hbad.
  destruct (checkBounds (Number n) (Number m) rest) as [[[a b] r]|e] eqn:E.
  - exfalso. apply checkBounds_inv in E. destruct E as (Ea & Eb & _ & Hab & Hb).
    apply Number_small_inv in Eb; [|lia|lia].
    apply Number_small_inv in Ea; [|lia|lia]. lia.
  - exists e. split; [reflexivity|]. eapply checkBounds_kind; eassumption.
Qed.

Lemma checkBounds_plus16_ok (n : Z) (rest : jsstring) :
  0 <= n -> n + 16 <= 100000 ->
  checkBounds (Number n) (plus16 (Number n)) rest = Ok (n, n + 16, rest).
Proof.
  intros Hn Hm. rewrite (Number_exact n) by lia. cbn [plus16].
  rewrite <- (Number_exact n) at 1 by lia. apply checkBounds_ok; lia.
Qed.

Lemma checkBounds_plus16_refuses (n : Z) (rest : jsstring) :
  0 <= n -> 100000 < n + 16 ->
  fails_with (checkBounds (Number n) (plus16 (Number n)) rest) InvalidQuantifier.
Proof.
  intros Hn Hbad.
  destruct (checkBounds (Number n) (plus16 (Number n)) rest) as [[[a b] r]|e] eqn:E.
  - exfalso. apply checkBounds_inv in E. destruct E as (Ea & Eb & _ & Hab & Hb).
    rewrite Ea in Eb. cbn [plus16] in Eb.
    apply Number_small_inv in Eb; [|lia|lia].
    apply Number_small_inv in Ea; [|lia|lia]. lia.
  - exists e. split; [reflexivity|]. eapply checkBounds_kind; eassumption.
Qed.

(** *** Reading digits *)

Lemma takeDigits_app (ds rest acc : jsstring) :
  allDigits ds -> noDigitAhead rest ->
  takeDigits (ds ++ rest) acc = (acc ++ ds, rest).
Proof.
  intros Hds Hrest. revert acc. induction Hds as [|c ds Hc _ IH]; intros acc.
  - rewrite app_nil_r. destruct rest as [|c rest]; simpl; [reflexivity|].
    simpl in Hrest. rewrite Hrest. reflexivity.
  - simpl. rewrite Hc, IH, <- app_assoc. reflexivity.
Qed.

Lemma takeDigits_none (rest : jsstring) :
  noDigitAhead rest -> takeDigits rest [] = ([], rest).
Proof. intros H. apply (takeDigits_app [] rest []); [constructor | exact H]. Qed.

Lemma takeDigits_shorter (rest acc n rest' : jsstring) :
  takeDigits rest acc = (n, rest') -> (List.length rest' <= List.length rest)%nat.
Proof.
  revert acc. induction rest as [|c rest IH]; intros acc; simpl.
  - intros H. inversion H. simpl. lia.
  - destruct (isDigit c).
    + intros H. apply IH in H. lia.
    + intros H. inversion H. simpl. lia.
Qed.

Lemma decimal_fold_nonneg (ds : jsstring) (acc : Z) :
  allDigits ds -> 0 <= acc ->
  0 <= fold_left (fun a c => a * 10 + (c - 48)) ds acc.
Proof.
  intros Hds. revert acc. induction Hds as [|c ds Hc _ IH]; intros acc Hacc; simpl; [lia|].
  apply IH. unfold isDigit in Hc. lia.
Qed.

Lemma decimal_nonneg (ds : jsstring) :
  allDigits ds -> 0 <= decimal ds.
Proof. intros H. apply decimal_fold_nonneg; [exact H | lia]. Qed.

Lemma length_eqb_zero (ds : jsstring) : ds <> [] -> Nat.eqb (List.length ds) 0 = false.
Proof. destruct ds; [congruence | reflexivity]. Qed.

(** *** The forms of a quantifier *)

Lemma parseQuantifier_absent (rest : jsstring) :
  notAhead QUESTION rest -> notAhead PLUS rest -> notAhead STAR rest ->
  notAhead LBRACE rest ->
  parseQuantifier rest = Ok (1, 1, rest).
Proof.
  destruct rest as [|c rest]; [reflexivity|]. simpl. intros H1 H2 H3 H4.
  apply Z.eqb_neq in H1, H2, H3, H4. rewrite H1, H2, H3, H4. reflexivity.
Qed.

Lemma parseQuantifier_marks (rest : jsstring) :
  parseQuantifier (QUESTION :: rest) = Ok (0, 1, rest) /\
  parseQuantifier (PLUS :: rest) = Ok (1, 16, rest) /\
  parseQuantifier (STAR :: rest) = Ok (0, 16, rest).
Proof. repeat split. Qed.

(** After [{] and the digits [ds], with [t] the rest of the pattern. *)
Lemma parseQuantifier_digits (ds t : jsstring) :
  ds <> [] -> allDigits ds -> noDigitAhead t ->
  parseQuantifier (LBRACE :: ds ++ t) =
  let min := Number (decimal ds) in
  let '(max, rest3) :=
    match t with
    | c :: t' =>
        if c =? COMMA then
          let '(n2, rest3) := takeDigits t' [] in
          (if Nat.eqb (List.length n2) 0 then plus16 min else Number_of_digits n2, rest3)
        else (min, t)
    | [] => (min, t)
    end in
  match rest3 with
  | c :: rest4 =>
      if negb (c =? RBRACE) then Err QuantifierExpectedClose
      else checkBounds min max rest4
  | [] => Err QuantifierExpectedClose
  end.
Proof.
  intros Hne Hds Ht. cbn [parseQuantifier].
  change (LBRACE =? QUESTION) with false. change (LBRACE =? PLUS) with false.
  change (LBRACE =? STAR) with false. change (negb (LBRACE =? LBRACE)) with false.
  cbv iota. rewrite (takeDigits_app ds t [] Hds Ht). cbn [app].
  rewrite (length_eqb_zero ds Hne). reflexivity.
Qed.

Lemma noDigitAhead_rbrace (rest : jsstring) : noDigitAhead (RBRACE :: rest).
Proof. reflexivity. Qed.

Lemma noDigitAhead_comma (rest : jsstring) : noDigitAhead (COMMA :: rest).
Proof. reflexivity. Qed.

(** [{n}] *)
Lemma parseQuantifier_exactly (ds rest : jsstring) :
  ds <> [] -> allDigits ds ->
  (decimal ds <= 100000 ->
   parseQuantifier (LBRACE :: ds ++ RBRACE :: rest) = Ok (decimal ds, decimal ds, rest)) /\
  (100000 < decimal ds ->
   fails_with (parseQuantifier (LBRACE :: ds ++ RBRACE :: rest)) InvalidQuantifier).
Proof.
  intros Hne Hds. pose proof (decimal_nonneg ds Hds) as Hn.
  rewrite (parseQuantifier_digits ds (RBRACE :: rest) Hne Hds (noDigitAhead_rbrace rest)).
  cbv zeta. change (RBRACE =? COMMA) with false. cbv iota.
  change (negb (RBRACE =? RBRACE)) with false. cbv iota.
  split; intros H.
  - apply checkBounds_ok; lia.
  - apply checkBounds_refuses; lia.
Qed.

(** [{n,}] *)
Lemma parseQuantifier_at_least (ds rest : jsstring) :
  ds <> [] -> allDigits ds ->
  (decimal ds + 16 <= 100000 ->
   parseQuantifier (LBRACE :: ds ++ COMMA :: RBRACE :: rest) =
   Ok (decimal ds, decimal ds + 16, rest)) /\
  (100000 < decimal ds + 16 ->
   fails_with (parseQuantifier (LBRACE :: ds ++ COMMA :: RBRACE :: rest)) InvalidQuantifier).
Proof.
  intros Hne Hds. pose proof (decimal_nonneg ds Hds) as Hn.
  rewrite (parseQuantifier_digits ds (COMMA :: RBRACE :: rest) Hne Hds
             (noDigitAhead_comma _)).
  cbv zeta. change (COMMA =? COMMA) with true. cbv iota.
  rewrite (takeDigits_none (RBRACE :: rest) (noDigitAhead_rbrace rest)).
  cbn [List.length Nat.eqb].
  change (negb (RBRACE =? RBRACE)) with false. cbv iota.
  split; intros H.
  - apply checkBounds_plus16_ok; lia.
  - apply checkBounds_plus16_refuses; lia.
Qed.

(** [{n,m}] *)
Lemma parseQuantifier_between (ds1 ds2 rest : jsstring) :
  ds1 <> [] -> allDigits ds1 -> ds2 <> [] -> allDigits ds2 ->
  (decimal ds1 <= decimal ds2 -> decimal ds2 <= 100000 ->
   parseQuantifier (LBRACE :: ds1 ++ COMMA :: ds2 ++ RBRACE :: rest) =
   Ok (decimal ds1, decimal ds2, rest)) /\
  (decimal ds2 < decimal ds1 \/ 100000 < decimal ds2 ->
   fails_with (parseQuantifier (LBRACE :: ds1 ++ COMMA :: ds2 ++ RBRACE :: rest))
              InvalidQuantifier).
Proof.
  intros Hne1 Hds1 Hne2 Hds2.
  pose proof (decimal_nonneg ds1 Hds1) as Hn1. pose proof (decimal_nonneg ds2 Hds2) as Hn2.
  rewrite (parseQuantifier_digits ds1 (COMMA :: ds2 ++ RBRACE :: rest) Hne1 Hds1
             (noDigitAhead_comma _)).
  cbv zeta. change (COMMA =? COMMA) with true. cbv iota.
  rewrite (takeDigits_app ds2 (RBRACE :: rest) [] Hds2 (noDigitAhead_rbrace rest)).
  cbn [app]. rewrite (length_eqb_zero ds2 Hne2).
  change (negb (RBRACE =? RBRACE)) with false. cbv iota. unfold Number_of_digits.
  split.
  - intros H1 H2. apply checkBounds_ok; lia.
  - intros H. apply checkBounds_refuses; lia.
Qed.

(** No digit after [{]. *)
Lemma parseQuantifier_no_number (rest : jsstring) :
  noDigitAhead rest ->
  parseQuantifier (LBRACE :: rest) = Err QuantifierExpectedNumber.
Proof.
  intros H. cbn [parseQuantifier].
  change (LBRACE =? QUESTION) with false. change (LBRACE =? PLUS) with false.
  change (LBRACE =? STAR) with false. change (negb (LBRACE =? LBRACE)) with false.
  cbv iota. rewrite (takeDigits_none rest H). reflexivity.
Qed.

(** No [}] where the quantifier has to end: after [{n], after [{n,] and after
    [{n,m]. *)
Lemma parseQuantifier_not_closed (ds1 ds2 rest : jsstring) :
  ds1 <> [] -> allDigits ds1 -> allDigits ds2 ->
  noDigitAhead rest -> notAhead RBRACE rest ->
  (notAhead COMMA rest ->
   parseQuantifier (LBRACE :: ds1 ++ rest) = Err QuantifierExpectedClose) /\
  parseQuantifier (LBRACE :: ds1 ++ COMMA :: ds2 ++ rest) = Err QuantifierExpectedClose.
Proof.
  intros Hne1 Hds1 Hds2 Hnd Hnb. split.
  - intros Hnc. rewrite (parseQuantifier_digits ds1 rest Hne1 Hds1 Hnd). cbv zeta.
    destruct rest as [|c rest]; [reflexivity|]. simpl in Hnc, Hnb.
    apply Z.eqb_neq in Hnc, Hnb. rewrite Hnc, Hnb. reflexivity.
  - rewrite (parseQuantifier_digits ds1 (COMMA :: ds2 ++ rest) Hne1 Hds1
               (noDigitAhead_comma _)).
    cbv zeta. change (COMMA =? COMMA) with true. cbv iota.
    rewrite (takeDigits_app ds2 rest [] Hds2 Hnd).
    destruct rest as [|c rest]; [reflexivity|]. simpl in Hnb.
    apply Z.eqb_neq in Hnb. rewrite Hnb. reflexivity.
Qed.

(** What [parseQuantifier] returns is within the bounds and is a suffix no
    longer than what it was given. *)
Lemma parseQuantifier_result (rest : jsstring) (a b : Z) (rest' : jsstring) :
  parseQuantifier rest = Ok (a, b, rest') ->
  0 <= a <= b /\ b <= 100000 /\ (List.length rest' <= List.length rest)%nat.
Proof.
  destruct rest as [|ch rest1]; cbn [parseQuantifier].
  { intros H. inversion H. simpl. lia. }
  destruct (ch =? QUESTION); [intros H; inversion H; simpl; lia|].
  destruct (ch =? PLUS); [intros H; inversion H; simpl; lia|].
  destruct (ch =? STAR); [intros H; inversion H; simpl; lia|].
  destruct (negb (ch =? LBRACE)); [intros H; inversion H; simpl; lia|].
  destruct (takeDigits rest1 []) as [n1 rest2] eqn:E1.
  apply takeDigits_shorter in E1.
  destruct (Nat.eqb (List.length n1) 0); [discriminate|].
  assert (Hclose : forall mx rest3, (List.length rest3 <= List.length rest2)%nat ->
            match rest3 with
            | c :: rest4 =>
                if negb (c =? RBRACE) then Err QuantifierExpectedClose
                else checkBounds (Number_of_digits n1) mx rest4
            | [] => Err QuantifierExpectedClose
            end = Ok (a, b, rest') ->
            0 <= a <= b /\ b <= 100000 /\
            (List.length rest' <= List.length (ch :: rest1))%nat).
  { intros mx rest3 Hlen. destruct rest3 as [|c rest4]; [discriminate|].
    destruct (negb (c =? RBRACE)); [discriminate|].
    intros H. apply checkBounds_inv in H. destruct H as (_ & _ & -> & H1 & H2).
    cbn [List.length] in *. lia. }
  destruct rest2 as [|c rest2'].
  { discriminate. }
  destruct (c =? COMMA).
  - destruct (takeDigits rest2' []) as [n2 rest3] eqn:E2.
    apply takeDigits_shorter in E2. apply Hclose.
    cbn [List.length]. lia.
  - apply (Hclose (Number_of_digits n1) (c :: rest2')). lia.
Qed.

(** ** Character classes *)

Lemma expandRange_ok (a b : char) :
  a <= b ->
  exists range,
    expandRange a b = Ok range /\
    (forall x, In x range <-> a <= x <= b) /\
    Z.of_nat (List.length range) = b - a + 1.
Proof.
  intros Hab. unfold expandRange.
  destruct (Z.ltb_spec b a); [lia|].
  eexists. split; [reflexivity|]. split.
  - intros x. rewrite in_map_iff. split.
    + intros (k & <- & Hk). apply in_seq in Hk. lia.
    + intros Hx. exists (Z.to_nat (x - a)). split; [lia|]. apply in_seq. lia.
  - rewrite length_map, length_seq. lia.
Qed.

Lemma expandRange_reversed (a b : char) :
  b < a -> expandRange a b = Err (InvalidRangeOf a b).
Proof.
  intros Hab. unfold expandRange. destruct (Z.ltb_spec b a); [reflexivity | lia].
Qed.

(** One round of the loop of [parseCharClass], by what is under the cursor. *)
Lemma classLoop_close (rest chars : jsstring) :
  classLoop (RBRACKET :: rest) chars =
  if Nat.eqb (List.length chars) 0 then Err EmptyClass else Ok (chars, rest).
Proof. reflexivity. Qed.

Lemma classLoop_escape (x : char) (rest chars : jsstring) :
  classLoop (BACKSLASH :: x :: rest) chars = classLoop rest (chars ++ [x]).
Proof. reflexivity. Qed.

Lemma classLoop_range_step (a b : char) (rest chars : jsstring) :
  a <> RBRACKET -> a <> BACKSLASH -> b <> RBRACKET ->
  classLoop (a :: HYPHEN :: b :: rest) chars =
  match expandRange a b with
  | Err e => Err e
  | Ok range => classLoop rest (chars ++ range)
  end.
Proof.
  intros H1 H2 H3. apply Z.eqb_neq in H1, H2, H3.
  cbn [classLoop]. rewrite H1, H2, H3. reflexivity.
Qed.

Lemma classLoop_shorter (n : nat) :
  forall rest chars cs rest',
    (List.length rest <= n)%nat ->
    classLoop rest chars = Ok (cs, rest') ->
    (List.length rest' < List.length rest)%nat /\ cs <> [].
Proof.
  induction n as [|n IH]; intros rest chars cs rest' Hlen.
  { destruct rest; [discriminate | simpl in Hlen; lia]. }
  destruct rest as [|ch rest1]; [discriminate|]. cbn [classLoop].
  destruct (ch =? RBRACKET).
  { destruct chars as [|c chars]; [discriminate|]. cbn [List.length Nat.eqb].
    intros H. inversion H; subst. split; [simpl; lia | discriminate]. }
  destruct (ch =? BACKSLASH).
  { destruct rest1 as [|x rest2]; [discriminate|]. intros H.
    apply IH in H; [|simpl in Hlen; lia]. simpl. split; [lia | tauto]. }
  assert (Hlit : classLoop rest1 (chars ++ [ch]) = Ok (cs, rest') ->
                 (List.length rest' < List.length (ch :: rest1))%nat /\ cs <> []).
  { intros H. apply IH in H; [|simpl in Hlen; lia]. simpl. split; [lia | tauto]. }
  destruct rest1 as [|dash [|b rest3]]; try exact Hlit.
  destruct ((dash =? HYPHEN) && negb (b =? RBRACKET)); [|exact Hlit].
  destruct (expandRange ch b) as [range|e]; [|discriminate].
  intros H. apply IH in H; [|simpl in Hlen; lia]. simpl. split; [lia | tauto].
Qed.

Lemma parseCharClass_result (rest cs rest' : jsstring) :
  parseCharClass rest = Ok (cs, rest') ->
  (List.length rest' < List.length rest)%nat /\ cs <> [].
Proof.
  destruct rest as [|ch rest1]; [discriminate|]. cbn [parseCharClass].
  destruct (negb (ch =? LBRACKET)); [discriminate|].
  assert (H : classLoop rest1 [] = Ok (cs, rest') ->
              (List.length rest' < List.length (ch :: rest1))%nat /\ cs <> []).
  { intros H. apply (classLoop_shorter (List.length rest1)) in H; [|lia]. simpl. split; [lia | tauto]. }
  destruct rest1 as [|c rest2]; [exact H|].
  destruct (c =? CARET); [discriminate | exact H].
Qed.

(** ** The loop over the pattern *)

Lemma parseAtom_shorter (ch : char) (rest1 : jsstring) (a : Atom) (rest2 : jsstring) :
  parseAtom ch rest1 = Ok (a, rest2) -> (List.length rest2 <= List.length rest1)%nat.
Proof.
  unfold parseAtom. destruct (ch =? LBRACKET).
  - destruct (parseCharClass (ch :: rest1)) as [[cs r]|e] eqn:E; [|discriminate].
    cbn [bind]. intros H. inversion H; subst.
    apply parseCharClass_result in E. simpl in E. lia.
  - destruct (ch =? BACKSLASH).
    + destruct rest1 as [|esc r]; [discriminate|]. intros H. inversion H. simpl. lia.
    + destruct (isQuantifierChar ch); [discriminate|]. intros H. inversion H. lia.
Qed.

(** Fuel beyond the length of the pattern is never used: the loop gives the
    same result with any two amounts that are at least that length. *)
Lemma compileLoop_fuel (f1 : nat) :
  forall f2 rest pieces,
    (List.length rest <= f1)%nat -> (List.length rest <= f2)%nat ->
    compileLoop f1 rest pieces = compileLoop f2 rest pieces.
Proof.
  induction f1 as [|f1 IH]; intros f2 rest pieces H1 H2.
  { destruct rest; [destruct f2; reflexivity | simpl in H1; lia]. }
  destruct rest as [|ch rest1]; [destruct f2; reflexivity|].
  destruct f2 as [|f2]; [simpl in H2; lia|].
  simpl in H1, H2. cbn [compileLoop].
  destruct ((ch =? CARET) || (ch =? DOLLAR)); [apply IH; lia|].
  destruct (parseAtom ch rest1) as [[a rest2]|e] eqn:Ea; [|reflexivity].
  apply parseAtom_shorter in Ea. cbn [bind].
  destruct (parseQuantifier rest2) as [[[mn mx] rest3]|e] eqn:Eq; [|reflexivity].
  apply parseQuantifier_result in Eq. cbn [bind]. apply IH; lia.
Qed.

Lemma compileLoop_bounds (fuel : nat) :
  forall rest pieces result,
    Forall boundsOk pieces ->
    compileLoop fuel rest pieces = Ok result -> Forall boundsOk result.
Proof.
  induction fuel as [|fuel IH]; intros rest pieces result Hp.
  { destruct rest; simpl; intros H; inversion H; subst; exact Hp. }
  destruct rest as [|ch rest1]; [simpl; intros H; inversion H; subst; exact Hp|].
  cbn [compileLoop].
  destruct ((ch =? CARET) || (ch =? DOLLAR)); [apply IH; exact Hp|].
  destruct (parseAtom ch rest1) as [[a rest2]|e]; [|discriminate]. cbn [bind].
  destruct (parseQuantifier rest2) as [[[mn mx] rest3]|e] eqn:Eq; [|discriminate].
  apply parseQuantifier_result in Eq. cbn [bind]. apply IH.
  apply Forall_app. split; [exact Hp|]. constructor; [|constructor].
  unfold boundsOk. simpl. lia.
Qed.

Lemma compileLoop_dangling (fuel : nat) (ch : char) (rest : jsstring) (pieces : list Piece) :
  isQuantifierChar ch = true ->
  compileLoop (S fuel) (ch :: rest) pieces = Err (DanglingQuantifierAt ch).
Proof.
  intros H. cbn [compileLoop]. unfold isQuantifierChar in H.
  assert (Hc : (ch =? CARET) || (ch =? DOLLAR) = false).
  { unfold LBRACE, RBRACE, QUESTION, PLUS, STAR, CARET, DOLLAR in *. lia. }
  rewrite Hc. unfold parseAtom.
  assert (Hb : (ch =? LBRACKET) = false)
    by (unfold LBRACE, RBRACE, QUESTION, PLUS, STAR, LBRACKET in *; lia).
  assert (Hs : (ch =? BACKSLASH) = false)
    by (unfold LBRACE, RBRACE, QUESTION, PLUS, STAR, BACKSLASH in *; lia).
  rewrite Hb, Hs. unfold isQuantifierChar. rewrite H. reflexivity.
Qed.

Lemma includes_false (pattern : jsstring) (c : char) :
  ~ In c pattern -> includes pattern c = false.
Proof.
  intros H. unfold includes. destruct (existsb (Z.eqb c) pattern) eqn:E; [|reflexivity].
  exfalso. apply existsb_exists in E. destruct E as (x & Hx & Hc).
  apply Z.eqb_eq in Hc. subst x. exact (H Hx).
Qed.

Lemma compile_noGroups (pattern : jsstring) :
  noGroups pattern -> compile pattern = compileLoop (List.length pattern) pattern [].
Proof.
  intros (H1 & H2 & H3). unfold compile.
  rewrite (includes_false _ _ H1), (includes_false _ _ H2), (includes_false _ _ H3).
  reflexivity.
Qed.

Lemma compile_bounds (pattern : jsstring) (pieces : list Piece) :
  compile pattern = Ok pieces -> Forall boundsOk pieces.
Proof.
  unfold compile.
  destruct (includes pattern LPAREN || includes pattern RPAREN || includes pattern BAR);
    [discriminate|].
  apply compileLoop_bounds. constructor.
Qed.

(** One round of the loop: an atom, then its quantifier. *)
Lemma compileLoop_piece (fuel : nat) (ch : char) (rest1 : jsstring) (pieces : list Piece)
      (a : Atom) (rest2 : jsstring) (mn mx : Z) (rest3 : jsstring) :
  ch <> CARET -> ch <> DOLLAR ->
  parseAtom ch rest1 = Ok (a, rest2) ->
  parseQuantifier rest2 = Ok (mn, mx, rest3) ->
  compileLoop (S fuel) (ch :: rest1) pieces =
  compileLoop fuel rest3 (pieces ++ [{| atom := a; min := mn; max := mx |}]).
Proof.
  intros H1 H2 Ha Hq. apply Z.eqb_neq in H1, H2. cbn [compileLoop].
  rewrite H1, H2, Ha. cbn [orb bind]. rewrite Hq. reflexivity.
Qed.

(** *** Ordinary characters around an atom *)

Lemma isOrdinary_spec (c : char) :
  isOrdinary c = true ->
  (c =? LBRACKET) = false /\ (c =? BACKSLASH) = false /\ isQuantifierChar c = false /\
  c <> LPAREN /\ c <> RPAREN /\ c <> BAR.
Proof.
  unfold isOrdinary. intros H. apply negb_true_iff in H.
  repeat (apply orb_false_iff in H; destruct H as [H ?]).
  repeat split; try assumption; apply Z.eqb_neq; assumption.
Qed.

Lemma ordinary_noGroups (pattern : jsstring) :
  forallb isOrdinary pattern = true -> noGroups pattern.
Proof.
  intros H. rewrite forallb_forall in H. unfold noGroups.
  repeat split; intros Hin; apply H in Hin; apply isOrdinary_spec in Hin; tauto.
Qed.

Lemma ordinary_no_quantifier (rest : jsstring) :
  forallb isOrdinary rest = true -> parseQuantifier rest = Ok (1, 1, rest).
Proof.
  intros H. apply parseQuantifier_absent; destruct rest as [|c rest]; cbn; try exact I;
    cbn [forallb] in H; apply andb_true_iff in H; destruct H as [H _];
    apply isOrdinary_spec in H; destruct H as (_ & _ & Hq & _);
    unfold isQuantifierChar in Hq;
    repeat (apply orb_false_iff in Hq; destruct Hq as [Hq ?]);
    intros ->; discriminate.
Qed.

Lemma compileLoop_ordinary (rest : jsstring) :
  forall fuel pieces,
    forallb isOrdinary rest = true -> (List.length rest <= fuel)%nat ->
    compileLoop fuel rest pieces =
    Ok (pieces ++ List.map (fun c => {| atom := Literal c; min := 1; max := 1 |})
                           (filter (fun c => negb (isAnchor c)) rest)).
Proof.
  induction rest as [|ch rest IH]; intros fuel pieces Ho Hf.
  - destruct fuel; cbn; rewrite app_nil_r; reflexivity.
  - destruct fuel as [|fuel]; [simpl in Hf; lia|].
    cbn [forallb] in Ho. apply andb_true_iff in Ho. destruct Ho as [Hch Ho].
    cbn [compileLoop filter]. fold (isAnchor ch).
    destruct (isAnchor ch); cbn [negb].
    + apply IH; [exact Ho | simpl in Hf; lia].
    + apply isOrdinary_spec in Hch. destruct Hch as (H1 & H2 & H3 & _).
      unfold parseAtom. rewrite H1, H2, H3. cbn [bind].
      rewrite (ordinary_no_quantifier rest Ho). cbn [bind].
      rewrite IH by (try exact Ho; simpl in Hf; lia).
      rewrite <- app_assoc. reflexivity.
Qed.

(** The loop over ordinary characters, up to a character that is no
    quantifier. *)
Lemma compileLoop_prefix (pre : jsstring) :
  forall fuel rest pieces,
    forallb isOrdinary pre = true ->
    parseQuantifier rest = Ok (1, 1, rest) ->
    compileLoop (List.length pre + fuel) (pre ++ rest) pieces =
    compileLoop fuel rest (pieces ++ literals pre).
Proof.
  induction pre as [|ch pre IH]; intros fuel rest pieces Ho Hq.
  - cbn. rewrite app_nil_r. reflexivity.
  - cbn [forallb] in Ho. apply andb_true_iff in Ho. destruct Ho as [Hch Ho].
    cbn [List.length Nat.add app compileLoop]. unfold literals. cbn [filter].
    fold (isAnchor ch). destruct (isAnchor ch); cbn [negb].
    + apply IH; assumption.
    + apply isOrdinary_spec in Hch. destruct Hch as (H1 & H2 & H3 & _).
      unfold parseAtom. rewrite H1, H2, H3. cbn [bind].
      assert (Eq : parseQuantifier (pre ++ rest) = Ok (1, 1, pre ++ rest)).
      { destruct pre as [|c' pre']; [exact Hq|].
        pose proof Ho as Ho'.
        cbn [forallb] in Ho'. apply andb_true_iff in Ho'. destruct Ho' as [Hc' _].
        apply isOrdinary_spec in Hc'. destruct Hc' as (_ & _ & Hq' & _).
        unfold isQuantifierChar in Hq'.
        repeat (apply orb_false_iff in Hq'; destruct Hq' as [Hq' ?]).
        apply parseQuantifier_absent; cbn; intros ->; discriminate. }
      rewrite Eq. cbn [bind]. rewrite IH by assumption.
      cbn [List.map]. rewrite <- app_assoc. reflexivity.
Qed.

(** A character that starts an atom is no quantifier. *)
Lemma parseAtom_no_quantifier (ch : char) (rest1 : jsstring) (a : Atom) (rest2 : jsstring) :
  parseAtom ch rest1 = Ok (a, rest2) ->
  parseQuantifier (ch :: rest1) = Ok (1, 1, ch :: rest1).
Proof.
  intros H.
  assert (Hq : isQuantifierChar ch = false).
  { unfold parseAtom in H. destruct (Z.eqb_spec ch LBRACKET) as [->|_]; [reflexivity|].
    destruct (Z.eqb_spec ch BACKSLASH) as [->|_]; [reflexivity|].
    destruct (isQuantifierChar ch); [discriminate | reflexivity]. }
  unfold isQuantifierChar in Hq.
  repeat (apply orb_false_iff in Hq; destruct Hq as [Hq ?]).
  apply parseQuantifier_absent; cbn; intros ->; discriminate.
Qed.

Lemma noGroups_app (a b : jsstring) : noGroups a -> noGroups b -> noGroups (a ++ b).
Proof.
  unfold noGroups. intros (H1 & H2 & H3) (H4 & H5 & H6).
  repeat split; intros H; apply in_app_or in H; tauto.
Qed.

(** [compile] on ordinary characters followed by an atom and its quantifier. *)
Lemma compile_atom (pre : jsstring) (ch : char) (rest1 : jsstring) (a : Atom)
      (rest2 : jsstring) :
  forallb isOrdinary pre = true -> noGroups (ch :: rest1) ->
  ch <> CARET -> ch <> DOLLAR ->
  parseAtom ch rest1 = Ok (a, rest2) ->
  compile (pre ++ ch :: rest1) =
  '(qmin, qmax, rest3) <- parseQuantifier rest2 ;;
  compileLoop (List.length rest1) rest3
              (literals pre ++ [{| atom := a; min := qmin; max := qmax |}]).
Proof.
  intros Ho Hg H1 H2 Ha.
  rewrite (compile_noGroups _ (noGroups_app _ _ (ordinary_noGroups pre Ho) Hg)).
  rewrite length_app. cbn [List.length].
  rewrite (compileLoop_prefix pre _ (ch :: rest1) [] Ho (parseAtom_no_quantifier _ _ _ _ Ha)).
  cbn [app compileLoop]. apply Z.eqb_neq in H1, H2. rewrite H1, H2, Ha. reflexivity.
Qed.

Lemma compile_atom_refused (pre : jsstring) (ch : char) (rest1 : jsstring) (a : Atom)
      (rest2 : jsstring) (k : ErrorKind) :
  forallb isOrdinary pre = true -> noGroups (ch :: rest1) ->
  ch <> CARET -> ch <> DOLLAR ->
  parseAtom ch rest1 = Ok (a, rest2) ->
  fails_with (parseQuantifier rest2) k ->
  fails_with (compile (pre ++ ch :: rest1)) k.
Proof.
  intros Ho Hg H1 H2 Ha (e & He & Hk).
  rewrite (compile_atom pre ch rest1 a rest2 Ho Hg H1 H2 Ha), He.
  exists e. split; [reflexivity | exact Hk].
Qed.

Lemma compile_atom_quantified (pre : jsstring) (ch : char) (rest1 : jsstring) (a : Atom)
      (rest2 : jsstring) (mn mx : Z) (post : jsstring) :
  forallb isOrdinary pre = true -> forallb isOrdinary post = true ->
  noGroups (ch :: rest1) -> ch <> CARET -> ch <> DOLLAR ->
  parseAtom ch rest1 = Ok (a, rest2) ->
  parseQuantifier rest2 = Ok (mn, mx, post) ->
  compile (pre ++ ch :: rest1) =
  Ok (literals pre ++ [{| atom := a; min := mn; max := mx |}] ++ literals post).
Proof.
  intros Ho Hp Hg H1 H2 Ha Hq.
  rewrite (compile_atom pre ch rest1 a rest2 Ho Hg H1 H2 Ha), Hq. cbn [bind].
  rewrite compileLoop_ordinary.
  - rewrite <- app_assoc. reflexivity.
  - exact Hp.
  - apply parseAtom_shorter in Ha. apply parseQuantifier_result in Hq. lia.
Qed.

(** C6.  After each atom [compile] reads a quantifier: none gives {1,1}; [?],
    [+] and [*] give {0,1}, {1,16} and {0,16}; [{n}], [{n,}] and [{n,m}] give
    {n,n}, {n,n+16} and {n,m}.  The quantifier is refused as invalid when no
    digit follows [{], when the closing [}] is missing, when max < min and
    when max > 100000 (no bound is ever negative).  One of [{ } ? + *] where an
    atom has to start is refused as dangling.  Every piece that [compile]
    returns has 0 <= min <= max <= 100000.  What [parseQuantifier] finds
    behind an atom is what [compile] does with the pattern: a quantifier that
    is refused makes the scan fail with the same error wherever the atom
    stands, and so [compile] for an atom behind ordinary characters; one
    that is read gives the atom its bounds, between the literals before it
    and those after it. *)
Theorem quantifier_suffix :
  (forall fuel ch rest1 pieces a rest2 mn mx rest3,
     ch <> CARET -> ch <> DOLLAR ->
     parseAtom ch rest1 = Ok (a, rest2) ->
     parseQuantifier rest2 = Ok (mn, mx, rest3) ->
     compileLoop (S fuel) (ch :: rest1) pieces =
     compileLoop fuel rest3 (pieces ++ [{| atom := a; min := mn; max := mx |}])) /\
  (forall rest,
     notAhead QUESTION rest -> notAhead PLUS rest -> notAhead STAR rest ->
     notAhead LBRACE rest ->
     parseQuantifier rest = Ok (1, 1, rest)) /\
  (forall rest,
     parseQuantifier (QUESTION :: rest) = Ok (0, 1, rest) /\
     parseQuantifier (PLUS :: rest) = Ok (1, 16, rest) /\
     parseQuantifier (STAR :: rest) = Ok (0, 16, rest)) /\
  (forall ds rest,
     ds <> [] -> allDigits ds ->
     0 <= decimal ds /\
     (decimal ds <= 100000 ->
      parseQuantifier (LBRACE :: ds ++ RBRACE :: rest) = Ok (decimal ds, decimal ds, rest)) /\
     (100000 < decimal ds ->
      fails_with (parseQuantifier (LBRACE :: ds ++ RBRACE :: rest)) InvalidQuantifier) /\
     (decimal ds + 16 <= 100000 ->
      parseQuantifier (LBRACE :: ds ++ COMMA :: RBRACE :: rest) =
      Ok (decimal ds, decimal ds + 16, rest)) /\
     (100000 < decimal ds + 16 ->
      fails_with (parseQuantifier (LBRACE :: ds ++ COMMA :: RBRACE :: rest))
                 InvalidQuantifier)) /\
  (forall ds1 ds2 rest,
     ds1 <> [] -> allDigits ds1 -> ds2 <> [] -> allDigits ds2 ->
     (decimal ds1 <= decimal ds2 -> decimal ds2 <= 100000 ->
      parseQuantifier (LBRACE :: ds1 ++ COMMA :: ds2 ++ RBRACE :: rest) =
      Ok (decimal ds1, decimal ds2, rest)) /\
     (decimal ds2 < decimal ds1 \/ 100000 < decimal ds2 ->
      fails_with (parseQuantifier (LBRACE :: ds1 ++ COMMA :: ds2 ++ RBRACE :: rest))
                 InvalidQuantifier)) /\
  (forall rest,
     noDigitAhead rest ->
     fails_with (parseQuantifier (LBRACE :: rest)) InvalidQuantifier) /\
  (forall ds1 ds2 rest,
     ds1 <> [] -> allDigits ds1 -> allDigits ds2 ->
     noDigitAhead rest -> notAhead RBRACE rest ->
     (notAhead COMMA rest ->
      fails_with (parseQuantifier (LBRACE :: ds1 ++ rest)) InvalidQuantifier) /\
     fails_with (parseQuantifier (LBRACE :: ds1 ++ COMMA :: ds2 ++ rest)) InvalidQuantifier) /\
  (forall fuel ch rest pieces,
     isQuantifierChar ch = true ->
     fails_with (compileLoop (S fuel) (ch :: rest) pieces) DanglingQuantifier) /\
  (forall ch rest,
     isQuantifierChar ch = true -> noGroups (ch :: rest) ->
     fails_with (compile (ch :: rest)) DanglingQuantifier) /\
  (forall pattern pieces,
     compile pattern = Ok pieces -> Forall boundsOk pieces) /\
  (forall fuel ch rest1 pieces a rest2 k,
     ch <> CARET -> ch <> DOLLAR ->
     parseAtom ch rest1 = Ok (a, rest2) ->
     fails_with (parseQuantifier rest2) k ->
     fails_with (compileLoop (S fuel) (ch :: rest1) pieces) k) /\
  (forall pre ch rest1 a rest2 k,
     forallb isOrdinary pre = true -> noGroups (ch :: rest1) ->
     ch <> CARET -> ch <> DOLLAR ->
     parseAtom ch rest1 = Ok (a, rest2) ->
     fails_with (parseQuantifier rest2) k ->
     fails_with (compile (pre ++ ch :: rest1)) k) /\
  (forall pre ch rest1 a rest2 mn mx post,
     forallb isOrdinary pre = true -> forallb isOrdinary post = true ->
     noGroups (ch :: rest1) -> ch <> CARET -> ch <> DOLLAR ->
     parseAtom ch rest1 = Ok (a, rest2) ->
     parseQuantifier rest2 = Ok (mn, mx, post) ->
     compile (pre ++ ch :: rest1) =
     Ok (literals pre ++ [{| atom := a; min := mn; max := mx |}] ++ literals post)).
Proof.
  split; [exact compileLoop_piece|].
  split; [exact parseQuantifier_absent|].
  split; [exact parseQuantifier_marks|].
  split.
  { intros ds rest Hne Hds. split; [apply decimal_nonneg; exact Hds|].
    destruct (parseQuantifier_exactly ds rest Hne Hds) as [H1 H2].
    destruct (parseQuantifier_at_least ds rest Hne Hds) as [H3 H4]. auto. }
  split; [exact parseQuantifier_between|].
  split.
  { intros rest H. rewrite (parseQuantifier_no_number rest H).
    raises. }
  split.
  { intros ds1 ds2 rest Hne Hd1 Hd2 Hnd Hnb.
    destruct (parseQuantifier_not_closed ds1 ds2 rest Hne Hd1 Hd2 Hnd Hnb) as [H1 H2].
    split.
    - intros Hc. rewrite (H1 Hc). raises.
    - rewrite H2. raises. }
  split.
  { intros fuel ch rest pieces H. rewrite (compileLoop_dangling fuel ch rest pieces H).
    raises. }
  split.
  { intros ch rest H Hg. rewrite (compile_noGroups _ Hg). cbn [List.length].
    rewrite (compileLoop_dangling _ ch rest [] H). raises. }
  split; [exact compile_bounds|].
  split.
  { intros fuel ch rest1 pieces a rest2 k H1 H2 Ha (e & He & Hk).
    apply Z.eqb_neq in H1, H2. cbn [compileLoop]. rewrite H1, H2, Ha. cbn [orb bind].
    rewrite He. exists e. split; [reflexivity | exact Hk]. }
  split; [exact compile_atom_refused | exact compile_atom_quantified].
Qed.

Lemma quantifier_suffix_witness :
  parseQuantifier (str "x") = Ok (1, 1, str "x") /\
  parseQuantifier (LBRACE :: str "3" ++ COMMA :: str "5" ++ RBRACE :: str "x") =
    Ok (decimal (str "3"), decimal (str "5"), str "x") /\
  fails_with (parseQuantifier (LBRACE :: str "3" ++ COMMA :: str "2" ++ RBRACE :: []))
             InvalidQuantifier /\
  fails_with (compile (str "*a")) DanglingQuantifier /\
  Forall boundsOk [{| atom := Literal 97; min := 2; max := 18 |}] /\
  fails_with (compile (str "ab{3,2}")) InvalidQuantifier /\
  fails_with (compile (str "a{")) InvalidQuantifier /\
  fails_with (compile (str "a{3")) InvalidQuantifier /\
  fails_with (compile (str "a{100001}")) InvalidQuantifier /\
  compile (str "x\d{2,}yz") =
    Ok (literals (str "x") ++ [{| atom := Digit; min := 2; max := 18 |}] ++ literals (str "yz")).
Proof.
  destruct quantifier_suffix
    as (_ & H2 & _ & H4 & H5 & H6 & H7 & _ & H9 & H10 & _ & H11 & H12).
  split; [|split; [|split; [|split; [|split; [|split; [|split; [|split; [|split]]]]]]]].
  - apply H2; vm_compute; lia.
  - apply (H5 (str "3") (str "5") (str "x")).
    + discriminate.
    + repeat constructor.
    + discriminate.
    + repeat constructor.
    + vm_compute. discriminate.
    + vm_compute. discriminate.
  - apply (H5 (str "3") (str "2") []).
    + discriminate.
    + repeat constructor.
    + discriminate.
    + repeat constructor.
    + left. vm_compute. reflexivity.
  - apply (H9 STAR (str "a")); [reflexivity|].
    vm_compute. lia.
  - apply (H10 (str "a{2,}")). vm_compute. reflexivity.
  - apply (H11 (str "a") (chr "b") (str "{3,2}") (Literal (chr "b")) (str "{3,2}"));
      try reflexivity; try discriminate; [vm_compute; lia|].
    apply (H5 (str "3") (str "2") []).
    + discriminate.
    + repeat constructor.
    + discriminate.
    + repeat constructor.
    + left. vm_compute. reflexivity.
  - apply (H11 [] (chr "a") (str "{") (Literal (chr "a")) (str "{"));
      try reflexivity; try discriminate; [vm_compute; lia|].
    apply (H6 []). exact I.
  - apply (H11 [] (chr "a") (str "{3") (Literal (chr "a")) (str "{3"));
      try reflexivity; try discriminate; [vm_compute; lia|].
    apply (H7 (str "3") [] []); try exact I; [discriminate | repeat constructor | constructor].
  - apply (H11 [] (chr "a") (str "{100001}") (Literal (chr "a")) (str "{100001}"));
      try reflexivity; try discriminate; [vm_compute; lia|].
    apply (H4 (str "100001") []); [discriminate | repeat constructor |].
    vm_compute. reflexivity.
  - apply (H12 (str "x") BACKSLASH (str "d{2,}yz") Digit (str "{2,}yz") 2 18 (str "yz"));
      try reflexivity; try discriminate.
    vm_compute. lia.
Defined.

(** ** Products of doubles *)

(** The floor of [q * 2^e] for a positive [q]. *)
Lemma floorZ_below (q : positive) (e n K sh : Z) :
  e = sh - K -> 0 <= sh <= K -> Zpos q * 2 ^ sh < n * 2 ^ K ->
  0 <= floorZ (S754_finite false q e) <= n - 1.
Proof.
  intros -> Hsh Hlt. pose proof (floorZ_nonneg q (sh - K)) as H0. split; [exact H0|].
  unfold floorZ, cond_Zopp in *.
  pose proof (pow2_pos sh ltac:(lia)) as Hs. pose proof (pow2_pos K ltac:(lia)) as HK.
  destruct (Z.leb_spec 0 (sh - K)).
  - assert (sh = K) by lia. subst sh. rewrite Z.sub_diag, Z.pow_0_r. nia.
  - assert (Zpos q / 2 ^ (- (sh - K)) < n); [|lia].
    apply Z.div_lt_upper_bound; [apply pow2_pos; lia|].
    assert (E : 2 ^ K = 2 ^ (- (sh - K)) * 2 ^ sh).
    { rewrite <- pow2_split by lia. f_equal. lia. }
    rewrite E in Hlt. pose proof (pow2_pos (- (sh - K)) ltac:(lia)). nia.
Qed.

(** A product that is below the integer [n], and below it by at least the
    [2^53]th part of [n], is rounded to a double whose floor is below [n]:
    the product is [P * 2^(-K)]. *)
Lemma round_below (P : positive) (K n : Z) :
  0 < K -> 1 <= n <= 2 ^ 53 ->
  Zpos P < n * 2 ^ K ->
  n * 2 ^ K <= 2 ^ 53 * (n * 2 ^ K - Zpos P) ->
  exists j,
    Math_floor (binary_round_aux prec emax false (Zpos P) (- K) loc_Exact) = Int j /\
    0 <= j <= n - 1.
Proof.
  intros HK Hn Hlt Hgap.
  set (d := Zpos (digits2_pos P)).
  pose proof (digits_bounds P) as [Hdlo Hdhi]. fold d in Hdlo, Hdhi.
  assert (Hd1 : 1 <= d) by (unfold d; lia).
  pose proof (pow2_pos K ltac:(lia)) as HpK.
  set (sh := fexp prec emax (d + - K) - - K).
  assert (Esh : sh = Z.max (d - 53) (K - 1074)) by (unfold sh, fexp, emin, prec, emax; lia).
  assert (HdK : d - 53 <= K).
  { destruct (Z.le_gt_cases (d - 53) K) as [|Hgt]; [assumption|]. exfalso.
    assert (H1 : 2 ^ (53 + K) <= 2 ^ (d - 1)) by (apply Z.pow_le_mono_r; lia).
    rewrite pow2_split in H1 by lia. nia. }
  assert (HshK : sh <= K) by lia.
  unfold binary_round_aux.
  destruct (Z.le_gt_cases sh 0) as [Hsh0|Hsh0].
  - (* the product has at most 53 bits: it is not shifted *)
    assert (E1 : shr_fexp prec emax (Zpos P) (- K) loc_Exact =
                 ({| shr_m := Zpos P; shr_r := false; shr_s := false |}, - K)).
    { unfold shr_fexp, Zdigits2. fold d. fold sh. destruct sh; try lia; reflexivity. }
    rewrite E1. cbn [shr_m loc_of_shr_record round_nearest_even]. rewrite E1. cbn [shr_m].
    destruct (Z.leb_spec (- K) (emax - prec)); [|unfold emax, prec in *; lia].
    exists (floorZ (S754_finite false P (- K))). split; [reflexivity|].
    apply (floorZ_below P (- K) n K 0); [lia | lia | rewrite Z.pow_0_r; lia].
  - (* it is shifted by [sh] bits and rounded *)
    rewrite (shr_fexp_shift P (- K) sh Hsh0 eq_refl). cbn [shr_m].
    rewrite nearest_even_bits by lia. cbv zeta.
    pose proof (pow2_pos sh ltac:(lia)) as Hu.
    pose proof (pow2_pos (sh - 1) ltac:(lia)) as Hhalf.
    assert (Eu : 2 ^ sh = 2 * 2 ^ (sh - 1)).
    { replace sh with (1 + (sh - 1)) at 1 by lia. rewrite pow2_split by lia. reflexivity. }
    pose proof (Z.div_mod (Zpos P) (2 ^ sh) ltac:(lia)) as Ediv.
    pose proof (Z.mod_pos_bound (Zpos P) (2 ^ sh) Hu) as Hr.
    assert (EK : 2 ^ K = 2 ^ (K - sh) * 2 ^ sh).
    { rewrite <- pow2_split by lia. f_equal. lia. }
    pose proof (pow2_pos (K - sh) ltac:(lia)) as HpKs.
    set (q := Zpos P / 2 ^ sh) in *. set (r := Zpos P mod 2 ^ sh) in *.
    set (u := 2 ^ sh) in *. set (half := 2 ^ (sh - 1)) in *.
    assert (Hq0 : 0 <= q) by (apply Z.div_pos; lia).
    (* the unit is small against [n] *)
    assert (Hunit : 2 ^ 52 * u < n * 2 ^ K).
    { destruct (Z.le_gt_cases (K - 1074) (d - 53)).
      - assert (sh = d - 53) by lia.
        assert (2 ^ 52 * u = 2 ^ (d - 1)).
        { unfold u. rewrite <- pow2_split by lia. f_equal. lia. }
        lia.
      - assert (sh = K - 1074) by lia.
        assert (2 ^ 52 * u < 2 ^ K).
        { unfold u. rewrite <- pow2_split by lia. apply Z.pow_lt_mono_r; lia. }
        nia. }
    set (q' := if r <? half then q
               else if half <? r then q + 1 else if Z.even q then q else q + 1).
    assert (Hq' : q <= q' <= q + 1 /\ (q' = q + 1 -> half <= r)).
    { unfold q'. destruct (Z.ltb_spec r half); [lia|].
      destruct (Z.ltb_spec half r); [lia|]. destruct (Z.even q); lia. }
    assert (Hbelow : q' * u < n * 2 ^ K).
    { rewrite EK in *. set (N := n * 2 ^ (K - sh)) in *.
      assert (EN : n * (2 ^ (K - sh) * u) = N * u) by (unfold N; ring).
      rewrite EN in *.
      assert (q < N) by nia.
      destruct (Z.eq_dec q' (q + 1)) as [Eq|Nq]; [|nia].
      destruct (Z.eq_dec (q + 1) N) as [Etop|]; [|nia].
      exfalso. destruct Hq' as [_ Hup]. specialize (Hup Eq).
      assert (N * u - Zpos P <= half) by nia. nia. }
    assert (He' : -1074 <= - K + sh <= 0) by lia.
    destruct q' as [|qp|qp] eqn:Eq'; [| |lia].
    + (* rounded to zero *)
      assert (E2 : shr_fexp prec emax 0 (- K + sh) loc_Exact =
                   ({| shr_m := 0; shr_r := false; shr_s := false |}, - K + sh)).
      { unfold shr_fexp, Zdigits2. cbn [shr_record_of_loc].
        destruct (fexp prec emax (0 + (- K + sh)) - (- K + sh)) eqn:Ef; try reflexivity.
        unfold fexp, emin, prec, emax in Ef. lia. }
      rewrite E2. cbn [shr_m]. exists 0. split; [reflexivity | lia].
    + assert (Hqp : Zpos qp <= 2 ^ 53).
      { assert (q < 2 ^ 53); [|lia].
        apply Z.div_lt_upper_bound; [lia|].
        assert (2 ^ d <= 2 ^ 53 * u); [|lia].
        unfold u. rewrite <- pow2_split by lia. apply Z.pow_le_mono_r; lia. }
      destruct (Z.eq_dec (Zpos qp) (2 ^ 53)) as [Etop|Ntop].
      * (* rounded up to 2^53: one more shift *)
        assert (Hdq : Zpos (digits2_pos qp) = 54).
        { rewrite digits2_pos_log2, Etop. reflexivity. }
        rewrite (shr_fexp_shift qp (- K + sh) 1)
          by (rewrite ?Hdq; unfold fexp, emin, prec, emax; lia).
        cbn [shr_m]. rewrite Etop. change (2 ^ 53 / 2 ^ 1) with (Zpos 4503599627370496).
        cbv iota.
        destruct (Z.leb_spec (- K + sh + 1) (emax - prec)); [|unfold emax, prec in *; lia].
        eexists. split; [reflexivity|].
        apply (floorZ_below 4503599627370496 (- K + sh + 1) n K (sh + 1)); try lia.
        -- split; [lia|]. destruct (Z.eq_dec sh K) as [->|]; [|lia]. exfalso.
           fold u in EK. rewrite Z.sub_diag, Z.pow_0_r in EK. nia.
        -- replace (2 ^ (sh + 1)) with (2 * u) by (unfold u; rewrite pow2_split; lia).
           rewrite Etop in Hbelow. change (2 ^ 53) with (4503599627370496 * 2) in Hbelow. lia.
      * (* at most 53 bits: no further shift *)
        assert (Hdq : Zpos (digits2_pos qp) <= 53) by (apply digits_le; lia).
        assert (E2 : shr_fexp prec emax (Zpos qp) (- K + sh) loc_Exact =
                     ({| shr_m := Zpos qp; shr_r := false; shr_s := false |}, - K + sh)).
        { unfold shr_fexp, Zdigits2. cbn [shr_record_of_loc].
          destruct (fexp prec emax (Zpos (digits2_pos qp) + (- K + sh)) - (- K + sh)) eqn:Ef;
            try reflexivity.
          unfold fexp, emin, prec, emax in Ef. lia. }
        rewrite E2. cbn [shr_m].
        destruct (Z.leb_spec (- K + sh) (emax - prec)); [|unfold emax, prec in *; lia].
        eexists. split; [reflexivity|].
        apply (floorZ_below qp (- K + sh) n K sh); try lia.
Qed.

Lemma SFltb_positive (m1 m2 : positive) (e1 e2 : Z) :
  SFltb (S754_finite false m1 e1) (S754_finite false m2 e2) = true ->
  e1 < e2 \/ (e1 = e2 /\ Zpos m1 < Zpos m2).
Proof.
  unfold SFltb, SFcompare.
  destruct (Z.compare_spec e1 e2) as [E|L|G]; try discriminate; [|auto].
  pose proof (Pos.compare_spec m1 m2) as Hc. unfold Pos.compare in Hc.
  destruct Hc; try discriminate. intros _. right. split; [exact E | lia].
Qed.

(** A double below 1 is below it by at least [2^-53]. *)
Lemma below_one (m : positive) (e : Z) :
  valid_binary prec emax (S754_finite false m e) = true ->
  inUnitInterval (S754_finite false m e) = true ->
  e < 0 /\ Zpos m < 2 ^ (- e) /\ 2 ^ (- e) <= 2 ^ 53 * (2 ^ (- e) - Zpos m).
Proof.
  intros Hv Hu. destruct (valid_mantissa _ _ _ Hv) as [Hm _].
  cbn [inUnitInterval] in Hu.
  assert (E1 : ofZ 1 = S754_finite false 4503599627370496 (-52)) by reflexivity.
  rewrite E1 in Hu. apply SFltb_positive in Hu.
  destruct Hu as [Hlt|[-> Hlt]].
  - split; [lia|].
    assert (H53 : 2 ^ 53 <= 2 ^ (- e)) by (apply Z.pow_le_mono_r; lia).
    split; lia.
  - assert (E2 : 2 ^ (- -52) = 4503599627370496) by reflexivity.
    rewrite E2. lia.
Qed.

(** ** Generation *)

(** [randInt] stays between its bounds: the product of a double below 1 and
    an integer [n] up to 2^53 is rounded to a double below [n]. *)
Lemma randInt_double_in (x : number) (lo hi : Z) :
  valid_binary prec emax x = true -> inUnitInterval x = true ->
  lo <= hi -> hi - lo + 1 < 2 ^ 53 ->
  exists v, randInt_double lo hi x = Int v /\ lo <= v <= hi.
Proof.
  intros Hv Hu Hle Hn. unfold randInt_double. set (n := hi - lo + 1) in *.
  destruct (ofZ_exact n ltac:(lia) ltac:(lia)) as (mn & en & En & Hen & Hmn).
  destruct (Z.ltb_spec n 0); [lia|]. rewrite Z.abs_eq in Hmn by lia. rewrite En.
  destruct x as [s|s| |s mx ex]; try discriminate.
  - (* zero *) cbn [SFmul Math_floor floorZ]. exists (lo + 0). split; [reflexivity | lia].
  - destruct s; [discriminate|].
    destruct (below_one mx ex Hv Hu) as (Hex & Hlt & Hgap).
    cbn [SFmul xorb].
    pose proof (pow2_pos (- ex) ltac:(lia)) as HD.
    pose proof (pow2_pos (- en) ltac:(lia)) as HN.
    assert (EK : 2 ^ (- (ex + en)) = 2 ^ (- ex) * 2 ^ (- en)).
    { rewrite <- pow2_split by lia. f_equal. lia. }
    destruct (round_below (mx * mn) (- (ex + en)) n) as (j & Ej & Hj).
    + lia.
    + lia.
    + rewrite Pos2Z.inj_mul, Hmn, EK. nia.
    + rewrite Pos2Z.inj_mul, Hmn, EK.
      replace (n * (2 ^ (- ex) * 2 ^ (- en)) - Zpos mx * (n * 2 ^ (- en)))
        with (n * 2 ^ (- en) * (2 ^ (- ex) - Zpos mx)) by ring.
      nia.
    + replace (ex + en) with (- - (ex + en)) by lia. rewrite Ej.
      exists (lo + j). split; [reflexivity | lia].
Qed.

(** An index drawn for an array that is not empty lies inside it. *)
Lemma pick_double_in {T : Type} (arr : list T) (x : number) :
  valid_binary prec emax x = true -> inUnitInterval x = true ->
  arr <> [] -> Z.of_nat (List.length arr) < 2 ^ 53 ->
  exists c, pick_double arr x = Some c /\ In c arr.
Proof.
  intros Hv Hu Hne Hlen. unfold pick_double, elementAt.
  assert (Hl : 0 <= Z.of_nat (List.length arr) - 1).
  { destruct arr; [congruence | cbn [List.length]; lia]. }
  destruct (randInt_double_in x 0 (Z.of_nat (List.length arr) - 1) Hv Hu Hl ltac:(lia))
    as (i & Ei & Hi).
  rewrite Ei. destruct (Z.ltb_spec i 0); [lia|].
  destruct (nth_error arr (Z.to_nat i)) as [c|] eqn:E.
  - exists c. split; [reflexivity|]. eapply nth_error_In. exact E.
  - apply nth_error_None in E. lia.
Qed.

(** The product is rounded.  For [x = 2573485501354569 / 2^52] and 7
    choices it is [4 - 2^-52], which is no double; the nearest double is 4,
    and 4 is drawn, where the floor of the product itself is 3. *)
Example randInt_rounds :
  randInt_double 0 6 (S754_finite false 5146971002709138 (-53)) = Int 4 /\
  5146971002709138 * 7 / 2 ^ 53 = 3 /\
  pick_double (str "abcdefg") (S754_finite false 5146971002709138 (-53)) = Some (chr "e").
Proof. repeat split. Qed.

Lemma randInt_range (lo hi : Z) (r : rng) :
  lo <= hi -> hi - lo + 1 < 2 ^ 53 ->
  exists v, fst (randInt lo hi r) = Int v /\ lo <= v <= hi.
Proof.
  intros Hle Hn. unfold randInt, Math_random. cbn [fst].
  apply randInt_double_in; [apply drawn_valid | apply drawn_unit | exact Hle | exact Hn].
Qed.

Lemma pick_in {T : Type} (arr : list T) (r : rng) :
  arr <> [] -> Z.of_nat (List.length arr) < 2 ^ 53 ->
  exists c, fst (pick arr r) = Some c /\ In c arr.
Proof.
  intros Hne Hlen. unfold pick, randInt, Math_random. cbn [fst].
  apply (pick_double_in arr (drawn (r O)));
    [apply drawn_valid | apply drawn_unit | exact Hne | exact Hlen].
Qed.

Lemma emit_class (chars : list Z) (out : jsstring) (r : rng) :
  chars <> [] -> Z.of_nat (List.length chars) < 2 ^ 53 ->
  exists c r', emit (CharClass chars) out r = (out ++ [c], r') /\ In c chars.
Proof.
  intros Hne Hlen. cbn [emit]. unfold appendPick.
  destruct (pick_in chars r Hne Hlen) as (c & Hc & Hin).
  destruct (pick chars r) as [o r']. cbn [fst] in Hc. subst o.
  exists c, r'. split; [reflexivity | exact Hin].
Qed.

(** ** Character classes in [compile] *)

Lemma compileLoop_class_error (fuel : nat) (rest1 : jsstring) (pieces : list Piece) (e : error) :
  parseCharClass (LBRACKET :: rest1) = Err e ->
  compileLoop (S fuel) (LBRACKET :: rest1) pieces = Err e.
Proof.
  intros H. cbn [compileLoop]. change ((LBRACKET =? CARET) || (LBRACKET =? DOLLAR)) with false.
  cbv iota. unfold parseAtom. change (LBRACKET =? LBRACKET) with true. cbv iota.
  rewrite H. reflexivity.
Qed.

(** The characters of a run, as [expandRange] lists them. *)
Lemma upFrom_seq (n : nat) :
  forall a, List.map (fun k => a + Z.of_nat k) (seq 0 n) = upFrom a n.
Proof.
  induction n as [|n IH]; intros a; [reflexivity|].
  cbn [seq List.map upFrom]. f_equal; [lia|].
  rewrite <- seq_shift, map_map, <- IH. apply map_ext. intros k. lia.
Qed.

Lemma expandRange_upFrom (a b : char) :
  a <= b -> expandRange a b = Ok (upFrom a (Z.to_nat (b - a + 1))).
Proof.
  intros H. unfold expandRange. destruct (Z.ltb_spec b a); [lia|].
  rewrite upFrom_seq. reflexivity.
Qed.

Lemma upFrom_In (n : nat) :
  forall a x, In x (upFrom a n) <-> a <= x < a + Z.of_nat n.
Proof.
  induction n as [|n IH]; intros a x.
  - cbn. lia.
  - cbn [upFrom In]. rewrite IH. lia.
Qed.

(** One round of the loop on a character that stands for itself. *)
Lemma classLoop_single (c : char) (next chars : jsstring) :
  c <> RBRACKET -> c <> BACKSLASH -> noRunAhead next ->
  classLoop (c :: next) chars = classLoop next (chars ++ [c]).
Proof.
  intros H1 H2 Hn. apply Z.eqb_neq in H1, H2. cbn [classLoop]. rewrite H1, H2.
  destruct next as [|dash [|b t]]; try reflexivity.
  cbn [noRunAhead] in Hn.
  destruct (Z.eqb_spec dash HYPHEN) as [->|_]; [|reflexivity].
  destruct (Z.eqb_spec b RBRACKET) as [->|Hb]; [reflexivity|].
  destruct Hn as [Hn|Hn]; congruence.
Qed.

(** The loop over the items of a class. *)
Lemma classLoop_items (its : list ClassItem) :
  forall next chars,
    readAs its next -> Forall ascending its ->
    classLoop (writtenAll its ++ next) chars =
    classLoop next (chars ++ flat_map contributes its).
Proof.
  induction its as [|it its IH]; intros next chars Hr Ha.
  - cbn. rewrite app_nil_r. reflexivity.
  - destruct Hr as [Hs Hr]. inversion Ha as [|? ? Hit Hits]; subst.
    unfold writtenAll in *. cbn [flat_map]. rewrite <- !app_assoc.
    destruct it as [x|a b|c]; cbn [written contributes app].
    + rewrite classLoop_escape, IH by assumption.
      rewrite <- app_assoc. reflexivity.
    + destruct Hs as (H1 & H2 & H3). cbn [ascending] in Hit.
      rewrite classLoop_range_step, (expandRange_upFrom a b Hit) by assumption.
      rewrite IH by assumption. rewrite <- app_assoc. reflexivity.
    + destruct Hs as (H1 & H2 & H3).
      rewrite classLoop_single, IH by assumption.
      rewrite <- app_assoc. reflexivity.
Qed.

(** A class that does not open with [^]. *)
Lemma parseCharClass_classLoop (body : jsstring) :
  notAhead CARET body -> parseCharClass (LBRACKET :: body) = classLoop body [].
Proof.
  intros H. cbn [parseCharClass]. change (negb (LBRACKET =? LBRACKET)) with false. cbv iota.
  destruct body as [|c t]; [reflexivity|]. cbn [notAhead] in H.
  apply Z.eqb_neq in H. rewrite H. reflexivity.
Qed.

Lemma flat_map_contributes_nil (its : list ClassItem) :
  Forall ascending its -> its <> [] -> flat_map contributes its <> [].
Proof.
  intros Ha Hne. destruct its as [|it its]; [congruence|].
  inversion Ha as [|? ? Hit _]; subst. cbn [flat_map].
  destruct it as [x|a b|c]; cbn [contributes ascending] in *; try discriminate.
  destruct (Z.to_nat (b - a + 1)) eqn:E; [lia | discriminate].
Qed.

(** The four ways in which a class ends. *)
Lemma parseCharClass_closed (its : list ClassItem) (rest : jsstring) :
  readAs its (RBRACKET :: rest) -> Forall ascending its -> its <> [] ->
  notAhead CARET (writtenAll its ++ RBRACKET :: rest) ->
  parseCharClass (LBRACKET :: writtenAll its ++ RBRACKET :: rest) =
  Ok (flat_map contributes its, rest).
Proof.
  intros Hr Ha Hne Hc. rewrite parseCharClass_classLoop by exact Hc.
  rewrite classLoop_items by assumption. rewrite classLoop_close. cbn [app].
  pose proof (flat_map_contributes_nil its Ha Hne) as Hn.
  destruct (flat_map contributes its); [congruence | reflexivity].
Qed.

Lemma parseCharClass_descending (its : list ClassItem) (a b : char) (rest : jsstring) :
  readAs its (a :: HYPHEN :: b :: rest) -> Forall ascending its ->
  isRun a b -> b < a ->
  notAhead CARET (writtenAll its ++ a :: HYPHEN :: b :: rest) ->
  parseCharClass (LBRACKET :: writtenAll its ++ a :: HYPHEN :: b :: rest) =
  Err (InvalidRangeOf a b).
Proof.
  intros Hr Ha (H1 & H2 & H3) Hlt Hc. rewrite parseCharClass_classLoop by exact Hc.
  rewrite classLoop_items by assumption.
  rewrite classLoop_range_step, (expandRange_reversed a b Hlt) by assumption. reflexivity.
Qed.

Lemma parseCharClass_open_escape (its : list ClassItem) :
  readAs its [BACKSLASH] -> Forall ascending its ->
  notAhead CARET (writtenAll its ++ [BACKSLASH]) ->
  parseCharClass (LBRACKET :: writtenAll its ++ [BACKSLASH]) = Err InvalidEscapeAtEnd.
Proof.
  intros Hr Ha Hc. rewrite parseCharClass_classLoop by exact Hc.
  rewrite classLoop_items by assumption. reflexivity.
Qed.

Lemma parseCharClass_runs_out (its : list ClassItem) :
  readAs its [] -> Forall ascending its ->
  notAhead CARET (writtenAll its) ->
  parseCharClass (LBRACKET :: writtenAll its) = Err UnterminatedClass.
Proof.
  intros Hr Ha Hc. rewrite parseCharClass_classLoop by exact Hc.
  rewrite <- (app_nil_r (writtenAll its)).
  rewrite classLoop_items by assumption. reflexivity.
Qed.

(** Every text is read as items up to one of the four ends. *)
Lemma class_items_exist (n : nat) :
  forall body, (List.length body <= n)%nat ->
    exists its t, body = writtenAll its ++ endText t /\ readAs its (endText t) /\
                  Forall ascending its /\ endOk t.
Proof.
  induction n as [|n IH]; intros body Hn.
  { destruct body; [|simpl in Hn; lia]. exists [], RunsOut. repeat split; constructor. }
  destruct body as [|c t].
  { exists [], RunsOut. repeat split; constructor. }
  simpl in Hn.
  destruct (Z.eq_dec c RBRACKET) as [->|Hc1].
  { exists [], (Closed t). repeat split; constructor. }
  destruct (Z.eq_dec c BACKSLASH) as [->|Hc2].
  { destruct t as [|x t'].
    - exists [], OpenEscape. repeat split; constructor.
    - destruct (IH t' ltac:(simpl in Hn; lia)) as (its & e & E & Hr & Ha & He).
      exists (Escaped x :: its), e. unfold writtenAll in *. cbn [flat_map written app].
      rewrite E at 1. repeat split; try assumption. constructor; [exact I | exact Ha]. }
  assert (Hsingle : noRunAhead t ->
            exists its e, c :: t = writtenAll its ++ endText e /\ readAs its (endText e) /\
                          Forall ascending its /\ endOk e).
  { intros Hno. destruct (IH t ltac:(lia)) as (its & e & E & Hr & Ha & He).
    exists (Single c :: its), e. unfold writtenAll in *. cbn [flat_map written app].
    rewrite E at 1. split; [reflexivity|]. split; [|split; [|exact He]].
    - cbn [readAs standsAs]. fold (writtenAll its). unfold writtenAll. rewrite <- E.
      repeat split; assumption.
    - constructor; [exact I | exact Ha]. }
  destruct t as [|dash [|b t']]; try (apply Hsingle; exact I).
  destruct (Z.eq_dec dash HYPHEN) as [->|Hd]; [|apply Hsingle; left; exact Hd].
  destruct (Z.eq_dec b RBRACKET) as [->|Hb]; [apply Hsingle; right; reflexivity|].
  destruct (Z_lt_le_dec b c) as [Hlt|Hle].
  - exists [], (Descending c b t'). repeat split; try constructor; assumption.
  - destruct (IH t' ltac:(simpl in Hn; lia)) as (its & e & E & Hr & Ha & He).
    exists (Run c b :: its), e. unfold writtenAll in *. cbn [flat_map written app].
    rewrite E at 1. split; [reflexivity|]. split; [|split; [|exact He]].
    + cbn [readAs standsAs]. repeat split; assumption.
    + constructor; [exact Hle | exact Ha].
Qed.

(** A class behind ordinary characters: its error is the error of
    [compile]. *)
Lemma compile_class_error (pre body : jsstring) (e : error) :
  forallb isOrdinary pre = true -> noGroups body ->
  parseCharClass (LBRACKET :: body) = Err e ->
  compile (pre ++ LBRACKET :: body) = Err e.
Proof.
  intros Ho Hg He.
  assert (Hg' : noGroups (LBRACKET :: body)).
  { destruct Hg as (H1 & H2 & H3). repeat split; intros [H|H]; try discriminate H; tauto. }
  rewrite (compile_noGroups _ (noGroups_app _ _ (ordinary_noGroups pre Ho) Hg')).
  rewrite length_app. cbn [List.length].
  rewrite (compileLoop_prefix pre _ (LBRACKET :: body) [] Ho eq_refl).
  apply compileLoop_class_error. exact He.
Qed.

Lemma compile_class (pre body : jsstring) (chars : list char) (rest : jsstring)
      (mn mx : Z) (post : jsstring) :
  forallb isOrdinary pre = true -> forallb isOrdinary post = true -> noGroups body ->
  parseCharClass (LBRACKET :: body) = Ok (chars, rest) ->
  parseQuantifier rest = Ok (mn, mx, post) ->
  compile (pre ++ LBRACKET :: body) =
  Ok (literals pre ++ [{| atom := CharClass chars; min := mn; max := mx |}] ++ literals post).
Proof.
  intros Ho Hp Hg Hc Hq.
  assert (Hg' : noGroups (LBRACKET :: body)).
  { destruct Hg as (H1 & H2 & H3). repeat split; intros [H|H]; try discriminate H; tauto. }
  apply (compile_atom_quantified pre LBRACKET body (CharClass chars) rest mn mx post);
    try assumption; try discriminate.
  unfold parseAtom. change (LBRACKET =? LBRACKET) with true. cbv iota. rewrite Hc. reflexivity.
Qed.

Lemma class_refused (body : jsstring) (e : error) :
  parseCharClass (LBRACKET :: body) = Err e -> classRefused body (kind e).
Proof.
  intros He. split.
  - intros fuel pieces. rewrite (compileLoop_class_error fuel body pieces e He).
    exists e. split; reflexivity.
  - intros pre Ho Hg. rewrite (compile_class_error pre body e Ho Hg He).
    exists e. split; reflexivity.
Qed.

Lemma compileLoop_class (fuel : nat) (body : jsstring) (pieces : list Piece)
      (chars : list char) (rest : jsstring) (mn mx : Z) (rest' : jsstring) :
  parseCharClass (LBRACKET :: body) = Ok (chars, rest) ->
  parseQuantifier rest = Ok (mn, mx, rest') ->
  compileLoop (S fuel) (LBRACKET :: body) pieces =
  compileLoop fuel rest' (pieces ++ [{| atom := CharClass chars; min := mn; max := mx |}]).
Proof.
  intros Hc Hq. apply (compileLoop_piece fuel LBRACKET body pieces (CharClass chars) rest);
    try discriminate; [|exact Hq].
  unfold parseAtom. change (LBRACKET =? LBRACKET) with true. cbv iota. rewrite Hc. reflexivity.
Qed.

(** C7 (as amended).  A bracket expression, wherever the scan comes to it,
    and in particular behind ordinary characters.  [compile] fails as
    unsupported when the class opens with [^] and as an empty class when
    [[]] follows at once.  Otherwise the class is read from left to right as
    escapes [\X], runs [A-B] ([A] neither []] nor [\], [B] not []]) and
    single characters, and every text is read so up to one of four ends.  At
    a run that goes down [compile] fails as an invalid range.  When the
    pattern is over behind a whole item it fails as an unterminated class;
    when what is left of it is one backslash, as an unterminated escape.  At
    the closing bracket the class is made of what the items add, in their
    order: an escaped character adds itself, a run [A-B] every character
    from [A] to [B], a single character itself; it goes on with the
    quantifier that follows.  ["[A-C]{2}"] compiles to one piece, the class
    [A; B; C] with min 2 and max 2, and every string generated from it has
    two characters, each one of A, B, C. *)
Theorem character_class :
  (forall rest, classRefused (CARET :: rest) UnsupportedSyntax) /\
  (forall rest, classRefused (RBRACKET :: rest) EmptyCharClass) /\
  (forall body,
     exists its t, body = writtenAll its ++ endText t /\ readAs its (endText t) /\
                   Forall ascending its /\ endOk t) /\
  (forall its a b rest,
     notAhead CARET (writtenAll its ++ a :: HYPHEN :: b :: rest) ->
     readAs its (a :: HYPHEN :: b :: rest) -> Forall ascending its ->
     isRun a b -> b < a ->
     classRefused (writtenAll its ++ a :: HYPHEN :: b :: rest) InvalidRange) /\
  (forall its,
     notAhead CARET (writtenAll its) ->
     readAs its [] -> Forall ascending its ->
     classRefused (writtenAll its) UnterminatedCharClass) /\
  (forall its,
     notAhead CARET (writtenAll its ++ [BACKSLASH]) ->
     readAs its [BACKSLASH] -> Forall ascending its ->
     classRefused (writtenAll its ++ [BACKSLASH]) UnterminatedEscape) /\
  (forall its rest mn mx rest',
     notAhead CARET (writtenAll its ++ RBRACKET :: rest) ->
     readAs its (RBRACKET :: rest) -> Forall ascending its -> its <> [] ->
     parseQuantifier rest = Ok (mn, mx, rest') ->
     (forall fuel pieces,
        compileLoop (S fuel) (LBRACKET :: writtenAll its ++ RBRACKET :: rest) pieces =
        compileLoop fuel rest'
          (pieces ++ [{| atom := CharClass (flat_map contributes its);
                         min := mn; max := mx |}])) /\
     (forall pre,
        forallb isOrdinary pre = true -> forallb isOrdinary rest' = true ->
        noGroups (writtenAll its ++ RBRACKET :: rest) ->
        compile (pre ++ LBRACKET :: writtenAll its ++ RBRACKET :: rest) =
        Ok (literals pre
            ++ [{| atom := CharClass (flat_map contributes its); min := mn; max := mx |}]
            ++ literals rest'))) /\
  (forall a b x, In x (contributes (Run a b)) <-> a <= x <= b) /\
  compile (str "[A-C]{2}") =
    Ok [{| atom := CharClass [chr "A"; chr "B"; chr "C"]; min := 2; max := 2 |}] /\
  (forall r, exists c1 c2 r',
     generateOne [{| atom := CharClass [chr "A"; chr "B"; chr "C"]; min := 2; max := 2 |}] [] r
       = ([c1; c2], r') /\
     In c1 [chr "A"; chr "B"; chr "C"] /\ In c2 [chr "A"; chr "B"; chr "C"]).
Proof.
  split; [intros rest; exact (class_refused (CARET :: rest) NegatedClass eq_refl)|].
  split; [intros rest; exact (class_refused (RBRACKET :: rest) EmptyClass eq_refl)|].
  split; [intros body; exact (class_items_exist (List.length body) body (le_n _))|].
  split.
  { intros its a b rest Hc Hr Ha Hrun Hlt.
    apply (class_refused _ (InvalidRangeOf a b)).
    apply parseCharClass_descending; assumption. }
  split.
  { intros its Hc Hr Ha. apply (class_refused _ UnterminatedClass).
    apply parseCharClass_runs_out; assumption. }
  split.
  { intros its Hc Hr Ha. apply (class_refused _ InvalidEscapeAtEnd).
    apply parseCharClass_open_escape; assumption. }
  split.
  { intros its rest mn mx rest' Hc Hr Ha Hne Hq.
    pose proof (parseCharClass_closed its rest Hr Ha Hne Hc) as Hp. split.
    - intros fuel pieces. apply (compileLoop_class fuel _ pieces _ rest mn mx rest' Hp Hq).
    - intros pre Ho Hpost Hg.
      apply (compile_class pre _ (flat_map contributes its) rest mn mx rest'); assumption. }
  split.
  { intros a b x. cbn [contributes]. rewrite upFrom_In. lia. }
  split; [vm_compute; reflexivity|].
  intros r. cbn [generateOne min max atom]. change (2 =? 2) with true. cbv iota.
  change (rounds (Int 2)) with 2%nat. cbn [emitMany].
  destruct (emit_class [chr "A"; chr "B"; chr "C"] [] r ltac:(discriminate) ltac:(cbn; lia))
    as (c1 & r1 & E1 & H1).
  rewrite E1.
  destruct (emit_class [chr "A"; chr "B"; chr "C"] ([] ++ [c1]) r1 ltac:(discriminate)
              ltac:(cbn; lia)) as (c2 & r2 & E2 & H2).
  rewrite E2. exists c1, c2, r2. split; [reflexivity|]. split; assumption.
Qed.

(** Side conditions on concrete texts. *)
Ltac concrete :=
  vm_compute;
  repeat match goal with
         | |- _ /\ _ => split
         | |- Forall _ _ => constructor
         | |- True => exact I
         end;
  try reflexivity; try lia; try discriminate.

Lemma character_class_witness :
  fails_with (compile (str "ab[^c]")) UnsupportedSyntax /\
  fails_with (compile (str "[]a]")) EmptyCharClass /\
  fails_with (compile (str "x[0-9z-a]")) InvalidRange /\
  fails_with (compile (str "[a-c")) UnterminatedCharClass /\
  fails_with (compile (LBRACKET :: chr "A" :: HYPHEN :: BACKSLASH :: [])) UnterminatedCharClass /\
  fails_with (compile (LBRACKET :: chr "a" :: BACKSLASH :: BACKSLASH :: []))
             UnterminatedCharClass /\
  fails_with (compile (LBRACKET :: chr "a" :: chr "b" :: BACKSLASH :: [])) UnterminatedEscape /\
  fails_with (compileLoop 4 (str "[a-c") [{| atom := Digit; min := 0; max := 16 |}])
             UnterminatedCharClass /\
  compile (LBRACKET :: chr "x" :: BACKSLASH :: RBRACKET :: str "b-d-]+!") =
    Ok (literals [] ++ [{| atom := CharClass (str "x]bcd-"); min := 1; max := 16 |}]
        ++ literals (str "!")).
Proof.
  destruct character_class as (H1 & H2 & _ & H4 & H5 & H6 & H7 & _).
  split; [|split; [|split; [|split; [|split; [|split; [|split; [|split]]]]]]].
  - apply (proj2 (H1 (str "c]")) (str "ab")); concrete.
  - apply (proj2 (H2 (str "a]")) []); concrete.
  - refine (proj2 (H4 [Run (chr "0") (chr "9")] (chr "z") (chr "a") (str "]") _ _ _ _ _)
              (str "x") _ _); concrete.
  - refine (proj2 (H5 [Run (chr "a") (chr "c")] _ _ _) [] _ _); concrete.
  - refine (proj2 (H5 [Run (chr "A") BACKSLASH] _ _ _) [] _ _); concrete.
  - refine (proj2 (H5 [Single (chr "a"); Escaped BACKSLASH] _ _ _) [] _ _); concrete.
  - refine (proj2 (H6 [Single (chr "a"); Single (chr "b")] _ _ _) [] _ _); concrete.
  - refine (proj1 (H5 [Run (chr "a") (chr "c")] _ _ _) 3%nat _); concrete.
  - refine (proj2 (H7 [Single (chr "x"); Escaped RBRACKET; Run (chr "b") (chr "d");
                       Single HYPHEN] (str "+!") 1 16 (str "!") _ _ _ _ _) [] _ _ _);
      concrete.
Defined.

(** C7 as stated fails for a class that ends in a backslash: no []] is ever
    reached, and the failure is the unterminated escape. *)
Lemma character_class_trailing_backslash :
  ~ In RBRACKET (LBRACKET :: chr "a" :: BACKSLASH :: []) /\
  compile (LBRACKET :: chr "a" :: BACKSLASH :: []) = Err InvalidEscapeAtEnd /\
  kind InvalidEscapeAtEnd = UnterminatedEscape /\
  ~ fails_with (compile (LBRACKET :: chr "a" :: BACKSLASH :: [])) UnterminatedCharClass.
Proof.
  split; [vm_compute; lia|]. split; [vm_compute; reflexivity|]. split; [reflexivity|].
  intros (e & He & Hk). vm_compute in He. inversion He. subst e. discriminate Hk.
Qed.

(** ** generateMany *)

(** The loop bound is NaN or an integer between 0 and 50000. *)
Lemma clampCount_cases (count : number) :
  (count = S754_nan /\ clampCount count = NaN) \/
  (count = S754_infinity false /\ clampCount count = Int 50000) \/
  (count = S754_infinity true /\ clampCount count = Int 0) \/
  (Number_isFinite count = true /\
   clampCount count = Int (Z.max 0 (Z.min 50000 (floorZ count)))).
Proof.
  destruct count as [s|[|]| |s m e]; auto 6.
Qed.

Lemma rounds_clampCount (count : number) :
  0 <= Z.of_nat (rounds (clampCount count)) <= 50000 /\
  (Number_isFinite count = true ->
   Z.of_nat (rounds (clampCount count)) = Z.max 0 (Z.min 50000 (floorZ count))).
Proof.
  destruct (clampCount_cases count) as [[-> ->]|[[-> ->]|[[-> ->]|[Hf ->]]]];
    cbn [rounds]; (split; [|try discriminate]); lia.
Qed.

Lemma generateFromRegexLikePattern_ok (pattern : jsstring) (pieces : list Piece) (r : rng) :
  compile pattern = Ok pieces ->
  generateFromRegexLikePattern pattern r = Ok (generateOne pieces [] r).
Proof. intros H. unfold generateFromRegexLikePattern. rewrite H. reflexivity. Qed.

Lemma generateFromRegexLikePattern_error (pattern : jsstring) (e : error) (r : rng) :
  compile pattern = Err e -> generateFromRegexLikePattern pattern r = Err e.
Proof. intros H. unfold generateFromRegexLikePattern. rewrite H. reflexivity. Qed.

Lemma generateManyLoop_ok (pattern : jsstring) (pieces : list Piece) :
  compile pattern = Ok pieces ->
  forall n out r,
    generateManyLoop n pattern out r =
    Ok (out ++ fst (generations n pieces r), snd (generations n pieces r)).
Proof.
  intros Hc. induction n as [|n IH]; intros out r.
  - simpl. rewrite app_nil_r. reflexivity.
  - cbn [generateManyLoop generations].
    rewrite (generateFromRegexLikePattern_ok pattern pieces r Hc). cbn [bind].
    destruct (generateOne pieces [] r) as [s r1]. rewrite IH.
    destruct (generations n pieces r1) as [ss r2]. cbn [fst snd].
    rewrite <- app_assoc. reflexivity.
Qed.

Lemma generations_length (n : nat) (pieces : list Piece) :
  forall r, List.length (fst (generations n pieces r)) = n.
Proof.
  induction n as [|n IH]; intros r; [reflexivity|]. cbn [generations].
  destruct (generateOne pieces [] r) as [s r1]. specialize (IH r1).
  destruct (generations n pieces r1) as [ss r2]. simpl in *. congruence.
Qed.

(** C4 (as amended).  [generateMany] floors [count] and clamps it to
    [0, 50000].  For a pattern that compiles it returns that many strings,
    generated one after the other, in that order: none for -5 and 50000 for
    999999.  For a pattern that does not compile it fails with the error of
    [compile], and no string is returned, whenever the clamped count is at
    least 1; with a clamped count of 0 the pattern is not looked at and the
    result is the empty list. *)
Theorem generateMany_count (pattern : jsstring) (count : number) (r : rng) :
  0 <= Z.of_nat (rounds (clampCount count)) <= 50000 /\
  (Number_isFinite count = true ->
   Z.of_nat (rounds (clampCount count)) = Z.max 0 (Z.min 50000 (floorZ count))) /\
  (forall pieces,
     compile pattern = Ok pieces ->
     generateMany pattern count r = Ok (generations (rounds (clampCount count)) pieces r) /\
     List.length (fst (generations (rounds (clampCount count)) pieces r))
       = rounds (clampCount count)) /\
  (forall e,
     compile pattern = Err e ->
     (rounds (clampCount count) <> O -> generateMany pattern count r = Err e) /\
     (rounds (clampCount count) = O -> generateMany pattern count r = Ok ([], r))) /\
  rounds (clampCount (ofZ (-5))) = O /\
  Z.of_nat (rounds (clampCount (ofZ 999999))) = 50000.
Proof.
  destruct (rounds_clampCount count) as [H1 H2].
  split; [exact H1|]. split; [exact H2|]. split; [|split; [|split]].
  - intros pieces Hc. split; [|apply generations_length].
    unfold generateMany. rewrite (generateManyLoop_ok pattern pieces Hc). cbn [app].
    destruct (generations (rounds (clampCount count)) pieces r). reflexivity.
  - intros e He. unfold generateMany. split.
    + destruct (rounds (clampCount count)) as [|n]; [congruence|]. intros _.
      cbn [generateManyLoop]. rewrite (generateFromRegexLikePattern_error pattern e r He).
      reflexivity.
    + intros ->. reflexivity.
  - vm_compute. reflexivity.
  - vm_compute. reflexivity.
Qed.

Lemma generateMany_count_witness :
  (exists out r',
     generateMany (str "[A-C]{2}") (S754_finite false 5629499534213120 (-51)) zeroDraws
       = Ok (out, r') /\ List.length out = 2%nat) /\
  generateMany (str "a{3,2}") (ofZ 7) zeroDraws = Err QuantifierBounds.
Proof.
  destruct (generateMany_count (str "[A-C]{2}") (S754_finite false 5629499534213120 (-51))
              zeroDraws) as (_ & _ & H3 & _).
  destruct (generateMany_count (str "a{3,2}") (ofZ 7) zeroDraws) as (_ & _ & _ & H4 & _).
  split.
  - destruct (H3 _ eq_refl) as [E L].
    destruct (generations (rounds (clampCount (S754_finite false 5629499534213120 (-51))))
                _ zeroDraws) as [out r'].
    exists out, r'. split; [exact E | exact L].
  - apply (H4 QuantifierBounds); [reflexivity | discriminate].
Defined.

(** C4 as stated fails for a count that clamps to 0: the pattern is never
    compiled, and an invalid pattern gives the empty list, not an error. *)
Lemma generateMany_zero_invalid_pattern :
  compile (str "(") = Err GroupsUnsupported /\
  generateMany (str "(") (ofZ 0) zeroDraws = Ok ([], zeroDraws) /\
  generateMany (str "(") (ofZ (-5)) zeroDraws = Ok ([], zeroDraws).
Proof. repeat split. Qed.

(** ** Checks of the model on concrete values *)

(** [Number] on exact values, on ties and beyond the largest double. *)
Example Number_examples :
  Number 100000 = Int 100000 /\
  Number (2 ^ 53 + 1) = Int (2 ^ 53) /\
  Number (2 ^ 53 + 3) = Int (2 ^ 53 + 4) /\
  Number (- (2 ^ 53 + 3)) = Int (- (2 ^ 53 + 4)) /\
  Number (2 ^ 1024 - 2 ^ 970 - 1) = Int (2 ^ 1024 - 2 ^ 971) /\
  Number (2 ^ 1024 - 2 ^ 970) = Infinity false.
Proof. repeat split. Qed.

Example hashKeyToShardIndex_examples :
  hashKeyToShardIndex 0 (ofZ 8) = Ok (Int 0) /\
  hashKeyToShardIndex (2 ^ 128 - 1) (ofZ 8) = Ok (Int 7) /\
  hashKeyToShardIndex 5 (ofZ 0) = Err InvalidShardCount /\
  hashKeyToShardIndex 5 (ofZ (-3)) = Err InvalidShardCount /\
  hashKeyToShardIndex 5 S754_nan = Err InvalidShardCount /\
  hashKeyToShardIndex 5 (S754_infinity false) = Err InvalidShardCount.
Proof. repeat split. Qed.

Example md5ToBigInt_examples :
  md5ToBigInt (str "xyz") = Err InvalidMD5Hex /\
  md5ToBigInt (str " 000000000000000000000000000000FF") = Ok 255 /\
  md5ToBigInt (str "0000000000000000000000000000000g") = Err InvalidMD5Hex /\
  md5ToBigInt (str "000000000000000000000000000000000") = Err InvalidMD5Hex.
Proof. repeat split. Qed.

Example compile_examples :
  compile (str "a?") = Ok [{| atom := Literal (chr "a"); min := 0; max := 1 |}] /\
  compile (str "^\d+$") = Ok [{| atom := Digit; min := 1; max := 16 |}] /\
  compile (str "x{99984,}") = Ok [{| atom := Literal (chr "x"); min := 99984; max := 100000 |}] /\
  fails_with (compile (str "(a|b)")) UnsupportedSyntax /\
  fails_with (compile (str "a{3,2}")) InvalidQuantifier /\
  fails_with (compile (str "a{100001}")) InvalidQuantifier /\
  fails_with (compile (str "[z-a]")) InvalidRange /\
  fails_with (compile (str "[abc")) UnterminatedCharClass /\
  fails_with (compile (str "a??")) DanglingQuantifier /\
  fails_with (compile (BACKSLASH :: [])) UnterminatedEscape.
Proof.
  repeat split; try raises.
Qed.

(** The pattern is compiled with as much fuel as it has characters, which is
    enough: more fuel gives the same pieces. *)
Lemma compile_enough_fuel (pattern : jsstring) (fuel : nat) :
  noGroups pattern -> (List.length pattern <= fuel)%nat ->
  compile pattern = compileLoop fuel pattern [].
Proof.
  intros Hg Hf. rewrite (compile_noGroups pattern Hg).
  apply compileLoop_fuel; [apply le_n | exact Hf].
Qed.

(** * Further properties of the code *)

(** ** The split of the key space by [hashKeyToShardIndex] *)

Lemma hashKeyToShardIndex_integer_count (h p : Z) :
  0 <= h <= 2 ^ 128 - 1 -> 1 <= p <= 2 ^ 53 ->
  hashKeyToShardIndex h (ofZ p) = Ok (Int (h * p / 2 ^ 128)).
Proof.
  intros Hh Hp. destruct (ofZ_positive p Hp) as [Hf Hl].
  rewrite (hashKeyToShardIndex_ok h (ofZ p) Hf Hl).
  unfold BigInt_of_floor. rewrite (floorZ_ofZ p Hp).
  rewrite quotient_floor by lia.
  pose proof (quotient_range h p Hh (proj1 Hp)).
  rewrite Number_exact by lia. reflexivity.
Qed.

(** [startingHashKey p i] is the least hash key whose product with [p]
    reaches [i * 2^128]. *)
Lemma startingHashKey_le (p i h : Z) :
  1 <= p -> (startingHashKey p i <= h <-> i * 2 ^ 128 <= h * p).
Proof.
  intros Hp. unfold startingHashKey.
  pose proof (Z.div_mod (i * 2 ^ 128 + p - 1) p ltac:(lia)) as E.
  pose proof (Z.mod_pos_bound (i * 2 ^ 128 + p - 1) p ltac:(lia)) as B.
  split; intros H; nia.
Qed.

Lemma quotient_eq (a i : Z) :
  a / 2 ^ 128 = i <-> i * 2 ^ 128 <= a < (i + 1) * 2 ^ 128.
Proof.
  pose proof (Z.div_mod a (2 ^ 128) ltac:(lia)) as E.
  pose proof (Z.mod_pos_bound a (2 ^ 128) ltac:(lia)) as B.
  split; intros H; nia.
Qed.

(** X1.  The hash keys of shard [i] are one run of consecutive keys, from
    [startingHashKey p i] up to the key before [startingHashKey p (i + 1)];
    the runs start at 0 and end at the last hash key. *)
Theorem hashKeyToShardIndex_shard_range (h p i : Z) :
  0 <= h <= 2 ^ 128 - 1 -> 1 <= p <= 2 ^ 53 ->
  (hashKeyToShardIndex h (ofZ p) = Ok (Int i) <->
   startingHashKey p i <= h < startingHashKey p (i + 1)) /\
  startingHashKey p 0 = 0 /\ startingHashKey p p = 2 ^ 128.
Proof.
  intros Hh Hp. rewrite (hashKeyToShardIndex_integer_count h p Hh Hp).
  split; [|split].
  - pose proof (startingHashKey_le p i h (proj1 Hp)) as H1.
    pose proof (startingHashKey_le p (i + 1) h (proj1 Hp)) as H2.
    pose proof (quotient_eq (h * p) i) as Q.
    split.
    + intros E. assert (E' : h * p / 2 ^ 128 = i) by congruence.
      apply Q in E'. lia.
    + intros H. do 2 f_equal. apply Q. lia.
  - unfold startingHashKey. apply Z.div_small. lia.
  - unfold startingHashKey.
    replace (p * 2 ^ 128 + p - 1) with ((p - 1) + 2 ^ 128 * p) by lia.
    rewrite Z.div_add by lia. rewrite Z.div_small by lia. lia.
Qed.

Lemma hashKeyToShardIndex_shard_range_witness :
  (hashKeyToShardIndex (2 ^ 127) (ofZ 3) = Ok (Int 1) <->
   startingHashKey 3 1 <= 2 ^ 127 < startingHashKey 3 (1 + 1)) /\
  startingHashKey 3 0 = 0 /\ startingHashKey 3 3 = 2 ^ 128.
Proof.
  apply (hashKeyToShardIndex_shard_range (2 ^ 127) 3 1); lia.
Defined.

(** X2.  The split is even: a shard holds [2^128 / p] hash keys, rounded down or
    up, so that no shard is empty; its first hash key is mapped to it. *)
Theorem hashKeyToShardIndex_even_split (p i : Z) :
  1 <= p <= 2 ^ 53 -> 0 <= i < p ->
  2 ^ 128 / p <= startingHashKey p (i + 1) - startingHashKey p i <= 2 ^ 128 / p + 1 /\
  0 <= startingHashKey p i <= 2 ^ 128 - 1 /\
  hashKeyToShardIndex (startingHashKey p i) (ofZ p) = Ok (Int i).
Proof.
  intros Hp Hi.
  assert (Hsize : 2 ^ 128 / p <= startingHashKey p (i + 1) - startingHashKey p i
                  <= 2 ^ 128 / p + 1).
  { unfold startingHashKey.
    pose proof (Z.div_mod (i * 2 ^ 128 + p - 1) p ltac:(lia)) as E1.
    pose proof (Z.mod_pos_bound (i * 2 ^ 128 + p - 1) p ltac:(lia)) as B1.
    pose proof (Z.div_mod ((i + 1) * 2 ^ 128 + p - 1) p ltac:(lia)) as E2.
    pose proof (Z.mod_pos_bound ((i + 1) * 2 ^ 128 + p - 1) p ltac:(lia)) as B2.
    pose proof (Z.div_mod (2 ^ 128) p ltac:(lia)) as E3.
    pose proof (Z.mod_pos_bound (2 ^ 128) p ltac:(lia)) as B3.
    set (c1 := (i * 2 ^ 128 + p - 1) / p) in *.
    set (c2 := ((i + 1) * 2 ^ 128 + p - 1) / p) in *.
    set (q := 2 ^ 128 / p) in *.
    assert (Hk : p * (c2 - c1 - q) =
                 2 ^ 128 mod p + (i * 2 ^ 128 + p - 1) mod p
                 - ((i + 1) * 2 ^ 128 + p - 1) mod p) by lia.
    split; nia. }
  assert (Hq : 2 ^ 72 <= 2 ^ 128 / p).
  { apply Z.div_le_lower_bound; [lia|].
    assert (2 ^ 53 * 2 ^ 72 <= 2 ^ 128) by (vm_compute; discriminate). nia. }
  assert (H0 : 0 <= startingHashKey p i).
  { unfold startingHashKey. apply Z.div_pos; nia. }
  assert (Hle : startingHashKey p (i + 1) <= 2 ^ 128).
  { apply (startingHashKey_le p (i + 1) (2 ^ 128)); nia. }
  assert (Hr : 0 <= startingHashKey p i <= 2 ^ 128 - 1) by lia.
  split; [exact Hsize|]. split; [exact Hr|].
  rewrite (hashKeyToShardIndex_integer_count _ p Hr Hp).
  do 2 f_equal. apply quotient_eq.
  pose proof (startingHashKey_le p i (startingHashKey p i) (proj1 Hp)) as [A _].
  pose proof (startingHashKey_le p (i + 1) (startingHashKey p i) (proj1 Hp)) as [_ B].
  split; [apply A; lia|]. apply Z.nle_gt. intros C. apply B in C. lia.
Qed.

Lemma hashKeyToShardIndex_even_split_witness :
  2 ^ 128 / 3 <= startingHashKey 3 (2 + 1) - startingHashKey 3 2 <= 2 ^ 128 / 3 + 1 /\
  0 <= startingHashKey 3 2 <= 2 ^ 128 - 1 /\
  hashKeyToShardIndex (startingHashKey 3 2) (ofZ 3) = Ok (Int 2).
Proof.
  apply (hashKeyToShardIndex_even_split 3 2); lia.
Defined.

(** X3.  With [2^k] shards the shard index is the first [k] bits of the 128 bits
    of the hash key. *)
Theorem hashKeyToShardIndex_power_of_two (h k : Z) :
  0 <= h <= 2 ^ 128 - 1 -> 0 <= k <= 53 ->
  hashKeyToShardIndex h (ofZ (2 ^ k)) = Ok (Int (Z.shiftr h (128 - k))).
Proof.
  intros Hh Hk.
  assert (Hp : 1 <= 2 ^ k <= 2 ^ 53).
  { split; [|apply Z.pow_le_mono_r; lia].
    assert (0 < 2 ^ k) by (apply Z.pow_pos_nonneg; lia). lia. }
  rewrite (hashKeyToShardIndex_integer_count h (2 ^ k) Hh Hp).
  do 2 f_equal. rewrite Z.shiftr_div_pow2 by lia.
  replace (2 ^ 128) with (2 ^ k * 2 ^ (128 - k))
    by (rewrite <- Z.pow_add_r by lia; f_equal; lia).
  rewrite (Z.mul_comm h), Z.div_mul_cancel_l; try reflexivity.
  - apply Z.pow_nonzero; lia.
  - apply Z.pow_nonzero; lia.
Qed.

Lemma hashKeyToShardIndex_power_of_two_witness :
  hashKeyToShardIndex (2 ^ 128 - 1) (ofZ (2 ^ 3)) = Ok (Int (Z.shiftr (2 ^ 128 - 1) (128 - 3))).
Proof.
  apply (hashKeyToShardIndex_power_of_two (2 ^ 128 - 1) 3); lia.
Defined.

(** ** More shards *)

(** X4.  When every shard is split into [m], so that there are [m * p] shards
    for [p], a hash key stays inside the shard it was in: its new index,
    divided by [m], is its old index.  With more shards of any number the
    index of a hash key does not go down. *)
Theorem hashKeyToShardIndex_refine (h p : Z) :
  0 <= h <= 2 ^ 128 - 1 -> 1 <= p <= 2 ^ 53 ->
  exists i,
    hashKeyToShardIndex h (ofZ p) = Ok (Int i) /\
    (forall m, 1 <= m -> m * p <= 2 ^ 53 ->
               exists i', hashKeyToShardIndex h (ofZ (m * p)) = Ok (Int i') /\
                          i' / m = i /\ m * i <= i' < m * i + m) /\
    (forall p', p <= p' <= 2 ^ 53 ->
                exists i', hashKeyToShardIndex h (ofZ p') = Ok (Int i') /\ i <= i').
Proof.
  intros Hh Hp. exists (h * p / 2 ^ 128).
  split; [apply hashKeyToShardIndex_integer_count; assumption|]. split.
  - intros m Hm Hmp. exists (h * (m * p) / 2 ^ 128).
    split; [apply hashKeyToShardIndex_integer_count; [assumption | nia]|].
    assert (E : h * (m * p) / 2 ^ 128 / m = h * p / 2 ^ 128).
    { rewrite Z.div_div by lia.
      replace (h * (m * p)) with (h * p * m) by ring.
      apply Z.div_mul_cancel_r; lia. }
    split; [exact E|].
    pose proof (Z.div_mod (h * (m * p) / 2 ^ 128) m ltac:(lia)) as Ed.
    pose proof (Z.mod_pos_bound (h * (m * p) / 2 ^ 128) m ltac:(lia)) as Eb.
    rewrite E in Ed. lia.
  - intros p' Hp'. exists (h * p' / 2 ^ 128).
    split; [apply hashKeyToShardIndex_integer_count; [assumption | lia]|].
    apply Z.div_le_mono; [lia | nia].
Qed.

Lemma hashKeyToShardIndex_refine_witness :
  exists i,
    hashKeyToShardIndex (2 ^ 127 + 5) (ofZ 3) = Ok (Int i) /\
    (forall m, 1 <= m -> m * 3 <= 2 ^ 53 ->
               exists i', hashKeyToShardIndex (2 ^ 127 + 5) (ofZ (m * 3)) = Ok (Int i') /\
                          i' / m = i /\ m * i <= i' < m * i + m) /\
    (forall p', 3 <= p' <= 2 ^ 53 ->
                exists i', hashKeyToShardIndex (2 ^ 127 + 5) (ofZ p') = Ok (Int i') /\ i <= i').
Proof.
  apply (hashKeyToShardIndex_refine (2 ^ 127 + 5) 3); lia.
Defined.

(** ** Shard counts of any size *)

(** A number with at most 53 bits before its zeros is not rounded. *)
Lemma round53_representable (m e : Z) :
  0 < m < 2 ^ 53 -> 0 <= e -> round53 (m * 2 ^ e) = m * 2 ^ e.
Proof.
  intros Hm He. unfold round53.
  assert (Hlog : Z.log2 (m * 2 ^ e) = Z.log2 m + e).
  { rewrite Z.log2_mul_pow2 by lia. lia. }
  assert (Hl : Z.log2 m < 53) by (apply Z.log2_lt_pow2; lia).
  rewrite Hlog. unfold prec.
  destruct (Z.leb_spec (Z.log2 m + e + 1 - 53) 0) as [|Hsh]; [reflexivity|].
  set (sh := Z.log2 m + e + 1 - 53) in *.
  assert (E : m * 2 ^ e = m * 2 ^ (e - sh) * 2 ^ sh).
  { rewrite <- Z.mul_assoc, <- Z.pow_add_r by lia. do 2 f_equal. lia. }
  cbv zeta.
  assert (Hmod : (m * 2 ^ e) mod 2 ^ sh = 0).
  { rewrite E. apply Z.mod_mul. apply Z.pow_nonzero; lia. }
  assert (Hdiv : m * 2 ^ e / 2 ^ sh = m * 2 ^ (e - sh)).
  { rewrite E at 1. apply Z.div_mul. apply Z.pow_nonzero; lia. }
  rewrite Hmod, Hdiv.
  assert (0 < 2 ^ (sh - 1)) by (apply Z.pow_pos_nonneg; lia).
  destruct (Z.ltb_spec 0 (2 ^ (sh - 1))); [|lia]. symmetry. exact E.
Qed.

(** The floor of a double is a double: [Number] gives it back. *)
Lemma Number_floorZ (m : positive) (e : Z) :
  valid_binary prec emax (S754_finite false m e) = true ->
  Number (floorZ (S754_finite false m e)) = Int (floorZ (S754_finite false m e)).
Proof.
  intros Hv. destruct (valid_mantissa _ _ _ Hv) as [Hm He].
  pose proof (floorZ_nonneg m e) as H0.
  unfold floorZ, cond_Zopp in *.
  destruct (Z.leb_spec 0 e) as [Hpos|Hneg].
  - rewrite Number_nearestDouble. unfold nearestDouble.
    rewrite Z.abs_eq by lia.
    rewrite round53_representable by lia.
    assert (Hlt : Zpos m * 2 ^ e < 2 ^ emax).
    { unfold emax. replace 1024 with (53 + 971) by lia.
      rewrite Z.pow_add_r by lia.
      assert (2 ^ e <= 2 ^ 971) by (apply Z.pow_le_mono_r; lia).
      assert (0 < 2 ^ e) by (apply Z.pow_pos_nonneg; lia). nia. }
    destruct (Z.leb_spec (2 ^ emax) (Zpos m * 2 ^ e)); [lia|].
    f_equal. assert (0 < 2 ^ e) by (apply Z.pow_pos_nonneg; lia).
    rewrite Z.sgn_pos by nia. lia.
  - apply Number_exact. split; [lia|].
    assert (Zpos m / 2 ^ (- e) <= Zpos m); [|lia].
    apply Z.div_le_upper_bound; [apply Z.pow_pos_nonneg; lia|].
    assert (1 <= 2 ^ (- e)) by (assert (0 < 2 ^ (- e)) by (apply Z.pow_pos_nonneg; lia); lia).
    nia.
Qed.

(** X5.  Whatever its size and whether it is an integer or not, a valid shard
    count gives every hash key an index that is an integer (never NaN, never
    infinite) between 0 and the floor of the shard count. *)
Theorem hashKeyToShardIndex_never_beyond (h : Z) (sc : number) :
  valid_binary prec emax sc = true ->
  Number_isFinite sc = true -> number_leb sc (ofZ 0) = false ->
  0 <= h <= 2 ^ 128 - 1 ->
  exists z, hashKeyToShardIndex h sc = Ok (Int z) /\ 0 <= z <= floorZ sc.
Proof.
  intros Hv Hf Hl Hh.
  change (ofZ 0) with (S754_zero false) in Hl.
  rewrite (hashKeyToShardIndex_ok h sc Hf Hl).
  destruct (positive_finite sc Hf Hl) as (m & e & ->).
  unfold BigInt_of_floor.
  pose proof (floorZ_nonneg m e) as Hn.
  pose proof (Number_floorZ m e Hv) as Hrep.
  set (n := floorZ (S754_finite false m e)) in *.
  rewrite quotient_floor by lia.
  assert (Hq : 0 <= h * n / 2 ^ 128 <= n).
  { split.
    - apply Z.div_pos; [|lia]. apply Z.mul_nonneg_nonneg; lia.
    - apply Z.div_le_upper_bound; [lia|]. nia. }
  pose proof (Number_mono _ _ Hq) as Hmono. rewrite Hrep in Hmono.
  destruct (Number_nonneg (h * n / 2 ^ 128) (proj1 Hq)) as [E|(r & E & Hr)];
    rewrite E in *.
  - destruct Hmono.
  - exists r. split; [reflexivity|]. simpl in Hmono.
    pose proof (round53_nonneg _ (proj1 Hq)). lia.
Qed.

Lemma hashKeyToShardIndex_never_beyond_witness :
  exists z, hashKeyToShardIndex (2 ^ 128 - 1) (ofZ 9007199254740996) = Ok (Int z) /\
            0 <= z <= floorZ (ofZ 9007199254740996).
Proof.
  apply (hashKeyToShardIndex_never_beyond (2 ^ 128 - 1) (ofZ 9007199254740996));
    [reflexivity | reflexivity | reflexivity | lia].
Defined.

(** ** Digests and hash keys, one to one *)

Lemma digitValue_inj (c c' : char) :
  isHexChar c -> isHexChar c' -> digitValue c = digitValue c' -> c = c'.
Proof.
  unfold isHexChar, digitValue. intros H H'.
  destruct (Z.leb_spec 48 c), (Z.leb_spec c 57), (Z.leb_spec 48 c'), (Z.leb_spec c' 57);
    cbn [andb]; lia.
Qed.

Lemma hexValue_inj (s : jsstring) :
  forall s', List.length s = List.length s' ->
             Forall isHexChar s -> Forall isHexChar s' ->
             hexValue s = hexValue s' -> s = s'.
Proof.
  induction s as [|c s IH]; intros [|c' s'] Hlen Hs Hs' E; try discriminate.
  - reflexivity.
  - inversion Hs as [|? ? Hc Ht]; subst. inversion Hs' as [|? ? Hc' Ht']; subst.
    injection Hlen as Hlen. cbn [hexValue] in E. rewrite <- Hlen in E.
    pose proof (hexValue_range s Ht) as R. pose proof (hexValue_range s' Ht') as R'.
    rewrite <- Hlen in R'.
    pose proof (digitValue_range c Hc). pose proof (digitValue_range c' Hc').
    assert (0 < 16 ^ Z.of_nat (List.length s)) by (apply Z.pow_pos_nonneg; lia).
    assert (Ed : digitValue c = digitValue c') by nia.
    f_equal.
    + apply digitValue_inj; assumption.
    + apply IH; try assumption. nia.
Qed.

Lemma md5ToBigInt_inv (md5hex : jsstring) (v : Z) :
  md5ToBigInt md5hex = Ok v ->
  isDigest (toLowerCase (trim md5hex)) /\ v = hexValue (toLowerCase (trim md5hex)).
Proof.
  unfold md5ToBigInt. destruct (isMd5Hex (toLowerCase (trim md5hex))) eqn:E; [|discriminate].
  simpl. intros H. injection H as <-. apply isMd5Hex_spec in E.
  split; [exact E|]. apply BigInt_of_hex_value. exact (proj2 E).
Qed.

(** The hexadecimal digit of a value between 0 and 15. *)
Lemma hex_digit_exists (d : Z) :
  0 <= d <= 15 -> exists c, isHexChar c /\ digitValue c = d.
Proof.
  intros H. destruct (Z.ltb_spec d 10).
  - exists (48 + d). unfold isHexChar, digitValue.
    destruct (Z.leb_spec 48 (48 + d)), (Z.leb_spec (48 + d) 57); cbn [andb]; lia.
  - exists (87 + d). unfold isHexChar, digitValue.
    destruct (Z.leb_spec 48 (87 + d)), (Z.leb_spec (87 + d) 57); cbn [andb]; lia.
Qed.

Lemma hex_digits_exist (n : nat) :
  forall v, 0 <= v < 16 ^ Z.of_nat n ->
            exists s, List.length s = n /\ Forall isHexChar s /\ hexValue s = v.
Proof.
  induction n as [|n IH]; intros v Hv.
  - exists []. simpl in *. repeat split; [constructor | lia].
  - rewrite Nat2Z.inj_succ, Z.pow_succ_r in Hv by lia.
    assert (Hp : 0 < 16 ^ Z.of_nat n) by (apply Z.pow_pos_nonneg; lia).
    pose proof (Z.div_mod v (16 ^ Z.of_nat n) ltac:(lia)) as E.
    pose proof (Z.mod_pos_bound v (16 ^ Z.of_nat n) Hp) as B.
    destruct (IH (v mod 16 ^ Z.of_nat n) B) as (s & Hlen & Hs & Hval).
    assert (Hd : 0 <= v / 16 ^ Z.of_nat n <= 15).
    { split; [apply Z.div_pos; lia|].
      assert (v / 16 ^ Z.of_nat n < 16); [|lia].
      apply Z.div_lt_upper_bound; lia. }
    destruct (hex_digit_exists _ Hd) as (c & Hc & Hcv).
    exists (c :: s). split; [simpl; congruence|]. split; [constructor; assumption|].
    cbn [hexValue]. rewrite Hlen, Hcv, Hval. lia.
Qed.

Lemma lowerChar_hex (c : char) : isHexChar c -> lowerChar c = c.
Proof.
  unfold isHexChar, lowerChar. intros H.
  destruct (Z.leb_spec 65 c), (Z.leb_spec c 90); cbn [andb]; lia.
Qed.

Lemma toLowerCase_hex (s : jsstring) : Forall isHexChar s -> toLowerCase s = s.
Proof.
  induction 1 as [|c s Hc _ IH]; [reflexivity|].
  unfold toLowerCase in *. simpl. rewrite IH, (lowerChar_hex c Hc). reflexivity.
Qed.

(** X6.  [md5ToBigInt] is one to one between the digests, as 32 lower-case
    hexadecimal digits, and the hash keys from 0 to 2^128 - 1: two inputs
    with the same hash key are the same digest once trimmed and lower-cased,
    and every hash key is the value of a digest. *)
Theorem md5ToBigInt_one_to_one :
  (forall a b v,
     md5ToBigInt a = Ok v -> md5ToBigInt b = Ok v ->
     toLowerCase (trim a) = toLowerCase (trim b)) /\
  (forall v,
     0 <= v <= 2 ^ 128 - 1 ->
     exists d, isDigest d /\ md5ToBigInt d = Ok v).
Proof.
  split.
  - intros a b v Ha Hb.
    apply md5ToBigInt_inv in Ha. apply md5ToBigInt_inv in Hb.
    destruct Ha as [[La Fa] Ea], Hb as [[Lb Fb] Eb].
    apply hexValue_inj; congruence.
  - intros v Hv.
    destruct (hex_digits_exist 32 v) as (d & Hlen & Hd & Hval).
    { change (16 ^ Z.of_nat 32) with (2 ^ 128). lia. }
    exists d. split; [split; assumption|].
    assert (Hnw : Forall (fun c => isWhiteSpace c = false) d).
    { apply digest_not_white. rewrite (toLowerCase_hex d Hd). split; assumption. }
    pose proof (trim_surrounded [] d [] ltac:(constructor) ltac:(constructor) Hnw) as Ht.
    rewrite app_nil_r in Ht. simpl in Ht.
    unfold md5ToBigInt. rewrite Ht, (toLowerCase_hex d Hd).
    rewrite (proj2 (isMd5Hex_spec d) (conj Hlen Hd)). simpl.
    rewrite (BigInt_of_hex_value d Hd). congruence.
Qed.

Lemma md5ToBigInt_one_to_one_witness :
  toLowerCase (trim (str " 000000000000000000000000000000FF")) =
  toLowerCase (trim (str "000000000000000000000000000000ff  ")) /\
  exists d, isDigest d /\ md5ToBigInt d = Ok 255.
Proof.
  destruct md5ToBigInt_one_to_one as [H1 H2]. split.
  - apply (H1 _ _ 255); reflexivity.
  - apply H2. lia.
Defined.

(** ** analyzePartitionKeys *)

Section Analysis.

Variable md5Hex : jsstring -> jsstring.

Lemma analyzePartitionKeys_cons (k : jsstring) (keys : list jsstring) (sc : number) :
  analyzePartitionKeys md5Hex (k :: keys) sc =
  match md5ToBigInt (md5Hex k) with
  | Err e => Err e
  | Ok h =>
      match hashKeyToShardIndex h sc with
      | Err e => Err e
      | Ok i =>
          match analyzePartitionKeys md5Hex keys sc with
          | Err e => Err e
          | Ok rs => Ok ({| partitionKey := k; md5hex := md5Hex k; hashKey := h;
                            shardIndex := i |} :: rs)
          end
      end
  end.
Proof.
  cbn [analyzePartitionKeys]. unfold bind.
  destruct (md5ToBigInt (md5Hex k)); [|reflexivity].
  destruct (hashKeyToShardIndex a sc); reflexivity.
Qed.

Lemma partitionKeyToShardIndex_eq (k : jsstring) (sc : number) :
  partitionKeyToShardIndex md5Hex k sc =
  match md5ToBigInt (md5Hex k) with
  | Err e => Err e
  | Ok h => hashKeyToShardIndex h sc
  end.
Proof. reflexivity. Qed.

(** X7.  One result per key, in the order of the keys: the key itself, its
    digest, and the hash key and the shard index that
    [partitionKeyToHashKey] and [partitionKeyToShardIndex] give for it. *)
Theorem analyzePartitionKeys_results (keys : list jsstring) (sc : number)
        (rs : list ShardResult) :
  analyzePartitionKeys md5Hex keys sc = Ok rs ->
  Forall2 (fun k r =>
             partitionKey r = k /\ md5hex r = md5Hex k /\
             partitionKeyToHashKey md5Hex k = Ok (hashKey r) /\
             partitionKeyToShardIndex md5Hex k sc = Ok (shardIndex r))
          keys rs.
Proof.
  revert rs. induction keys as [|k keys IH]; intros rs H.
  - injection H as <-. constructor.
  - rewrite analyzePartitionKeys_cons in H.
    destruct (md5ToBigInt (md5Hex k)) as [h|] eqn:Eh; [|discriminate].
    destruct (hashKeyToShardIndex h sc) as [i|] eqn:Ei; [|discriminate].
    destruct (analyzePartitionKeys md5Hex keys sc) as [rs'|]; [|discriminate].
    injection H as <-. constructor.
    + cbn. unfold partitionKeyToHashKey. rewrite partitionKeyToShardIndex_eq, Eh. auto.
    + apply IH. reflexivity.
Qed.

(** X8.  The call fails exactly when [partitionKeyToShardIndex] fails for one of
    the keys, and then with the error of the first such key; so it returns
    exactly when every key has a shard index. *)
Theorem analyzePartitionKeys_first_failure (keys : list jsstring) (sc : number) :
  (forall e,
     analyzePartitionKeys md5Hex keys sc = Err e <->
     exists before k after,
       keys = before ++ k :: after /\
       Forall (fun k' => succeeds (partitionKeyToShardIndex md5Hex k' sc)) before /\
       partitionKeyToShardIndex md5Hex k sc = Err e) /\
  (succeeds (analyzePartitionKeys md5Hex keys sc) <->
   Forall (fun k => succeeds (partitionKeyToShardIndex md5Hex k sc)) keys).
Proof.
  induction keys as [|k keys [IHe IHs]].
  - split.
    + intros e. split; [discriminate|].
      intros (before & k & after & E & _). destruct before; discriminate.
    + split; [constructor|]. intros _. exists []. reflexivity.
  - rewrite analyzePartitionKeys_cons.
    pose proof (partitionKeyToShardIndex_eq k sc) as Ek.
    destruct (md5ToBigInt (md5Hex k)) as [h|e0].
    1: destruct (hashKeyToShardIndex h sc) as [i|e0].
    + (* the first key has an index *)
      split.
      * intros e. split.
        -- intros H. destruct (analyzePartitionKeys md5Hex keys sc) as [rs|e'] eqn:Er;
             [discriminate|]. injection H as ->.
           destruct (proj1 (IHe e) eq_refl) as (before & k' & after & E & Hb & Hk).
           exists (k :: before), k', after. split; [rewrite E; reflexivity|].
           split; [|exact Hk]. constructor; [|exact Hb]. exists i. exact Ek.
        -- intros (before & k' & after & E & Hb & Hk).
           destruct before as [|b before].
           ++ injection E as <- _. rewrite Ek in Hk. discriminate.
           ++ injection E as <- E. inversion Hb; subst.
              assert (Hr : analyzePartitionKeys md5Hex (before ++ k' :: after) sc = Err e).
              { apply IHe. exists before, k', after. auto. }
              rewrite Hr. reflexivity.
      * split.
        -- intros [rs H]. constructor; [exists i; exact Ek|]. apply IHs.
           destruct (analyzePartitionKeys md5Hex keys sc) as [rs'|]; [|discriminate].
           exists rs'. reflexivity.
        -- intros H. inversion H as [|? ? _ Hk]; subst. apply IHs in Hk.
           destruct Hk as [rs' ->]. eexists. reflexivity.
    + (* its shard index fails *)
      split.
      * intros e. split.
        -- intros H. injection H as ->. exists [], k, keys. repeat split; [constructor | exact Ek].
        -- intros (before & k' & after & E & Hb & Hk).
           destruct before as [|b before].
           ++ injection E as <- _. rewrite Ek in Hk. congruence.
           ++ injection E as <- E. inversion Hb as [|? ? [i Hi] _]; subst.
              rewrite Ek in Hi. discriminate.
      * split.
        -- intros [rs H]. discriminate.
        -- intros H. inversion H as [|? ? [i Hi] _]; subst. rewrite Ek in Hi. discriminate.
    + (* its digest fails *)
      split.
      * intros e. split.
        -- intros H. injection H as ->. exists [], k, keys. repeat split; [constructor | exact Ek].
        -- intros (before & k' & after & E & Hb & Hk).
           destruct before as [|b before].
           ++ injection E as <- _. rewrite Ek in Hk. congruence.
           ++ injection E as <- E. inversion Hb as [|? ? [i Hi] _]; subst.
              rewrite Ek in Hi. discriminate.
      * split.
        -- intros [rs H]. discriminate.
        -- intros H. inversion H as [|? ? [i Hi] _]; subst. rewrite Ek in Hi. discriminate.
Qed.

(** X9.  A shard count that is not valid is reported only if there is a key, and
    only if the digest of the first key is well formed: an empty list of
    keys gives an empty list of results, and a first key whose digest is
    not well formed gives 'Invalid MD5 hex'. *)
Theorem analyzePartitionKeys_invalid_shardCount (sc : number) :
  Number_isFinite sc = false \/ number_leb sc (ofZ 0) = true ->
  analyzePartitionKeys md5Hex [] sc = Ok [] /\
  (forall k keys,
     analyzePartitionKeys md5Hex (k :: keys) sc =
     Err (if isMd5Hex (toLowerCase (trim (md5Hex k))) then InvalidShardCount
          else InvalidMD5Hex)).
Proof.
  intros H. split; [reflexivity|]. intros k keys.
  rewrite analyzePartitionKeys_cons. unfold md5ToBigInt.
  destruct (isMd5Hex (toLowerCase (trim (md5Hex k)))); [|reflexivity].
  cbn [negb]. cbv iota.
  assert (E : forall h, hashKeyToShardIndex h sc = Err InvalidShardCount).
  { intros h. unfold hashKeyToShardIndex.
    change (ofZ 0) with (S754_zero false) in H.
    destruct H as [-> | ->]; [reflexivity|]. rewrite orb_true_r. reflexivity. }
  rewrite E. reflexivity.
Qed.

End Analysis.

Lemma analyzePartitionKeys_results_witness :
  Forall2 (fun k r =>
             partitionKey r = k /\ md5hex r = k /\
             partitionKeyToHashKey (fun k => k) k = Ok (hashKey r) /\
             partitionKeyToShardIndex (fun k => k) k (ofZ 4) = Ok (shardIndex r))
          [str "00000000000000000000000000000000"; str "c0000000000000000000000000000000"]
          [{| partitionKey := str "00000000000000000000000000000000";
              md5hex := str "00000000000000000000000000000000";
              hashKey := 0; shardIndex := Int 0 |};
           {| partitionKey := str "c0000000000000000000000000000000";
              md5hex := str "c0000000000000000000000000000000";
              hashKey := 3 * 2 ^ 126; shardIndex := Int 3 |}].
Proof.
  apply (analyzePartitionKeys_results (fun k => k)
           [str "00000000000000000000000000000000"; str "c0000000000000000000000000000000"]
           (ofZ 4)).
  reflexivity.
Defined.

Lemma analyzePartitionKeys_first_failure_witness :
  analyzePartitionKeys (fun k => k)
    [str "00000000000000000000000000000000"; str "xyz"; str "?"] (ofZ 4) = Err InvalidMD5Hex.
Proof.
  apply (proj1 (analyzePartitionKeys_first_failure (fun k => k)
           [str "00000000000000000000000000000000"; str "xyz"; str "?"] (ofZ 4))).
  exists [str "00000000000000000000000000000000"], (str "xyz"), [str "?"].
  split; [reflexivity|]. split; [|reflexivity].
  constructor; [|constructor]. exists (Int 0). reflexivity.
Defined.

Lemma analyzePartitionKeys_invalid_shardCount_witness :
  analyzePartitionKeys (fun k => k) [] (ofZ 0) = Ok [] /\
  (forall k keys,
     analyzePartitionKeys (fun k => k) (k :: keys) (ofZ 0) =
     Err (if isMd5Hex (toLowerCase (trim k)) then InvalidShardCount else InvalidMD5Hex)).
Proof.
  apply (analyzePartitionKeys_invalid_shardCount (fun k => k) (ofZ 0)).
  right. reflexivity.
Defined.

(** ** From the keys to the summary *)

Lemma sumZ_le_max (cs : list Z) (m : Z) :
  (forall j, (j < List.length cs)%nat -> nth j cs 0 <= m) ->
  sumZ cs <= m * Z.of_nat (List.length cs).
Proof.
  induction cs as [|c cs IH]; intros H; [simpl; lia|].
  cbn [sumZ fold_right List.length]. fold (sumZ cs).
  pose proof (H O ltac:(simpl; lia)) as H0. simpl in H0.
  assert (IH' : sumZ cs <= m * Z.of_nat (List.length cs)).
  { apply IH. intros j Hj. apply (H (S j)). simpl. lia. }
  lia.
Qed.

Lemma nth_le_sumZ (cs : list Z) :
  (forall j, (j < List.length cs)%nat -> 0 <= nth j cs 0) ->
  forall k, (k < List.length cs)%nat -> nth k cs 0 <= sumZ cs.
Proof.
  induction cs as [|c cs IH]; intros H k Hk; [simpl in Hk; lia|].
  cbn [sumZ fold_right]. fold (sumZ cs).
  pose proof (H O ltac:(simpl; lia)) as H0. simpl in H0.
  assert (Hpos : forall j, (j < List.length cs)%nat -> 0 <= nth j cs 0).
  { intros j Hj. apply (H (S j)). simpl. lia. }
  assert (0 <= sumZ cs).
  { clear -Hpos. induction cs as [|c cs IH]; [simpl; lia|].
    cbn [sumZ fold_right]. fold (sumZ cs).
    pose proof (Hpos O ltac:(simpl; lia)) as H0. simpl in H0.
    assert (0 <= sumZ cs); [|lia]. apply IH. intros j Hj. apply (Hpos (S j)). simpl. lia. }
  destruct k as [|k]; simpl.
  - lia.
  - simpl in Hk. pose proof (IH Hpos k ltac:(lia)). lia.
Qed.

Section Pipeline.

Variable md5Hex : jsstring -> jsstring.

(** With an integer shard count up to 2^53 every result holds an integer
    index inside the range of the shards. *)
Lemma analyzePartitionKeys_indexes (p : Z) (keys : list jsstring) :
  1 <= p <= 2 ^ 53 ->
  forall rs,
    analyzePartitionKeys md5Hex keys (ofZ p) = Ok rs ->
    exists idxs,
      List.map shardIndex rs = List.map Int idxs /\
      List.length idxs = List.length keys /\
      Forall (fun idx => 0 <= idx < p) idxs.
Proof.
  intros Hp. induction keys as [|k keys IH]; intros rs H.
  - injection H as <-. exists []. repeat split. constructor.
  - cbn [analyzePartitionKeys] in H. unfold bind in H.
    destruct (md5ToBigInt (md5Hex k)) as [h|] eqn:Eh; [|discriminate].
    apply md5ToBigInt_inv in Eh. destruct Eh as [[Hlen Hall] Hv].
    pose proof (hexValue_range _ Hall) as Hr. rewrite Hlen, <- Hv in Hr.
    change (16 ^ Z.of_nat 32) with (2 ^ 128) in Hr.
    assert (Ei : hashKeyToShardIndex h (ofZ p) = Ok (Int (h * p / 2 ^ 128))).
    { unfold hashKeyToShardIndex.
      pose proof (quotient_range h p Hr (proj1 Hp)).
      destruct (ofZ_positive p Hp) as [Hf Hl]. rewrite Hf, Hl. cbn [negb orb].
      unfold BigInt_of_floor. rewrite (floorZ_ofZ p Hp), quotient_floor by lia.
      rewrite Number_exact by lia. reflexivity. }
    rewrite Ei in H.
    destruct (analyzePartitionKeys md5Hex keys (ofZ p)) as [rs'|]; [|discriminate].
    injection H as <-.
    destruct (IH rs' eq_refl) as (idxs & Em & El & Hf).
    pose proof (quotient_range h p Hr (proj1 Hp)) as Hq.
    exists (h * p / 2 ^ 128 :: idxs).
    cbn [List.map shardIndex List.length]. rewrite Em, El.
    split; [reflexivity|]. split; [reflexivity|].
    constructor; [lia | exact Hf].
Qed.

(** X10.  What the page shows for its keys: with a shard count [p] from 1 to
    2^32 - 1, the indexes of the results are integers inside [0, p) and
    [summarizeDistribution] returns for them; every key is counted in one
    bucket, so that the counts add up to the number of keys, and the largest
    count is at most the number of keys and at least their number divided by
    [p]. *)
Theorem analysis_summary (p : Z) (keys : list jsstring) (rs : list ShardResult) :
  1 <= p < 2 ^ 32 ->
  analyzePartitionKeys md5Hex keys (ofZ p) = Ok rs ->
  exists idxs s cs m,
    List.map shardIndex rs = List.map Int idxs /\
    Forall (fun idx => 0 <= idx < p) idxs /\
    summarizeDistribution (ofZ p) idxs = Ok s /\
    counts s = List.map Int cs /\
    totalKeys s = Z.of_nat (List.length keys) /\
    sumZ cs = Z.of_nat (List.length keys) /\
    maxCount s = Int m /\
    m <= Z.of_nat (List.length keys) <= m * p.
Proof.
  intros Hp H.
  destruct (analyzePartitionKeys_indexes p keys ltac:(lia) rs H) as (idxs & Em & El & Hf).
  destruct (summarizeDistribution_integer p idxs)
    as (s & cs & E & Hc & Hlen & Hb & Hsum & Ht & _ & Hs); [lia|].
  rewrite (filter_all p idxs Hf), El in Hsum. rewrite El in Ht.
  assert (Hne : cs <> []).
  { intros H0. rewrite H0 in Hlen. simpl in Hlen. lia. }
  destruct (scanMax_first_maximum cs Hne) as (m & k & Hscan & Hk & Hnth & Hle & _).
  rewrite Hscan in Hs. inversion Hs as [[Hmc Hms]].
  exists idxs, s, cs, m. repeat split; try assumption.
  - rewrite <- Hsum, <- Hnth. apply nth_le_sumZ; [|exact Hk].
    intros j Hj. pose proof (Hb (Z.of_nat j) ltac:(lia)) as Hj'.
    unfold bucket, occurrences in Hj'. rewrite Nat2Z.id in Hj'. lia.
  - rewrite <- Hsum. pose proof (sumZ_le_max cs m Hle) as Hmax.
    rewrite Hlen in Hmax. rewrite Z2Nat.id in Hmax by lia. exact Hmax.
Qed.

(** X11.  Between 2^32 and 2^53 shards the two functions part: every key with a
    well-formed digest still gets its index, but no summary is made,
    whatever the indexes are; the array of counts cannot be created. *)
Theorem analysis_without_summary (p : Z) (keys : list jsstring) :
  2 ^ 32 <= p <= 2 ^ 53 ->
  Forall (fun k => isDigest (toLowerCase (trim (md5Hex k)))) keys ->
  (exists rs idxs,
     analyzePartitionKeys md5Hex keys (ofZ p) = Ok rs /\
     List.map shardIndex rs = List.map Int idxs /\
     Forall (fun idx => 0 <= idx < p) idxs) /\
  (forall idxs, summarizeDistribution (ofZ p) idxs = Err InvalidArrayLength).
Proof.
  intros Hp Hd. split.
  - assert (Hs : exists rs, analyzePartitionKeys md5Hex keys (ofZ p) = Ok rs).
    { induction Hd as [|k keys Hk _ IH]; [exists []; reflexivity|].
      destruct IH as [rs' Hrs]. cbn [analyzePartitionKeys]. unfold bind, md5ToBigInt.
      rewrite (proj2 (isMd5Hex_spec _) Hk). cbn [negb]. cbv iota.
      unfold hashKeyToShardIndex.
      destruct (ofZ_positive p ltac:(lia)) as [Hf Hl]. rewrite Hf, Hl. cbn [negb orb].
      rewrite Hrs. eexists. reflexivity. }
    destruct Hs as [rs Hrs].
    destruct (analyzePartitionKeys_indexes p keys ltac:(lia) rs Hrs) as (idxs & Em & _ & Hf).
    exists rs, idxs. auto.
  - intros idxs. unfold summarizeDistribution, Array_from_zeros.
    assert (Hl : 2 ^ 32 <= ToLength (ofZ p)).
    { destruct (Z.eq_dec p (2 ^ 53)) as [->|Hn]; [vm_compute; discriminate|].
      rewrite ToLength_ofZ by lia. lia. }
    destruct (Z.leb_spec (2 ^ 32) (ToLength (ofZ p))); [reflexivity | lia].
Qed.

End Pipeline.

Lemma analysis_summary_witness :
  exists idxs s cs m,
    List.map shardIndex
      [{| partitionKey := str "c0000000000000000000000000000000";
          md5hex := str "c0000000000000000000000000000000";
          hashKey := 3 * 2 ^ 126; shardIndex := Int 3 |}] = List.map Int idxs /\
    Forall (fun idx => 0 <= idx < 4) idxs /\
    summarizeDistribution (ofZ 4) idxs = Ok s /\
    counts s = List.map Int cs /\
    totalKeys s = Z.of_nat (List.length [str "c0000000000000000000000000000000"]) /\
    sumZ cs = Z.of_nat (List.length [str "c0000000000000000000000000000000"]) /\
    maxCount s = Int m /\
    m <= Z.of_nat (List.length [str "c0000000000000000000000000000000"]) <= m * 4.
Proof.
  apply (analysis_summary (fun k => k) 4 [str "c0000000000000000000000000000000"]);
    [lia | reflexivity].
Defined.

Lemma analysis_without_summary_witness :
  (exists rs idxs,
     analyzePartitionKeys (fun k => k) [str "c0000000000000000000000000000000"]
       (ofZ (2 ^ 32)) = Ok rs /\
     List.map shardIndex rs = List.map Int idxs /\
     Forall (fun idx => 0 <= idx < 2 ^ 32) idxs) /\
  (forall idxs, summarizeDistribution (ofZ (2 ^ 32)) idxs = Err InvalidArrayLength).
Proof.
  apply (analysis_without_summary (fun k => k) (2 ^ 32) [str "c0000000000000000000000000000000"]).
  - lia.
  - constructor; [|constructor]. apply isMd5Hex_spec. reflexivity.
Defined.

(** ** The summary and the order of the indexes *)

Lemma increment_empty (i : nat) : increment [] i = repeat NaN (S i).
Proof. induction i as [|i IH]; [reflexivity|]. cbn [increment]. rewrite IH. reflexivity. Qed.

Lemma increment_NaNs (n j : nat) :
  increment (repeat NaN n) j = repeat NaN (Nat.max n (S j)).
Proof.
  revert j. induction n as [|n IH]; intros j.
  - apply increment_empty.
  - destruct j as [|j].
    + rewrite Nat.max_l by lia. reflexivity.
    + cbn [repeat increment]. rewrite IH. reflexivity.
Qed.

(** Two increments give the same array in either order. *)
Lemma increment_comm (cs : list jsint) :
  forall i j, increment (increment cs i) j = increment (increment cs j) i.
Proof.
  induction cs as [|c cs IH]; intros i j.
  - rewrite !increment_empty, !increment_NaNs. f_equal. lia.
  - destruct i as [|i], j as [|j]; cbn [increment]; try reflexivity.
    rewrite IH. reflexivity.
Qed.

Lemma bump_comm (cs : list jsint) (i j : Z) :
  bump (bump cs i) j = bump (bump cs j) i.
Proof.
  unfold bump. destruct (i <? 2 ^ 32 - 1), (j <? 2 ^ 32 - 1); try reflexivity.
  apply increment_comm.
Qed.

Lemma tally_Permutation (sc : number) (idxs idxs' : list Z) :
  Permutation idxs idxs' -> forall cs, tally sc idxs cs = tally sc idxs' cs.
Proof.
  unfold tally. induction 1 as [|x l l' _ IH|x y l|l l' l'' _ IH1 _ IH2]; intros cs.
  - reflexivity.
  - cbn [fold_left]. apply IH.
  - cbn [fold_left]. f_equal.
    destruct ((0 <=? y) && int_ltb y sc), ((0 <=? x) && int_ltb x sc); try reflexivity.
    apply bump_comm.
  - rewrite IH1. apply IH2.
Qed.

(** X12.  The summary does not depend on the order of the indexes: any
    rearrangement of them gives the same counts, the same largest count at
    the same shard, and the same average and deviation. *)
Theorem summarizeDistribution_order (sc : number) (idxs idxs' : list Z) :
  Permutation idxs idxs' ->
  summarizeDistribution sc idxs = summarizeDistribution sc idxs'.
Proof.
  intros H. unfold summarizeDistribution.
  destruct (Array_from_zeros sc) as [zeros|e]; [|reflexivity].
  cbn [bind]. rewrite (tally_Permutation sc idxs idxs' H zeros).
  rewrite (Permutation_length H). reflexivity.
Qed.

Lemma summarizeDistribution_order_witness :
  summarizeDistribution (ofZ 3) [0; 2; 2; 1] = summarizeDistribution (ofZ 3) [2; 1; 2; 0].
Proof.
  apply (summarizeDistribution_order (ofZ 3) [0; 2; 2; 1] [2; 1; 2; 0]).
  apply perm_trans with (l' := [2; 0; 2; 1]); [apply perm_swap|].
  apply perm_skip. apply perm_trans with (l' := [0; 1; 2]).
  - apply perm_skip. apply perm_swap.
  - apply perm_trans with (l' := [1; 0; 2]); [apply perm_swap|].
    apply perm_skip. apply perm_swap.
Defined.

(** ** The summary of no keys *)

Lemma scanMax_zeros (n : nat) :
  forall i s0, scanMax (repeat (Int 0) n) i (Int 0) s0 = (Int 0, s0).
Proof.
  induction n as [|n IH]; intros i s0; [reflexivity|].
  cbn [repeat scanMax jsint_ltb]. rewrite Z.ltb_irrefl. apply IH.
Qed.

Lemma scanMax_zeros_first (n : nat) :
  (0 < n)%nat -> scanMax (repeat (Int 0) n) 0 (Infinity true) 0 = (Int 0, 0).
Proof.
  destruct n as [|n]; [lia|]. intros _. cbn [repeat scanMax jsint_ltb]. apply scanMax_zeros.
Qed.

Lemma sumSquares_zeros (n : nat) :
  sumSquares (repeat (Int 0) n) (S754_zero false) = S754_zero false.
Proof.
  unfold sumSquares. change (ofZ 0) with (S754_zero false).
  induction n as [|n IH]; [reflexivity|]. cbn [repeat fold_left]. exact IH.
Qed.

(** X13.  With shards but no index every count is 0: the largest count is 0, at
    shard 0, and the average and the deviation are 0. *)
Theorem summarizeDistribution_no_keys (p : Z) :
  1 <= p < 2 ^ 32 ->
  summarizeDistribution (ofZ p) [] =
  Ok {| shardCount := ofZ p; totalKeys := 0;
        counts := repeat (Int 0) (Z.to_nat p);
        maxCount := Int 0; maxShard := 0;
        avg := S754_zero false; stddev := S754_zero false |}.
Proof.
  intros Hp. unfold summarizeDistribution.
  rewrite Array_from_zeros_ok by (rewrite ToLength_ofZ; lia).
  rewrite ToLength_ofZ by lia. rewrite Z.max_r by lia.
  cbn [bind tally fold_left List.length Z.of_nat].
  rewrite scanMax_zeros_first by lia.
  destruct (ofZ_exact p ltac:(lia) ltac:(lia)) as (m' & e & E & _ & _).
  destruct (Z.ltb_spec p 0); [lia|]. rewrite E.
  change (ofZ 0) with (S754_zero false).
  cbn [SFdiv xorb]. rewrite sumSquares_zeros. reflexivity.
Qed.

Lemma summarizeDistribution_no_keys_witness :
  summarizeDistribution (ofZ 8) [] =
  Ok {| shardCount := ofZ 8; totalKeys := 0;
        counts := repeat (Int 0) (Z.to_nat 8);
        maxCount := Int 0; maxShard := 0;
        avg := S754_zero false; stddev := S754_zero false |}.
Proof.
  apply (summarizeDistribution_no_keys 8). lia.
Defined.

(** ** A shard count that is not an integer *)

Lemma increment_inside (cs : list Z) (t : list jsint) :
  forall i, (i < List.length cs)%nat ->
            exists cs', increment (List.map Int cs ++ t) i = List.map Int cs' ++ t /\
                        List.length cs' = List.length cs.
Proof.
  induction cs as [|c cs IH]; intros i Hi; [simpl in Hi; lia|].
  destruct i as [|i].
  - exists (c + 1 :: cs). split; reflexivity.
  - destruct (IH i ltac:(simpl in Hi; lia)) as (cs' & E & L).
    exists (c :: cs'). cbn [List.map app increment List.length]. rewrite E, L.
    split; reflexivity.
Qed.

Lemma increment_at_end (cs : list Z) :
  increment (List.map Int cs) (List.length cs) = List.map Int cs ++ [NaN] /\
  increment (List.map Int cs ++ [NaN]) (List.length cs) = List.map Int cs ++ [NaN].
Proof.
  induction cs as [|c cs [IH1 IH2]]; [split; reflexivity|].
  cbn [List.map app increment List.length]. rewrite IH1, IH2. split; reflexivity.
Qed.

Lemma scanMax_not_NaN (cs : list jsint) :
  forall i m0 s0, m0 <> NaN -> fst (scanMax cs i m0 s0) <> NaN.
Proof.
  induction cs as [|c cs IH]; intros i m0 s0 H; [exact H|].
  cbn [scanMax]. destruct (jsint_ltb m0 c) eqn:E.
  - apply IH. intros ->. destruct m0 as [| [|] |]; discriminate.
  - apply IH. exact H.
Qed.

Lemma sumSquares_NaN (cs : list jsint) (avg : number) :
  In NaN cs -> sumSquares cs avg = S754_nan.
Proof.
  unfold sumSquares. generalize (ofZ 0) as v. induction cs as [|c cs IH]; intros v H.
  - destruct H.
  - cbn [fold_left]. destruct H as [->|H]; [|apply IH; exact H].
    cbn [toNumber SFsub SFmul].
    replace (SFadd prec emax v S754_nan) with S754_nan by (destruct v; reflexivity).
    clear. induction cs as [|c cs IH]; [reflexivity|]. cbn [fold_left SFadd]. exact IH.
Qed.

Section Fractional.

Variable m : positive.
Variable e : Z.
Hypothesis e_neg : e < 0.
Hypothesis fraction : Zpos m mod 2 ^ (- e) <> 0.

Let sc : number := S754_finite false m e.
Let N : Z := floorZ sc.

Lemma floorZ_fraction : N = Zpos m / 2 ^ (- e).
Proof.
  unfold N, sc, floorZ, cond_Zopp. destruct (Z.leb_spec 0 e); [lia | reflexivity].
Qed.

(** The guard [idx < shardCount] lets the floor of the shard count pass. *)
Lemma int_ltb_fraction (idx : Z) : int_ltb idx sc = (idx <=? N).
Proof.
  rewrite floorZ_fraction. unfold sc, int_ltb, cond_Zopp.
  destruct (Z.leb_spec 0 e); [lia|].
  assert (Hd : 0 < 2 ^ (- e)) by (apply Z.pow_pos_nonneg; lia).
  pose proof (Z.div_mod (Zpos m) (2 ^ (- e)) ltac:(lia)) as E.
  pose proof (Z.mod_pos_bound (Zpos m) (2 ^ (- e)) Hd) as B.
  destruct (Z.ltb_spec (idx * 2 ^ (- e)) (Zpos m)), (Z.leb_spec idx (Zpos m / 2 ^ (- e)));
    try reflexivity; nia.
Qed.

Lemma tally_fraction (idxs : list Z) :
  forall (cs : list Z) (t : list jsint),
    Z.of_nat (List.length cs) = N -> N < 2 ^ 32 -> t = [] \/ t = [NaN] ->
    exists cs' t',
      tally sc idxs (List.map Int cs ++ t) = List.map Int cs' ++ t' /\
      Z.of_nat (List.length cs') = N /\
      (t' = [] \/ t' = [NaN]) /\
      (t' = [NaN] <-> t = [NaN] \/ (In N idxs /\ N < 2 ^ 32 - 1)).
Proof.
  unfold tally. induction idxs as [|idx idxs IH]; intros cs t Hlen HN32 Ht.
  - exists cs, t. cbn [fold_left In]. repeat split; auto.
    intros [H|[[] _]]. exact H.
  - cbn [fold_left]. rewrite int_ltb_fraction.
    destruct (Z.leb_spec 0 idx) as [H0|H0]; cbn [andb].
    1: destruct (Z.leb_spec idx N) as [HN|HN].
    + destruct (Z.eq_dec idx N) as [->|Hne].
      * (* the floor itself *)
        destruct (Z.lt_ge_cases N (2 ^ 32 - 1)) as [Hin|Hout].
        -- assert (E : bump (List.map Int cs ++ t) N = List.map Int cs ++ [NaN]).
           { rewrite bump_index by exact Hin.
             rewrite <- Hlen, Nat2Z.id. destruct (increment_at_end cs) as [E1 E2].
             destruct Ht as [->| ->]; [rewrite app_nil_r; exact E1 | exact E2]. }
           rewrite E.
           destruct (IH cs [NaN] Hlen HN32 (or_intror eq_refl)) as (cs' & t' & Et & L & Hc & Hi).
           exists cs', t'. split; [exact Et|]. split; [exact L|]. split; [exact Hc|].
           split; [intros _; right; split; [left; reflexivity | exact Hin]|].
           intros _. apply Hi. left. reflexivity.
        -- rewrite bump_property by exact Hout.
           destruct (IH cs t Hlen HN32 Ht) as (cs' & t' & Et & L & Hc & Hi).
           exists cs', t'. split; [exact Et|]. split; [exact L|]. split; [exact Hc|].
           rewrite Hi. cbn [In]. intuition lia.
      * rewrite bump_index by lia.
        destruct (increment_inside cs t (Z.to_nat idx) ltac:(lia)) as (cs1 & E & L1).
        rewrite E. destruct (IH cs1 t ltac:(lia) HN32 Ht) as (cs' & t' & Et & L & Hc & Hi).
        exists cs', t'. split; [exact Et|]. split; [exact L|]. split; [exact Hc|].
        rewrite Hi. cbn [In]. intuition congruence.
    + destruct (IH cs t Hlen HN32 Ht) as (cs' & t' & Et & L & Hc & Hi).
      exists cs', t'. split; [exact Et|]. split; [exact L|]. split; [exact Hc|].
      rewrite Hi. cbn [In]. intuition lia.
    + destruct (IH cs t Hlen HN32 Ht) as (cs' & t' & Et & L & Hc & Hi).
      exists cs', t'. split; [exact Et|]. split; [exact L|]. split; [exact Hc|].
      rewrite Hi. cbn [In]. assert (0 <= N) by (apply floorZ_nonneg).
      intuition lia.
Qed.

End Fractional.

(** X14.  For a shard count that is not an integer the index that equals its floor
    passes the guard [idx < shardCount], one place beyond the array.  When
    that floor is an array index, that is below 2^32 - 1, the array grows by
    one element, which is NaN and stays NaN, and the deviation is NaN.
    Without that index the counts are the integers they would be for the
    floor of the shard count, and so they are when the floor is 2^32 - 1,
    which is no array index: the array then keeps its length.  The largest
    count is never that NaN. *)
Theorem summarizeDistribution_fraction (m : positive) (e : Z) (idxs : list Z) :
  e < 0 -> Zpos m mod 2 ^ (- e) <> 0 -> floorZ (S754_finite false m e) < 2 ^ 32 ->
  exists s cs,
    summarizeDistribution (S754_finite false m e) idxs = Ok s /\
    Z.of_nat (List.length cs) = floorZ (S754_finite false m e) /\
    (In (floorZ (S754_finite false m e)) idxs ->
     floorZ (S754_finite false m e) < 2 ^ 32 - 1 ->
     counts s = List.map Int cs ++ [NaN] /\ stddev s = S754_nan) /\
    (~ In (floorZ (S754_finite false m e)) idxs \/
     floorZ (S754_finite false m e) = 2 ^ 32 - 1 ->
     counts s = List.map Int cs) /\
    maxCount s <> NaN.
Proof.
  intros He Hf Hn.
  pose proof (floorZ_nonneg m e) as H0.
  set (sc := S754_finite false m e) in *.
  assert (HL : ToLength sc = floorZ sc).
  { unfold sc at 1. unfold ToLength. fold sc. lia. }
  unfold summarizeDistribution.
  rewrite Array_from_zeros_ok by lia. rewrite HL. cbn [bind].
  destruct (tally_fraction m e He Hf idxs (repeat 0 (Z.to_nat (floorZ sc))) [])
    as (cs & t & Et & L & Hc & Hi).
  { rewrite repeat_length. fold sc. lia. }
  { exact Hn. }
  { left. reflexivity. }
  fold sc in Et, L, Hi. rewrite app_nil_r, <- map_Int_repeat in Et. rewrite Et.
  destruct (scanMax (List.map Int cs ++ t) 0 (Infinity true) 0) as [mc ms] eqn:Es.
  eexists. exists cs. split; [reflexivity|]. cbn [counts stddev maxCount].
  split; [exact L|]. split; [|split].
  - intros Hin Hidx. assert (Ht : t = [NaN]) by (apply Hi; right; split; assumption). subst t.
    split; [reflexivity|].
    rewrite sumSquares_NaN by (apply in_or_app; right; left; reflexivity).
    reflexivity.
  - intros Hnin. destruct Hc as [->|Ht]; [apply app_nil_r|].
    apply Hi in Ht. destruct Ht as [Ht|[Ht1 Ht2]]; [discriminate|].
    destruct Hnin as [Hnin|Hnin]; [contradiction | lia].
  - pose proof (scanMax_not_NaN (List.map Int cs ++ t) 0 (Infinity true) 0 ltac:(discriminate))
      as Hm. rewrite Es in Hm. exact Hm.
Qed.

Lemma summarizeDistribution_fraction_witness :
  exists s cs,
    summarizeDistribution (S754_finite false 5629499534213120 (-51)) [0; 1; 2; 2] = Ok s /\
    Z.of_nat (List.length cs) = floorZ (S754_finite false 5629499534213120 (-51)) /\
    (In (floorZ (S754_finite false 5629499534213120 (-51))) [0; 1; 2; 2] ->
     floorZ (S754_finite false 5629499534213120 (-51)) < 2 ^ 32 - 1 ->
     counts s = List.map Int cs ++ [NaN] /\ stddev s = S754_nan) /\
    (~ In (floorZ (S754_finite false 5629499534213120 (-51))) [0; 1; 2; 2] \/
     floorZ (S754_finite false 5629499534213120 (-51)) = 2 ^ 32 - 1 ->
     counts s = List.map Int cs) /\
    maxCount s <> NaN.
Proof.
  apply (summarizeDistribution_fraction 5629499534213120 (-51) [0; 1; 2; 2]).
  - lia.
  - vm_compute. discriminate.
  - vm_compute. reflexivity.
Defined.

(** ** An even distribution *)

(** A significand that ends in [sh] zeros beyond its 53 bits is shifted,
    and nothing is rounded. *)
Lemma binary_round_aux_zeros (m : positive) (e sh : Z) (q : positive) :
  0 <= sh -> Zpos m = Zpos q * 2 ^ sh -> Zpos (digits2_pos q) = 53 ->
  -1074 <= e + sh <= 971 ->
  binary_round_aux prec emax false (Zpos m) e loc_Exact = S754_finite false q (e + sh).
Proof.
  intros Hsh Em Hq He.
  assert (Hcan : fexp prec emax (Zpos (digits2_pos q) + (e + sh)) = e + sh).
  { rewrite Hq. unfold fexp, emin, prec, emax. lia. }
  destruct (Z.eq_dec sh 0) as [->|Hn].
  - rewrite Z.pow_0_r, Z.mul_1_r in Em. injection Em as ->. rewrite Z.add_0_r in *.
    apply binary_round_aux_canonical; [exact Hcan | unfold emax, prec; lia].
  - pose proof (pow2_pos sh Hsh) as Hu.
    pose proof (pow2_pos (sh - 1) ltac:(lia)) as Hh.
    assert (Hd : Zpos (digits2_pos m) = 53 + sh).
    { rewrite digits2_pos_log2, Em, Z.log2_mul_pow2 by lia.
      rewrite digits2_pos_log2 in Hq. lia. }
    unfold binary_round_aux.
    rewrite (shr_fexp_shift m e sh) by (rewrite ?Hd; unfold fexp, emin, prec, emax; lia).
    cbn [shr_m]. rewrite nearest_even_bits by lia. cbv zeta.
    assert (Ediv : Zpos m / 2 ^ sh = Zpos q) by (rewrite Em; apply Z.div_mul; lia).
    assert (Emod : Zpos m mod 2 ^ sh = 0) by (rewrite Em; apply Z.mod_mul; lia).
    rewrite Ediv, Emod.
    destruct (Z.ltb_spec 0 (2 ^ (sh - 1))); [|lia].
    rewrite (shr_fexp_canonical q (e + sh) Hcan). cbn [shr_m].
    destruct (Z.leb_spec (e + sh) (emax - prec)); [reflexivity | unfold emax, prec in *; lia].
Qed.

(** The quotient of two integers is exact when it is an integer. *)
Lemma SFdiv_exact (c p : Z) :
  1 <= c -> 1 <= p -> c * p < 2 ^ 53 ->
  SFdiv prec emax (ofZ (c * p)) (ofZ p) = ofZ c.
Proof.
  intros Hc Hp Hcp.
  assert (Hcp1 : 1 <= c * p) by nia.
  assert (Hc53 : c < 2 ^ 53) by nia.
  assert (Hp53 : p < 2 ^ 53) by nia.
  destruct (ofZ_canonical (c * p) (conj Hcp1 Hcp)) as (m1 & e1 & E1 & He1 & Hm1 & Hd1).
  destruct (ofZ_canonical p (conj Hp Hp53)) as (m2 & e2 & E2 & He2 & Hm2 & Hd2).
  destruct (ofZ_canonical c (conj Hc Hc53)) as (m3 & e3 & E3 & He3 & Hm3 & Hd3).
  rewrite E1, E2, E3. cbn [SFdiv xorb]. unfold SFdiv_core_binary, Zdigits2.
  rewrite Hd1, Hd2.
  pose proof (digits_bounds m1) as B1. pose proof (digits_bounds m2) as B2.
  pose proof (digits_bounds m3) as B3.
  rewrite Hd1 in B1. rewrite Hd2 in B2. rewrite Hd3 in B3.
  replace (53 - 1) with 52 in * by lia.
  pose proof (pow2_pos (- e1) ltac:(lia)) as P1.
  pose proof (pow2_pos (- e2) ltac:(lia)) as P2.
  pose proof (pow2_pos (- e3) ltac:(lia)) as P3.
  assert (Ee : Z.min (fexp prec emax (53 + e1 - (53 + e2))) (e1 - e2) = e1 - e2 - 53).
  { unfold fexp, emin, prec, emax. lia. }
  rewrite Ee. replace (e1 - e2 - (e1 - e2 - 53)) with 53 by lia.
  cbv iota. rewrite Z.shiftl_mul_pow2 by lia.
  (* the quotient of the significands *)
  set (k := 53 + e2 - e1).
  assert (Hk : 1 <= k) by (unfold k; lia).
  pose proof (pow2_pos k ltac:(lia)) as Pk.
  assert (Ek : 2 ^ (- e1) * 2 ^ 53 = 2 ^ k * 2 ^ (- e2)).
  { rewrite <- !pow2_split by lia. f_equal. unfold k. lia. }
  assert (Eq : Zpos m1 * 2 ^ 53 = c * 2 ^ k * Zpos m2).
  { rewrite Hm1, Hm2.
    replace (c * p * 2 ^ (- e1) * 2 ^ 53) with (c * p * (2 ^ (- e1) * 2 ^ 53)) by ring.
    rewrite Ek. ring. }
  rewrite Eq.
  assert (Ediv : Z.div_eucl (c * 2 ^ k * Zpos m2) (Zpos m2) = (c * 2 ^ k, 0)).
  { rewrite (surjective_pairing (Z.div_eucl (c * 2 ^ k * Zpos m2) (Zpos m2))).
    change (fst (Z.div_eucl (c * 2 ^ k * Zpos m2) (Zpos m2)))
      with (c * 2 ^ k * Zpos m2 / Zpos m2).
    change (snd (Z.div_eucl (c * 2 ^ k * Zpos m2) (Zpos m2)))
      with ((c * 2 ^ k * Zpos m2) mod Zpos m2).
    rewrite Z.div_mul, Z.mod_mul by lia. reflexivity. }
  rewrite Ediv.
  assert (Eloc : new_location (Zpos m2) 0 = loc_Exact).
  { unfold new_location, new_location_even, new_location_odd.
    destruct (Z.even (Zpos m2)); reflexivity. }
  rewrite Eloc.
  (* the quotient has more than 52 bits *)
  set (X := c * 2 ^ k) in *.
  assert (HX : 2 ^ 52 < X).
  { destruct (Z.le_gt_cases X (2 ^ 52)) as [Hle|Hgt]; [exfalso | lia].
    assert (X * Zpos m2 <= 2 ^ 52 * Zpos m2) by (apply Z.mul_le_mono_nonneg_r; lia).
    lia. }
  (* so that [c], a double, is the quotient with its zeros taken off *)
  assert (Hs : 0 <= e3 + k).
  { destruct (Z.le_gt_cases 0 (e3 + k)) as [|Hgt]; [assumption | exfalso].
    assert (Ey : 2 ^ (- e3) = 2 ^ k * 2 ^ (- e3 - k)).
    { rewrite <- pow2_split by lia. f_equal. lia. }
    assert (HY : 2 ^ 1 <= 2 ^ (- e3 - k)) by (apply Z.pow_le_mono_r; lia).
    replace (2 ^ 1) with 2 in HY by reflexivity.
    assert (E3' : Zpos m3 = X * 2 ^ (- e3 - k)).
    { rewrite Hm3, Ey. unfold X. ring. }
    assert (X * 2 <= X * 2 ^ (- e3 - k)) by (apply Z.mul_le_mono_nonneg_l; lia).
    lia. }
  assert (Ev : X = Zpos m3 * 2 ^ (e3 + k)).
  { rewrite Hm3. unfold X.
    replace (c * 2 ^ (- e3) * 2 ^ (e3 + k)) with (c * (2 ^ (- e3) * 2 ^ (e3 + k))) by ring.
    rewrite <- pow2_split by lia. do 2 f_equal. lia. }
  destruct X as [|mq|mq]; try lia.
  rewrite (binary_round_aux_zeros mq (e1 - e2 - 53) (e3 + k) m3 Hs Ev Hd3)
    by (unfold k; lia).
  do 2 f_equal. unfold k. lia.
Qed.

Lemma SFsub_diag (x : number) :
  Number_isFinite x = true -> SFsub prec emax x x = S754_zero false.
Proof.
  destruct x as [s|s| |s m e]; try discriminate; intros _.
  - destruct s; reflexivity.
  - cbn [SFsub]. rewrite Z.sub_diag. reflexivity.
Qed.

Lemma constant_list (cs : list Z) (c : Z) :
  (forall j, (j < List.length cs)%nat -> nth j cs 0 = c) ->
  cs = repeat c (List.length cs).
Proof.
  induction cs as [|a cs IH]; intros H; [reflexivity|].
  cbn [List.length repeat]. f_equal.
  - apply (H O). simpl. lia.
  - apply IH. intros j Hj. apply (H (S j)). simpl. lia.
Qed.

Lemma sumZ_repeat (c : Z) (n : nat) : sumZ (repeat c n) = c * Z.of_nat n.
Proof.
  induction n as [|n IH]; [simpl; lia|].
  cbn [repeat sumZ fold_right]. fold (sumZ (repeat c n)). rewrite IH. lia.
Qed.

Lemma scanMax_constant (c : Z) (n : nat) :
  (0 < n)%nat -> scanMax (repeat (Int c) n) 0 (Infinity true) 0 = (Int c, 0).
Proof.
  destruct n as [|n]; [lia|]. intros _. cbn [repeat scanMax jsint_ltb].
  generalize (0 + 1). induction n as [|n IH]; intros i; [reflexivity|].
  cbn [repeat scanMax jsint_ltb]. rewrite Z.ltb_irrefl. apply IH.
Qed.

Lemma sumSquares_constant (c : Z) (n : nat) :
  Number_isFinite (ofZ c) = true ->
  sumSquares (repeat (Int c) n) (ofZ c) = S754_zero false.
Proof.
  intros Hf. unfold sumSquares.
  assert (E0 : ofZ 0 = S754_zero false) by reflexivity. rewrite E0.
  induction n as [|n IH]; [reflexivity|].
  cbn [repeat fold_left toNumber]. rewrite (SFsub_diag (ofZ c) Hf). exact IH.
Qed.

(** X15.  When every shard holds the same number [c] of the keys, the summary is
    exact: every count is [c], the largest count is [c] at shard 0, the
    average is [c] and the deviation is 0, not merely close to it. *)
Theorem summarizeDistribution_even (p c : Z) (idxs : list Z) :
  1 <= p < 2 ^ 32 -> 0 <= c -> c * p < 2 ^ 53 ->
  Forall (fun idx => 0 <= idx < p) idxs ->
  (forall j, 0 <= j < p -> occurrences j idxs = c) ->
  summarizeDistribution (ofZ p) idxs =
  Ok {| shardCount := ofZ p; totalKeys := c * p;
        counts := repeat (Int c) (Z.to_nat p);
        maxCount := Int c; maxShard := 0;
        avg := ofZ c; stddev := S754_zero false |}.
Proof.
  intros Hp Hc Hcp Hin Hocc.
  assert (Hd : - 2 ^ 53 < p < 2 ^ 53) by lia.
  unfold summarizeDistribution.
  rewrite Array_from_zeros_ok by (rewrite ToLength_ofZ; lia).
  rewrite ToLength_ofZ by lia. rewrite Z.max_r by lia. cbn [bind].
  destruct (tally_ints p Hd ltac:(lia) idxs (repeat 0 (Z.to_nat p)) (repeat_length _ _))
    as (cs & Ec & Hlen & Hn & Hsum).
  rewrite map_Int_repeat, Ec.
  assert (Ecs : cs = repeat c (Z.to_nat p)).
  { rewrite <- Hlen. apply constant_list. intros j Hj.
    pose proof (Hn (Z.of_nat j) ltac:(lia)) as Hj'.
    unfold bucket in Hj'. rewrite Nat2Z.id in Hj'.
    rewrite Hj', (Hocc (Z.of_nat j)) by lia.
    assert (E0 : nth j (repeat 0 (Z.to_nat p)) 0 = 0).
    { destruct (nth_in_or_default j (repeat 0 (Z.to_nat p)) 0) as [Hi|E]; [|exact E].
      apply repeat_spec in Hi. exact Hi. }
    lia. }
  assert (Etotal : Z.of_nat (List.length idxs) = c * p).
  { rewrite (filter_all p idxs Hin), sumZ_repeat_zero, Ecs, sumZ_repeat in Hsum. lia. }
  rewrite Ecs, Etotal.
  assert (Emap : List.map Int (repeat c (Z.to_nat p)) = repeat (Int c) (Z.to_nat p)).
  { apply map_repeat. }
  rewrite Emap, scanMax_constant by lia.
  destruct (ofZ_canonical p ltac:(lia)) as (mp & ep & Ep & _).
  assert (Eavg : SFdiv prec emax (ofZ (c * p)) (ofZ p) = ofZ c).
  { destruct (Z.eq_dec c 0) as [->|Hne].
    - rewrite Z.mul_0_l, Ep. reflexivity.
    - apply SFdiv_exact; lia. }
  rewrite Eavg.
  assert (Hfin : Number_isFinite (ofZ c) = true).
  { destruct (Z.eq_dec c 0) as [->|Hne]; [reflexivity|].
    destruct (ofZ_canonical c ltac:(nia)) as (mc & ec & E & _). rewrite E. reflexivity. }
  rewrite (sumSquares_constant c (Z.to_nat p) Hfin), Ep. reflexivity.
Qed.

Lemma summarizeDistribution_even_witness :
  summarizeDistribution (ofZ 3) [2; 0; 1; 1; 2; 0] =
  Ok {| shardCount := ofZ 3; totalKeys := 2 * 3;
        counts := repeat (Int 2) (Z.to_nat 3);
        maxCount := Int 2; maxShard := 0;
        avg := ofZ 2; stddev := S754_zero false |}.
Proof.
  apply (summarizeDistribution_even 3 2 [2; 0; 1; 1; 2; 0]); try lia.
  - repeat constructor; lia.
  - intros j Hj. assert (j = 0 \/ j = 1 \/ j = 2) as [-> | [-> | ->]] by lia; reflexivity.
Defined.

(** ** What a pattern generates *)

Lemma alphabet_fixed : digits <> [] /\ wordChars <> [] /\ spaces <> [].
Proof. repeat split; discriminate. Qed.

(** One round of the inner loop adds one character of the alphabet. *)
Lemma emit_alphabet (a : Atom) (out : jsstring) (r : rng) :
  alphabet a <> [] -> Z.of_nat (List.length (alphabet a)) < 2 ^ 53 ->
  exists c r', emit a out r = (out ++ [c], r') /\ In c (alphabet a).
Proof.
  intros Hne Hlen.
  assert (Hp : forall arr, arr <> [] -> Z.of_nat (List.length arr) < 2 ^ 53 ->
               exists c r', appendPick out arr r = (out ++ [c], r') /\ In c arr).
  { intros arr Ha Hl. unfold appendPick.
    destruct (pick_in arr r Ha Hl) as (c & Hc & Hin).
    destruct (pick arr r) as [o r']. cbn [fst] in Hc. subst o.
    exists c, r'. split; [reflexivity | exact Hin]. }
  destruct a as [v|chars| | |]; cbn [emit alphabet] in *.
  - exists v, r. split; [reflexivity | left; reflexivity].
  - apply Hp; assumption.
  - apply Hp; assumption.
  - apply Hp; assumption.
  - apply Hp; assumption.
Qed.

Lemma emitMany_alphabet (a : Atom) (n : nat) :
  alphabet a <> [] -> Z.of_nat (List.length (alphabet a)) < 2 ^ 53 ->
  forall out r,
    exists seg r', emitMany n a out r = (out ++ seg, r') /\
                   List.length seg = n /\ Forall (fun c => In c (alphabet a)) seg.
Proof.
  intros Hne Hlen. induction n as [|n IH]; intros out r.
  - exists [], r. rewrite app_nil_r. repeat split. constructor.
  - cbn [emitMany]. destruct (emit_alphabet a out r Hne Hlen) as (c & r1 & E & Hc). rewrite E.
    destruct (IH (out ++ [c]) r1) as (seg & r' & E' & L & F). rewrite E'.
    exists (c :: seg), r'. rewrite <- app_assoc. cbn [app List.length]. rewrite L.
    repeat split. constructor; assumption.
Qed.

(** The number of rounds for a piece lies between its bounds. *)
Lemma count_range (p : Piece) (r : rng) :
  boundsOk p ->
  exists count r1,
    (if min p =? max p then (Int (min p), r) else randInt (min p) (max p) r)
    = (Int count, r1) /\ min p <= count <= max p.
Proof.
  intros (H0 & Hle & Hmax). destruct (Z.eqb_spec (min p) (max p)).
  - exists (min p), r. split; [reflexivity | lia].
  - assert (Hn : max p - min p + 1 < 2 ^ 53).
    { assert (100001 < 2 ^ 53) by reflexivity. lia. }
    destruct (randInt_range (min p) (max p) r Hle Hn) as (count & Hr & Hc).
    destruct (randInt (min p) (max p) r) as [v r1]. cbn [fst] in Hr. subst v.
    exists count, r1. split; [reflexivity | exact Hc].
Qed.

Lemma generateOne_matches (pieces : list Piece) :
  Forall boundsOk pieces ->
  Forall (fun p => alphabet (atom p) <> []) pieces ->
  Forall (fun p => Z.of_nat (List.length (alphabet (atom p))) < 2 ^ 53) pieces ->
  forall out r,
    exists segs r', generateOne pieces out r = (out ++ List.concat segs, r') /\
                    Forall2 fits pieces segs.
Proof.
  induction pieces as [|p pieces IH]; intros Hb Ha Hs out r.
  - exists [], r. cbn. rewrite app_nil_r. split; [reflexivity | constructor].
  - inversion Hb as [|? ? Hbp Hbs]; subst. inversion Ha as [|? ? Hap Has]; subst.
    inversion Hs as [|? ? Hsp Hss]; subst.
    cbn [generateOne].
    destruct (count_range p r Hbp) as (count & r1 & Ec & Hcount). rewrite Ec.
    cbn [rounds].
    destruct (emitMany_alphabet (atom p) (Z.to_nat count) Hap Hsp out r1)
      as (seg & r2 & Ee & L & F).
    rewrite Ee.
    destruct (IH Hbs Has Hss (out ++ seg) r2) as (segs & r' & Eg & Hf). rewrite Eg.
    exists (seg :: segs), r'. cbn [List.concat]. rewrite app_assoc.
    split; [reflexivity|]. constructor; [|exact Hf].
    split; [|exact F]. rewrite L. destruct Hbp as (H0 & _). lia.
Qed.

Lemma parseAtom_alphabet (ch : char) (rest1 : jsstring) (a : Atom) (rest2 : jsstring) :
  parseAtom ch rest1 = Ok (a, rest2) -> alphabet a <> [].
Proof.
  unfold parseAtom. destruct (ch =? LBRACKET).
  - destruct (parseCharClass (ch :: rest1)) as [[cs next]|e] eqn:E; [|discriminate].
    cbn [bind]. intros H. injection H as <- _.
    apply parseCharClass_result in E. exact (proj2 E).
  - destruct (ch =? BACKSLASH).
    + destruct rest1 as [|esc rest]; [discriminate|]. intros H. injection H as <- _.
      destruct (esc =? 100); [discriminate|]. destruct (esc =? 119); [discriminate|].
      destruct (esc =? 115); discriminate.
    + destruct (isQuantifierChar ch); [discriminate|]. intros H. injection H as <- _.
      discriminate.
Qed.

Lemma compileLoop_alphabet (fuel : nat) :
  forall rest pieces result,
    Forall (fun p => alphabet (atom p) <> []) pieces ->
    compileLoop fuel rest pieces = Ok result ->
    Forall (fun p => alphabet (atom p) <> []) result.
Proof.
  induction fuel as [|fuel IH]; intros rest pieces result Hp.
  { destruct rest; simpl; intros H; inversion H; subst; exact Hp. }
  destruct rest as [|ch rest1]; [simpl; intros H; inversion H; subst; exact Hp|].
  cbn [compileLoop].
  destruct ((ch =? CARET) || (ch =? DOLLAR)); [apply IH; exact Hp|].
  destruct (parseAtom ch rest1) as [[a rest2]|e] eqn:Ea; [|discriminate]. cbn [bind].
  destruct (parseQuantifier rest2) as [[[mn mx] rest3]|e]; [|discriminate].
  cbn [bind]. apply IH.
  apply Forall_app. split; [exact Hp|]. constructor; [|constructor].
  cbn [atom]. eapply parseAtom_alphabet. exact Ea.
Qed.

Lemma compile_alphabet (pattern : jsstring) (pieces : list Piece) :
  compile pattern = Ok pieces -> Forall (fun p => alphabet (atom p) <> []) pieces.
Proof.
  unfold compile.
  destruct (includes pattern LPAREN || includes pattern RPAREN || includes pattern BAR);
    [discriminate|].
  apply compileLoop_alphabet. constructor.
Qed.

Lemma generations_matches (pieces : list Piece) :
  Forall boundsOk pieces ->
  Forall (fun p => alphabet (atom p) <> []) pieces ->
  Forall (fun p => Z.of_nat (List.length (alphabet (atom p))) < 2 ^ 53) pieces ->
  forall n r, Forall (matches pieces) (fst (generations n pieces r)).
Proof.
  intros Hb Ha Hs. induction n as [|n IH]; intros r; [constructor|].
  cbn [generations].
  destruct (generateOne_matches pieces Hb Ha Hs [] r) as (segs & r1 & E & Hf). rewrite E.
  specialize (IH r1). destruct (generations n pieces r1) as [ss r2].
  cbn [fst] in *. constructor; [|exact IH]. exists segs. split; [reflexivity | exact Hf].
Qed.

(** X16.  Every string that is generated from a pattern has the form of the
    pattern: it is one run of characters for each piece, in their order, each
    run with a length between the [min] and the [max] of the piece and with
    characters of its atom only.  The draws are those of the doubles, with
    the product of [Math.random()] and the number of choices rounded; still
    no draw falls outside an array, so that the text "undefined" is never
    added.  An array has fewer than 2^32 elements; that the classes have
    fewer than 2^53 characters is what the proof needs.  The same holds for
    every string that [generateMany] returns. *)
Theorem generateFromRegexLikePattern_sound (pattern : jsstring) (pieces : list Piece) :
  compile pattern = Ok pieces ->
  Forall (fun p => Z.of_nat (List.length (alphabet (atom p))) < 2 ^ 53) pieces ->
  (forall r, exists out r',
     generateFromRegexLikePattern pattern r = Ok (out, r') /\ matches pieces out) /\
  (forall count r outs r',
     generateMany pattern count r = Ok (outs, r') -> Forall (matches pieces) outs).
Proof.
  intros Hc Hs.
  pose proof (compile_bounds pattern pieces Hc) as Hb.
  pose proof (compile_alphabet pattern pieces Hc) as Ha.
  split.
  - intros r. unfold generateFromRegexLikePattern. rewrite Hc. cbn [bind].
    destruct (generateOne_matches pieces Hb Ha Hs [] r) as (segs & r' & E & Hf).
    rewrite E. exists (List.concat segs), r'. split; [reflexivity|].
    exists segs. split; [reflexivity | exact Hf].
  - intros count r outs r' H. unfold generateMany in H.
    rewrite (generateManyLoop_ok pattern pieces Hc) in H. injection H as <- _.
    apply generations_matches; assumption.
Qed.

Lemma generateFromRegexLikePattern_sound_witness :
  (forall r, exists out r',
     generateFromRegexLikePattern (str "[A-HJ-NPR-Z0-9]{17}") r = Ok (out, r') /\
     matches [{| atom := CharClass (str "ABCDEFGHJKLMNPRSTUVWXYZ0123456789");
                 min := 17; max := 17 |}] out) /\
  (forall count r outs r',
     generateMany (str "[A-HJ-NPR-Z0-9]{17}") count r = Ok (outs, r') ->
     Forall (matches [{| atom := CharClass (str "ABCDEFGHJKLMNPRSTUVWXYZ0123456789");
                         min := 17; max := 17 |}]) outs).
Proof.
  apply (generateFromRegexLikePattern_sound (str "[A-HJ-NPR-Z0-9]{17}")).
  - reflexivity.
  - repeat constructor.
Defined.

(** ** The length of what is generated *)

Lemma fits_length (pieces : list Piece) (segs : list jsstring) :
  Forall2 fits pieces segs ->
  minLength pieces <= Z.of_nat (List.length (List.concat segs)) <= maxLength pieces.
Proof.
  induction 1 as [|p seg pieces segs [Hl _] _ IH]; [simpl; lia|].
  cbn [List.concat minLength maxLength fold_right].
  fold (minLength pieces). fold (maxLength pieces).
  rewrite length_app, Nat2Z.inj_add. lia.
Qed.

Lemma maxLength_bound (pieces : list Piece) :
  Forall boundsOk pieces -> maxLength pieces <= 100000 * Z.of_nat (List.length pieces).
Proof.
  induction 1 as [|p pieces (_ & _ & Hp) _ IH]; [simpl; lia|].
  cbn [maxLength fold_right List.length]. fold (maxLength pieces). lia.
Qed.

Lemma fixed_length (pieces : list Piece) :
  Forall (fun p => min p = max p) pieces -> minLength pieces = maxLength pieces.
Proof.
  induction 1 as [|p pieces Hp _ IH]; [reflexivity|].
  cbn [minLength maxLength fold_right]. fold (minLength pieces). fold (maxLength pieces). lia.
Qed.

(** Every piece takes at least one character of the pattern. *)
Lemma compileLoop_count (fuel : nat) :
  forall rest pieces result,
    compileLoop fuel rest pieces = Ok result ->
    (List.length result <= List.length pieces + List.length rest)%nat.
Proof.
  induction fuel as [|fuel IH]; intros rest pieces result.
  { destruct rest; simpl; intros H; inversion H; subst; lia. }
  destruct rest as [|ch rest1]; [simpl; intros H; inversion H; subst; lia|].
  cbn [compileLoop].
  destruct ((ch =? CARET) || (ch =? DOLLAR)).
  { intros H. apply IH in H. simpl. lia. }
  destruct (parseAtom ch rest1) as [[a rest2]|e] eqn:Ea; [|discriminate]. cbn [bind].
  destruct (parseQuantifier rest2) as [[[mn mx] rest3]|e] eqn:Eq; [|discriminate].
  cbn [bind]. intros H. apply IH in H.
  apply parseAtom_shorter in Ea. apply parseQuantifier_result in Eq.
  rewrite length_app in H. simpl in *. lia.
Qed.

(** X17.  The length of a generated string lies between the sum of the [min] and
    the sum of the [max] of the pieces, and is never more than 100000 times
    the length of the pattern; when every quantifier is fixed, as in
    [[A-Z0-9]{17}], every generated string has the same length.  The number
    of rounds of a piece is drawn in doubles and stays between its bounds,
    and every round adds one character; the classes have fewer than 2^53
    characters, as every array has. *)
Theorem generateFromRegexLikePattern_length (pattern : jsstring) (pieces : list Piece)
        (r : rng) (out : jsstring) (r' : rng) :
  compile pattern = Ok pieces ->
  Forall (fun p => Z.of_nat (List.length (alphabet (atom p))) < 2 ^ 53) pieces ->
  generateFromRegexLikePattern pattern r = Ok (out, r') ->
  minLength pieces <= Z.of_nat (List.length out) <= maxLength pieces /\
  maxLength pieces <= 100000 * Z.of_nat (List.length pattern) /\
  (Forall (fun p => min p = max p) pieces ->
   Z.of_nat (List.length out) = minLength pieces).
Proof.
  intros Hc Hs Hg.
  pose proof (compile_bounds pattern pieces Hc) as Hb.
  pose proof (compile_alphabet pattern pieces Hc) as Ha.
  unfold generateFromRegexLikePattern in Hg. rewrite Hc in Hg. cbn [bind] in Hg.
  destruct (generateOne_matches pieces Hb Ha Hs [] r) as (segs & r1 & E & Hf).
  rewrite E in Hg. injection Hg as <- _. cbn [app].
  pose proof (fits_length pieces segs Hf) as Hl.
  split; [exact Hl|]. split.
  - pose proof (maxLength_bound pieces Hb) as Hm.
    assert (Hn : (List.length pieces <= List.length pattern)%nat).
    { unfold compile in Hc.
      destruct (includes pattern LPAREN || includes pattern RPAREN || includes pattern BAR);
        [discriminate|].
      apply compileLoop_count in Hc. simpl in Hc. lia. }
    lia.
  - intros Hfix. pose proof (fixed_length pieces Hfix). lia.
Qed.

Lemma generateFromRegexLikePattern_length_witness :
  minLength [{| atom := Word; min := 2; max := 3 |}]
    <= Z.of_nat (List.length (str "aa"))
    <= maxLength [{| atom := Word; min := 2; max := 3 |}] /\
  maxLength [{| atom := Word; min := 2; max := 3 |}]
    <= 100000 * Z.of_nat (List.length (str "\w{2,3}")) /\
  (Forall (fun p => min p = max p) [{| atom := Word; min := 2; max := 3 |}] ->
   Z.of_nat (List.length (str "aa")) =
   minLength [{| atom := Word; min := 2; max := 3 |}]).
Proof.
  apply (generateFromRegexLikePattern_length (str "\w{2,3}")
           [{| atom := Word; min := 2; max := 3 |}]
           zeroDraws (str "aa") zeroDraws).
  - reflexivity.
  - repeat constructor.
  - reflexivity.
Defined.

(** ** Patterns of ordinary characters *)

Lemma generateOne_literals (s : jsstring) :
  forall out r,
    generateOne (List.map (fun c => {| atom := Literal c; min := 1; max := 1 |}) s) out r
    = (out ++ s, r).
Proof.
  induction s as [|c s IH]; intros out r; [cbn; rewrite app_nil_r; reflexivity|].
  cbn [List.map generateOne min max atom]. rewrite Z.eqb_refl.
  change (rounds (Int 1)) with 1%nat. cbn [emitMany emit]. rewrite IH, <- app_assoc. reflexivity.
Qed.

(** X18.  A pattern without any of [[ \ { } ? + * ( ) |] gives itself, with the
    anchors [^] and [$] left out wherever they stand; no random number is
    drawn for it. *)
Theorem generateFromRegexLikePattern_ordinary (pattern : jsstring) (r : rng) :
  forallb isOrdinary pattern = true ->
  generateFromRegexLikePattern pattern r =
  Ok (filter (fun c => negb (isAnchor c)) pattern, r).
Proof.
  intros H. unfold generateFromRegexLikePattern.
  rewrite (compile_noGroups pattern (ordinary_noGroups pattern H)).
  rewrite (compileLoop_ordinary pattern _ [] H (le_n _)). cbn [bind app].
  rewrite generateOne_literals. reflexivity.
Qed.

Lemma generateFromRegexLikePattern_ordinary_witness :
  generateFromRegexLikePattern (str "^user-1$") zeroDraws =
  Ok (filter (fun c => negb (isAnchor c)) (str "^user-1$"), zeroDraws).
Proof.
  apply (generateFromRegexLikePattern_ordinary (str "^user-1$") zeroDraws).
  reflexivity.
Defined.

(** ** Escaped characters *)

Lemma parseQuantifier_before_backslash (rest : jsstring) :
  parseQuantifier (BACKSLASH :: rest) = Ok (1, 1, BACKSLASH :: rest).
Proof. reflexivity. Qed.

Lemma compileLoop_escaped (s : jsstring) :
  forall fuel pieces,
    Forall (fun c => c <> 100 /\ c <> 119 /\ c <> 115) s ->
    (2 * List.length s <= fuel)%nat ->
    compileLoop fuel (escaped s) pieces =
    Ok (pieces ++ List.map (fun c => {| atom := Literal c; min := 1; max := 1 |}) s).
Proof.
  induction s as [|c s IH]; intros fuel pieces Hs Hf.
  - destruct fuel; cbn; rewrite app_nil_r; reflexivity.
  - destruct fuel as [|fuel]; [simpl in Hf; lia|].
    inversion Hs as [|? ? (Hd & Hw & Hsp) Hs']; subst.
    change (escaped (c :: s)) with (BACKSLASH :: c :: escaped s).
    cbn [compileLoop]. change ((BACKSLASH =? CARET) || (BACKSLASH =? DOLLAR)) with false.
    cbv iota. unfold parseAtom. change (BACKSLASH =? LBRACKET) with false.
    change (BACKSLASH =? BACKSLASH) with true. cbv iota.
    apply Z.eqb_neq in Hd, Hw, Hsp. rewrite Hd, Hw, Hsp. cbn [bind].
    assert (Eq : parseQuantifier (escaped s) = Ok (1, 1, escaped s)).
    { destruct s as [|c' s']; [reflexivity|]. apply parseQuantifier_before_backslash. }
    rewrite Eq. cbn [bind]. rewrite IH by (try exact Hs'; simpl in Hf; lia).
    rewrite <- app_assoc. reflexivity.
Qed.

Lemma escaped_noGroups (s : jsstring) :
  Forall (fun c => c <> LPAREN /\ c <> RPAREN /\ c <> BAR) s -> noGroups (escaped s).
Proof.
  intros H. unfold noGroups.
  assert (Hin : forall x, In x (escaped s) -> x = BACKSLASH \/ In x s).
  { intros x Hx. unfold escaped in Hx. apply in_flat_map in Hx.
    destruct Hx as (c & Hc & [<-|[<-|[]]]); auto. }
  rewrite Forall_forall in H.
  repeat split; intros Hx; apply Hin in Hx; destruct Hx as [Hx|Hx];
    try discriminate Hx; apply H in Hx; tauto.
Qed.

(** X19.  A backslash before each character gives the characters themselves:
    this is how [[ \ { } ? + * ^ $] are written when they are meant
    literally.  The exceptions are [d], [w] and [s], which behind a backslash
    are the classes, and [( ) |], with which a pattern is refused even behind
    a backslash. *)
Theorem generateFromRegexLikePattern_escaped (s : jsstring) (r : rng) :
  Forall (fun c => c <> 100 /\ c <> 119 /\ c <> 115) s ->
  Forall (fun c => c <> LPAREN /\ c <> RPAREN /\ c <> BAR) s ->
  generateFromRegexLikePattern (escaped s) r = Ok (s, r).
Proof.
  intros Hc Hg. unfold generateFromRegexLikePattern.
  rewrite (compile_noGroups _ (escaped_noGroups s Hg)).
  rewrite (compileLoop_escaped s _ [] Hc).
  - cbn [bind app]. rewrite generateOne_literals. reflexivity.
  - unfold escaped. clear. induction s as [|c s IH]; [simpl; lia|].
    cbn [flat_map app List.length] in *. lia.
Qed.

Lemma generateFromRegexLikePattern_escaped_witness :
  generateFromRegexLikePattern (escaped (str "\[a+b]?{1}^$")) zeroDraws =
  Ok (str "\[a+b]?{1}^$", zeroDraws).
Proof.
  apply (generateFromRegexLikePattern_escaped (str "\[a+b]?{1}^$") zeroDraws);
    repeat constructor; discriminate.
Defined.

(** ** The errors of a pattern *)

Lemma expandRange_error (a b : char) (e : error) :
  expandRange a b = Err e -> scanError e.
Proof.
  unfold expandRange. destruct (Z.ltb_spec b a) as [Hlt|]; [|discriminate].
  intros H. injection H as <-. split; [exact Hlt | discriminate].
Qed.

Lemma classLoop_error (n : nat) :
  forall rest chars e,
    (List.length rest <= n)%nat -> classLoop rest chars = Err e -> scanError e.
Proof.
  induction n as [|n IH]; intros rest chars e Hlen.
  { destruct rest; [|simpl in Hlen; lia]. intros H. injection H as <-.
    split; [exact I | discriminate]. }
  destruct rest as [|ch rest1].
  { intros H. injection H as <-. split; [exact I | discriminate]. }
  cbn [classLoop]. destruct (ch =? RBRACKET).
  { destruct (Nat.eqb (List.length chars) 0); [|discriminate].
    intros H. injection H as <-. split; [exact I | discriminate]. }
  destruct (ch =? BACKSLASH).
  { destruct rest1 as [|x rest2].
    - intros H. injection H as <-. split; [exact I | discriminate].
    - apply IH. simpl in Hlen. lia. }
  assert (Hlit : classLoop rest1 (chars ++ [ch]) = Err e -> scanError e).
  { apply IH. simpl in Hlen. lia. }
  destruct rest1 as [|dash [|b rest3]]; try exact Hlit.
  destruct ((dash =? HYPHEN) && negb (b =? RBRACKET)); [|exact Hlit].
  destruct (expandRange ch b) as [range|e'] eqn:Er.
  - apply IH. simpl in Hlen. lia.
  - intros H. injection H as <-. eapply expandRange_error. exact Er.
Qed.

Lemma parseQuantifier_error (rest : jsstring) (e : error) :
  parseQuantifier rest = Err e -> scanError e.
Proof.
  unfold parseQuantifier. destruct rest as [|ch rest1]; [discriminate|].
  destruct (ch =? QUESTION); [discriminate|]. destruct (ch =? PLUS); [discriminate|].
  destruct (ch =? STAR); [discriminate|]. destruct (negb (ch =? LBRACE)); [discriminate|].
  destruct (takeDigits rest1 []) as [n1 rest2].
  destruct (Nat.eqb (List.length n1) 0).
  { intros H. injection H as <-. split; [exact I | discriminate]. }
  match goal with |- context [let '(max, rest3) := ?X in _] => destruct X as [mx rest3] end.
  destruct rest3 as [|c rest4].
  { intros H. injection H as <-. split; [exact I | discriminate]. }
  destruct (negb (c =? RBRACE)).
  { intros H. injection H as <-. split; [exact I | discriminate]. }
  unfold checkBounds.
  destruct (jsint_ltb (Number_of_digits n1) (Int 0) || jsint_ltb mx (Number_of_digits n1)).
  { intros H. injection H as <-. split; [exact I | discriminate]. }
  destruct (jsint_ltb (Int 100000) mx).
  { intros H. injection H as <-. split; [exact I | discriminate]. }
  destruct (Number_of_digits n1), mx; intros H; try discriminate;
    injection H as <-; (split; [exact I | discriminate]).
Qed.

Lemma parseAtom_error (ch : char) (rest1 : jsstring) (e : error) :
  parseAtom ch rest1 = Err e -> scanError e.
Proof.
  unfold parseAtom. destruct (Z.eqb_spec ch LBRACKET) as [->|_].
  - unfold parseCharClass. change (negb (LBRACKET =? LBRACKET)) with false. cbv iota.
    assert (Hl : forall rest, classLoop rest [] = Err e -> scanError e).
    { intros rest. apply (classLoop_error (List.length rest)). apply le_n. }
    destruct rest1 as [|c rest].
    + destruct (classLoop [] []) as [[cs next]|e'] eqn:E; cbn [bind]; [discriminate|].
      intros H. injection H as <-. apply (Hl []). exact E.
    + destruct (c =? CARET).
      * cbn [bind]. intros H. injection H as <-. split; [exact I | discriminate].
      * destruct (classLoop (c :: rest) []) as [[cs next]|e'] eqn:E; cbn [bind];
          [discriminate|].
        intros H. injection H as <-. apply (Hl (c :: rest)). exact E.
  - destruct (ch =? BACKSLASH).
    + destruct rest1; [|discriminate]. intros H. injection H as <-.
      split; [exact I | discriminate].
    + destruct (isQuantifierChar ch) eqn:Eq; [|discriminate].
      intros H. injection H as <-. split; [exact Eq | discriminate].
Qed.

Lemma compileLoop_error (fuel : nat) :
  forall rest pieces e, compileLoop fuel rest pieces = Err e -> scanError e.
Proof.
  induction fuel as [|fuel IH]; intros rest pieces e.
  { destruct rest; discriminate. }
  destruct rest as [|ch rest1]; [discriminate|]. cbn [compileLoop].
  destruct ((ch =? CARET) || (ch =? DOLLAR)); [apply IH|].
  destruct (parseAtom ch rest1) as [[a rest2]|e'] eqn:Ea; cbn [bind].
  - destruct (parseQuantifier rest2) as [[[mn mx] rest3]|e''] eqn:Eq; cbn [bind].
    + apply IH.
    + intros H. injection H as <-. eapply parseQuantifier_error. exact Eq.
  - intros H. injection H as <-. eapply parseAtom_error. exact Ea.
Qed.

Lemma includes_true (pattern : jsstring) (c : char) :
  includes pattern c = true <-> In c pattern.
Proof.
  unfold includes. rewrite existsb_exists. split.
  - intros (x & Hin & E). apply Z.eqb_eq in E. subst x. exact Hin.
  - intros H. exists c. split; [exact H | apply Z.eqb_refl].
Qed.

(** X20.  A pattern is refused for groups exactly when one of [( ) |] is anywhere
    in it, also behind a backslash or inside a character class, and whatever
    else is wrong with it.  Every other error is one of the errors of the
    scan; 'Expected [' is never raised. *)
Theorem generateFromRegexLikePattern_errors (pattern : jsstring) (r : rng) :
  (generateFromRegexLikePattern pattern r = Err GroupsUnsupported <->
   In LPAREN pattern \/ In RPAREN pattern \/ In BAR pattern) /\
  (forall e,
     generateFromRegexLikePattern pattern r = Err e ->
     patternError e /\ e <> ExpectedOpenBracket).
Proof.
  unfold generateFromRegexLikePattern, compile.
  pose proof (includes_true pattern LPAREN) as H1.
  pose proof (includes_true pattern RPAREN) as H2.
  pose proof (includes_true pattern BAR) as H3.
  destruct (includes pattern LPAREN || includes pattern RPAREN || includes pattern BAR) eqn:E.
  - cbn [bind]. split.
    + split; [intros _|reflexivity].
      apply orb_true_iff in E. destruct E as [E|E]; [apply orb_true_iff in E; destruct E as [E|E]|].
      * left. apply H1. exact E.
      * right. left. apply H2. exact E.
      * right. right. apply H3. exact E.
    + intros e H. injection H as <-. split; [exact I | discriminate].
  - apply orb_false_iff in E. destruct E as [E E3]. apply orb_false_iff in E.
    destruct E as [E1 E2].
    destruct (compileLoop (List.length pattern) pattern []) as [pieces|e'] eqn:Ec; cbn [bind].
    + split; [|discriminate]. split; [discriminate|].
      intros [H|[H|H]]; [apply H1 in H | apply H2 in H | apply H3 in H]; congruence.
    + apply compileLoop_error in Ec. destruct Ec as [Hp Hg]. split.
      * split; [intros H; injection H as ->; congruence|].
        intros [H|[H|H]]; [apply H1 in H | apply H2 in H | apply H3 in H]; congruence.
      * intros e H. injection H as <-. split; [exact Hp|].
        intros ->. exact Hp.
Qed.

Lemma generateFromRegexLikePattern_errors_witness :
  generateFromRegexLikePattern (str "[a\)]{") zeroDraws = Err GroupsUnsupported /\
  patternError QuantifierExpectedNumber /\ QuantifierExpectedNumber <> ExpectedOpenBracket.
Proof.
  destruct (generateFromRegexLikePattern_errors (str "[a\)]{") zeroDraws) as [[_ H1] _].
  destruct (generateFromRegexLikePattern_errors (str "a{") zeroDraws) as [_ H2].
  split.
  - apply H1. right. left. cbn. auto 10.
  - apply (H2 QuantifierExpectedNumber). reflexivity.
Defined.

(** ** Character classes of ordinary characters *)

Lemma classLoop_plain (body : jsstring) :
  forall chars rest,
    Forall (fun c => c <> RBRACKET /\ c <> BACKSLASH /\ c <> HYPHEN) body ->
    chars ++ body <> [] ->
    classLoop (body ++ RBRACKET :: rest) chars = Ok (chars ++ body, rest).
Proof.
  induction body as [|ch body IH]; intros chars rest Hb Hne.
  - rewrite app_nil_r in *. cbn [app classLoop]. change (RBRACKET =? RBRACKET) with true.
    cbv iota. destruct chars; [congruence | reflexivity].
  - inversion Hb as [|? ? (H1 & H2 & H3) Hb']; subst.
    cbn [app classLoop].
    apply Z.eqb_neq in H1, H2. rewrite H1, H2.
    assert (Hnext : classLoop (body ++ RBRACKET :: rest) (chars ++ [ch])
                    = Ok (chars ++ ch :: body, rest)).
    { rewrite IH; [rewrite <- app_assoc; reflexivity | exact Hb'|].
      rewrite <- app_assoc. cbn. intros H. apply app_eq_nil in H. destruct H; discriminate. }
    destruct body as [|dash body'].
    + cbn [app] in *. destruct rest as [|b rest3]; [exact Hnext|].
      change (RBRACKET =? HYPHEN) with false. cbn [andb]. exact Hnext.
    + inversion Hb' as [|? ? (_ & _ & Hd) _]; subst. cbn [app] in *.
      apply Z.eqb_neq in Hd. rewrite Hd. cbn [andb].
      destruct (body' ++ RBRACKET :: rest); exact Hnext.
Qed.

(** X21.  A character class of characters none of which is []], [\] or [-], and
    the first of which is not [^], is the list of these characters as they
    are written: in their order, and with a character that is written twice
    listed twice, so that it is drawn twice as often. *)
Theorem parseCharClass_plain (body rest : jsstring) :
  body <> [] ->
  Forall (fun c => c <> RBRACKET /\ c <> BACKSLASH /\ c <> HYPHEN) body ->
  hd 0 body <> CARET ->
  parseCharClass (LBRACKET :: body ++ RBRACKET :: rest) = Ok (body, rest).
Proof.
  intros Hne Hb Hc. unfold parseCharClass. change (negb (LBRACKET =? LBRACKET)) with false.
  cbv iota. destruct body as [|c body]; [congruence|]. cbn [app hd] in *.
  apply Z.eqb_neq in Hc. rewrite Hc.
  apply (classLoop_plain (c :: body) [] rest Hb). discriminate.
Qed.

Lemma parseCharClass_plain_witness :
  parseCharClass (LBRACKET :: str "aab" ++ RBRACKET :: str "{2}") = Ok (str "aab", str "{2}").
Proof.
  apply (parseCharClass_plain (str "aab") (str "{2}")).
  - discriminate.
  - repeat constructor; discriminate.
  - discriminate.
Defined.

(** ** The draws in the arithmetic of doubles *)



(** ** The keys of the text area *)

(** *** Trimming, once more *)

Lemma trimStart_suffix (s : jsstring) : exists ws, s = ws ++ trimStart s /\ allWhite ws.
Proof.
  induction s as [|c s (ws & E & H)]; [exists []; split; [reflexivity | constructor]|].
  cbn [trimStart]. destruct (isWhiteSpace c) eqn:Ec.
  - exists (c :: ws). cbn [app]. rewrite <- E. split; [reflexivity|]. constructor; assumption.
  - exists []. split; [reflexivity | constructor].
Qed.

Lemma trimStart_head (s : jsstring) (c : char) (t : jsstring) :
  trimStart s = c :: t -> isWhiteSpace c = false.
Proof.
  induction s as [|d s IH]; [discriminate|]. cbn [trimStart].
  destruct (isWhiteSpace d) eqn:Ed; [exact IH|]. intros H. injection H as <- _. exact Ed.
Qed.

Lemma trimStart_idem (s : jsstring) : trimStart (trimStart s) = trimStart s.
Proof.
  destruct (trimStart s) as [|c t] eqn:E; [reflexivity|].
  cbn [trimStart]. rewrite (trimStart_head s c t E). reflexivity.
Qed.

Lemma trimEnd_prefix (s : jsstring) : exists ws, s = trimEnd s ++ ws /\ allWhite ws.
Proof.
  unfold trimEnd. destruct (trimStart_suffix (rev s)) as (ws & E & H).
  exists (rev ws). split; [|apply Forall_rev; exact H].
  rewrite <- rev_app_distr, <- E, rev_involutive. reflexivity.
Qed.

(** What [trim] leaves is a part of the string, between white space. *)
Lemma trim_middle (s : jsstring) :
  exists ws1 ws2, s = ws1 ++ trim s ++ ws2 /\ allWhite ws1 /\ allWhite ws2.
Proof.
  destruct (trimStart_suffix s) as (ws1 & E1 & H1).
  destruct (trimEnd_prefix (trimStart s)) as (ws2 & E2 & H2).
  exists ws1, ws2. unfold trim. rewrite <- E2. auto.
Qed.

Lemma trim_In (s : jsstring) (c : char) : In c (trim s) -> In c s.
Proof.
  destruct (trim_middle s) as (ws1 & ws2 & E & _). intros H. rewrite E.
  apply in_or_app. right. apply in_or_app. left. exact H.
Qed.

Lemma trimStart_nonwhite (s : jsstring) :
  isWhiteSpace (hd 0 s) = false -> trimStart s = s.
Proof. destruct s as [|c s]; [reflexivity|]. cbn. intros ->. reflexivity. Qed.

Lemma trimEnd_head (s : jsstring) : hd 0 (trimEnd s) = hd 0 s \/ trimEnd s = [].
Proof.
  destruct (trimEnd_prefix s) as (ws & E & _).
  destruct (trimEnd s) as [|c t]; [right; reflexivity|]. left. rewrite E. reflexivity.
Qed.

Lemma trimEnd_last (s : jsstring) : isWhiteSpace (last (trimEnd s) 0) = false.
Proof.
  unfold trimEnd. destruct (trimStart (rev s)) as [|c t] eqn:E; [reflexivity|].
  cbn [rev]. rewrite last_last. eapply trimStart_head. exact E.
Qed.

Lemma trim_ends (s : jsstring) :
  isWhiteSpace (hd 0 (trim s)) = false /\ isWhiteSpace (last (trim s) 0) = false.
Proof.
  unfold trim. split; [|apply trimEnd_last].
  destruct (trimEnd_head (trimStart s)) as [E| ->]; [|reflexivity].
  rewrite E. destruct (trimStart s) as [|c t] eqn:Es; [reflexivity|].
  cbn [hd]. eapply trimStart_head. exact Es.
Qed.

Lemma trimEnd_nonwhite (s : jsstring) :
  isWhiteSpace (last s 0) = false -> trimEnd s = s.
Proof.
  intros H. unfold trimEnd. rewrite trimStart_nonwhite; [apply rev_involutive|].
  destruct s as [|c s] using rev_ind; [reflexivity|].
  rewrite rev_app_distr. cbn [rev app hd]. rewrite last_last in H. exact H.
Qed.

Lemma trim_idem (s : jsstring) : trim (trim s) = trim s.
Proof.
  destruct (trim_ends s) as [H1 H2]. unfold trim at 1.
  rewrite trimStart_nonwhite by exact H1. apply trimEnd_nonwhite. exact H2.
Qed.

Lemma trim_white (ws : jsstring) : allWhite ws -> trim ws = [].
Proof.
  intros H. unfold trim. rewrite <- (app_nil_r ws), trimStart_white by exact H. reflexivity.
Qed.

(** White space at the end of a string does not change what [trim] gives. *)
Lemma trim_app_white (s ws : jsstring) : allWhite ws -> trim (s ++ ws) = trim s.
Proof.
  intros H. destruct (trimStart_suffix s) as (ws1 & E & H1).
  unfold trim. rewrite E at 1. rewrite <- app_assoc, trimStart_white by exact H1.
  destruct (trimStart s) as [|c t] eqn:Es.
  - cbn [app]. rewrite <- (app_nil_r ws), trimStart_white by exact H. reflexivity.
  - assert (Hc : isWhiteSpace c = false) by (eapply trimStart_head; exact Es).
    cbn [app trimStart]. rewrite Hc. change (c :: t ++ ws) with ((c :: t) ++ ws).
    apply trimEnd_white. exact H.
Qed.

(** *** Lines *)

Lemma isWhiteSpace_CR : isWhiteSpace CR = true.
Proof. reflexivity. Qed.

Lemma split_no_LF_bounded (n : nat) :
  forall rest piece,
    (List.length rest <= n)%nat -> ~ In LF piece ->
    Forall (fun s => ~ In LF s) (split rest piece).
Proof.
  induction n as [|n IH]; intros rest piece Hn Hp.
  { destruct rest; [|simpl in Hn; lia]. repeat constructor. exact Hp. }
  destruct rest as [|c rest1]; [repeat constructor; exact Hp|].
  cbn [split]. destruct (Z.eqb_spec c LF) as [->|Hc].
  - constructor; [exact Hp|]. apply IH; [simpl in Hn; lia | intros []].
  - assert (Hp' : ~ In LF (piece ++ [c])).
    { intros H. apply in_app_or in H. destruct H as [H|[H|[]]]; [exact (Hp H) | congruence]. }
    destruct rest1 as [|d rest2]; [apply IH; [simpl; lia | exact Hp']|].
    destruct ((c =? CR) && (d =? LF)).
    + constructor; [exact Hp|]. apply IH; [simpl in Hn; lia | intros []].
    + apply IH; [cbn [List.length] in *; lia | exact Hp'].
Qed.

Lemma split_no_LF (rest : jsstring) : Forall (fun s => ~ In LF s) (split rest []).
Proof. apply (split_no_LF_bounded (List.length rest)); [apply le_n | intros []]. Qed.

(** X23.  Every key that [parseKeys] finds has at least one character, no white
    space at its ends and no line feed in it: it is trimmed, and trimming it
    again changes nothing. *)
Theorem parseKeys_keys (raw k : jsstring) :
  In k (parseKeys raw) ->
  k <> [] /\ ~ In LF k /\ trim k = k /\
  isWhiteSpace (hd 0 k) = false /\ isWhiteSpace (last k 0) = false.
Proof.
  unfold parseKeys. rewrite filter_In, in_map_iff.
  intros [(s & <- & Hs) Hlen].
  pose proof (split_no_LF raw) as Hno.
  rewrite Forall_forall in Hno. specialize (Hno s Hs).
  split; [intros E; rewrite E in Hlen; discriminate|].
  split; [intros H; apply Hno; apply trim_In; exact H|].
  split; [apply trim_idem | apply trim_ends].
Qed.

Lemma parseKeys_keys_witness :
  str "user-2" <> [] /\ ~ In LF (str "user-2") /\ trim (str "user-2") = str "user-2" /\
  isWhiteSpace (hd 0 (str "user-2")) = false /\ isWhiteSpace (last (str "user-2") 0) = false.
Proof.
  apply (parseKeys_keys (str "user-1" ++ [CR; LF] ++ str "  user-2 " ++ [LF; LF]) (str "user-2")).
  right. left. reflexivity.
Defined.

(** *** Keys that are written to the text area and read back *)

(** A line up to its line feed: the piece is the line, or the line without
    the carriage return that ends it. *)
Lemma split_line (k : jsstring) :
  forall piece rest,
    ~ In LF k ->
    exists p, split (k ++ LF :: rest) piece = p :: split rest [] /\
              (p = piece ++ k \/ p ++ [CR] = piece ++ k).
Proof.
  induction k as [|c k IH]; intros piece rest Hk.
  - exists piece. cbn [app split]. change (LF =? LF) with true. cbv iota.
    rewrite app_nil_r. auto.
  - assert (Hc : (c =? LF) = false).
    { apply Z.eqb_neq. intros ->. apply Hk. left. reflexivity. }
    assert (Hk' : ~ In LF k) by (intros H; apply Hk; right; exact H).
    cbn [app split]. rewrite Hc.
    destruct k as [|d k'].
    + cbn [app]. change (LF =? LF) with true. rewrite andb_true_r.
      destruct (Z.eqb_spec c CR) as [->|_].
      * exists piece. auto.
      * exists (piece ++ [c]). cbn [split]. change (LF =? LF) with true. cbv iota. auto.
    + assert (Hd : (d =? LF) = false).
      { apply Z.eqb_neq. intros ->. apply Hk'. left. reflexivity. }
      cbn [app]. rewrite Hd, andb_false_r.
      destruct (IH (piece ++ [c]) rest Hk') as (p & E & Hp).
      exists p. split; [exact E|]. rewrite <- app_assoc in Hp. exact Hp.
Qed.

Lemma split_last_line (k : jsstring) :
  forall piece, ~ In LF k -> split k piece = [piece ++ k].
Proof.
  induction k as [|c k IH]; intros piece Hk; [cbn; rewrite app_nil_r; reflexivity|].
  assert (Hc : (c =? LF) = false).
  { apply Z.eqb_neq. intros ->. apply Hk. left. reflexivity. }
  assert (Hk' : ~ In LF k) by (intros H; apply Hk; right; exact H).
  cbn [split]. rewrite Hc.
  replace (piece ++ c :: k) with ((piece ++ [c]) ++ k) by (rewrite <- app_assoc; reflexivity).
  destruct k as [|d k']; [apply IH; exact Hk'|].
  assert (Hd : (d =? LF) = false).
  { apply Z.eqb_neq. intros ->. apply Hk'. left. reflexivity. }
  rewrite Hd, andb_false_r. apply IH. exact Hk'.
Qed.

Lemma split_join (keys : list jsstring) :
  keys <> [] -> Forall (fun k => ~ In LF k) keys ->
  List.map trim (split (join [LF] keys) []) = List.map trim keys.
Proof.
  induction keys as [|k keys IH]; intros Hne Hk; [congruence|].
  inversion Hk as [|? ? Hk1 Hk2]; subst.
  destruct keys as [|k2 keys].
  - cbn [join]. rewrite (split_last_line k [] Hk1). reflexivity.
  - change (join [LF] (k :: k2 :: keys)) with (k ++ LF :: join [LF] (k2 :: keys)).
    destruct (split_line k [] (join [LF] (k2 :: keys)) Hk1) as (p & E & Hp).
    rewrite E. cbn [List.map]. rewrite IH by (try discriminate; exact Hk2).
    f_equal. cbn [app] in Hp. destruct Hp as [->|Hp]; [reflexivity|].
    rewrite <- Hp. symmetry. apply trim_app_white. repeat constructor.
Qed.

Lemma parseKeys_joined (keys : list jsstring) :
  Forall (fun k => ~ In LF k) keys ->
  parseKeys (join [LF] keys) =
  filter (fun s => Nat.ltb 0 (List.length s)) (List.map trim keys).
Proof.
  intros Hk. unfold parseKeys. destruct keys as [|k keys]; [reflexivity|].
  rewrite split_join by (try discriminate; exact Hk). reflexivity.
Qed.

(** X24.  Keys that are joined by line feeds and read back by [parseKeys] come
    back trimmed, and without those that are empty or white space only;
    nothing else is lost, carriage returns before the line feeds included.
    Keys that [parseKeys] has read come back as they are. *)
Theorem parseKeys_join :
  (forall keys,
     Forall (fun k => ~ In LF k) keys ->
     parseKeys (join [LF] keys) =
     filter (fun s => Nat.ltb 0 (List.length s)) (List.map trim keys)) /\
  (forall raw, parseKeys (join [LF] (parseKeys raw)) = parseKeys raw).
Proof.
  split; [exact parseKeys_joined|]. intros raw.
  assert (Hkeys : Forall (fun k => ~ In LF k /\ trim k = k /\ k <> []) (parseKeys raw)).
  { apply Forall_forall. intros k Hin. unfold parseKeys in Hin.
    rewrite filter_In, in_map_iff in Hin. destruct Hin as [(s & <- & Hs) Hlen].
    pose proof (split_no_LF raw) as Hno. rewrite Forall_forall in Hno.
    split; [intros H; apply (Hno s Hs), trim_In, H|].
    split; [apply trim_idem|]. intros E. rewrite E in Hlen. discriminate. }
  rewrite parseKeys_joined
    by (eapply Forall_impl; [|exact Hkeys]; intros k Hk; exact (proj1 Hk)).
  induction Hkeys as [|k ks (_ & Ht & Hne) _ IH]; [reflexivity|].
  cbn [List.map filter]. rewrite Ht, IH.
  destruct k; [congruence | reflexivity].
Qed.

Lemma parseKeys_join_witness :
  parseKeys (join [LF] [str " a "; [32; CR]; str "b"; [CR]; []; str "c"; [99; CR]]) =
  filter (fun s => Nat.ltb 0 (List.length s))
         (List.map trim [str " a "; [32; CR]; str "b"; [CR]; []; str "c"; [99; CR]]).
Proof.
  apply (proj1 parseKeys_join).
  repeat constructor; intros H; cbn in H; repeat destruct H as [H|H]; try discriminate H;
    exact H.
Defined.

(** *** Line endings *)

(** A text is its lines, joined by line feeds. *)
Lemma lines_of (raw : jsstring) :
  exists lines, lines <> [] /\ Forall (fun k => ~ In LF k) lines /\ raw = join [LF] lines.
Proof.
  induction raw as [|c raw (lines & Hne & Hl & E)].
  - exists [[]]. split; [discriminate|]. split; [|reflexivity].
    constructor; [intros [] | constructor].
  - destruct lines as [|k lines]; [congruence|].
    inversion Hl as [|? ? Hk Hl']; subst.
    destruct (Z.eqb_spec c LF) as [->|Hc].
    + exists ([] :: k :: lines). split; [discriminate|]. split; [|reflexivity].
      constructor; [intros [] | exact Hl].
    + exists ((c :: k) :: lines). split; [discriminate|]. split.
      * constructor; [|exact Hl']. intros [H|H]; [congruence | exact (Hk H)].
      * destruct lines; reflexivity.
Qed.

Lemma crlf_line (k : jsstring) : ~ In LF k -> crlf k = k.
Proof.
  induction k as [|c k IH]; intros H; [reflexivity|].
  unfold crlf in *. cbn [flat_map].
  destruct (Z.eqb_spec c LF) as [->|_]; [exfalso; apply H; left; reflexivity|].
  cbn [app]. f_equal. apply IH. intros Hin. apply H. right. exact Hin.
Qed.

Lemma crlf_app (a b : jsstring) : crlf (a ++ b) = crlf a ++ crlf b.
Proof. unfold crlf. apply flat_map_app. Qed.

(** Behind every line but the last there is now a carriage return. *)
Lemma crlf_join (lines : list jsstring) :
  lines <> [] -> Forall (fun k => ~ In LF k) lines ->
  exists lines',
    crlf (join [LF] lines) = join [LF] lines' /\
    Forall (fun k => ~ In LF k) lines' /\
    List.map trim lines' = List.map trim lines.
Proof.
  induction lines as [|k lines IH]; intros Hne Hl; [congruence|].
  inversion Hl as [|? ? Hk Hl']; subst.
  destruct lines as [|k2 lines].
  - exists [k]. cbn [join]. rewrite (crlf_line k Hk). auto.
  - destruct (IH ltac:(discriminate) Hl') as (lines' & E & Hl'' & Ht).
    exists ((k ++ [CR]) :: lines').
    change (join [LF] (k :: k2 :: lines)) with (k ++ [LF] ++ join [LF] (k2 :: lines)).
    rewrite !crlf_app, (crlf_line k Hk), E.
    change (crlf [LF]) with [CR; LF].
    split; [|split].
    + destruct lines' as [|k' lines'].
      * destruct lines; discriminate Ht.
      * change (join [LF] ((k ++ [CR]) :: k' :: lines'))
          with ((k ++ [CR]) ++ [LF] ++ join [LF] (k' :: lines')).
        rewrite <- app_assoc. reflexivity.
    + constructor; [|exact Hl'']. intros H. apply in_app_or in H.
      destruct H as [H|[H|[]]]; [exact (Hk H) | discriminate H].
    + cbn [List.map]. rewrite Ht. f_equal. apply trim_app_white. repeat constructor.
Qed.

(** X25.  The keys do not depend on the line endings: a text in which every line
    feed has a carriage return before it has the keys of the text with the
    line feeds alone. *)
Theorem parseKeys_crlf (raw : jsstring) : parseKeys (crlf raw) = parseKeys raw.
Proof.
  destruct (lines_of raw) as (lines & Hne & Hl & ->).
  destruct (crlf_join lines Hne Hl) as (lines' & E & Hl' & Ht).
  rewrite E, !parseKeys_joined by assumption. rewrite Ht. reflexivity.
Qed.

(** ** The shard count of the page *)

Lemma hashKeyToShardIndex_below (h n : Z) (sc : number) :
  Number_isFinite sc = true -> number_leb sc (S754_zero false) = false ->
  floorZ sc = n -> Number n = Int n ->
  0 <= h <= 2 ^ 128 - 1 ->
  exists i, hashKeyToShardIndex h sc = Ok (Int i) /\ 0 <= i <= n.
Proof.
  intros Hf Hl Hn Hrep Hh.
  rewrite (hashKeyToShardIndex_ok h sc Hf Hl).
  destruct (positive_finite sc Hf Hl) as (m & e & ->).
  unfold BigInt_of_floor. pose proof (floorZ_nonneg m e) as H0. rewrite Hn in *.
  rewrite quotient_floor by lia.
  assert (Hq : 0 <= h * n / 2 ^ 128 <= n).
  { split.
    - apply Z.div_pos; [|lia]. apply Z.mul_nonneg_nonneg; lia.
    - apply Z.div_le_upper_bound; [lia|]. nia. }
  pose proof (Number_mono _ _ Hq) as Hmono. rewrite Hrep in Hmono.
  destruct (Number_nonneg (h * n / 2 ^ 128) (proj1 Hq)) as [E|(r & E & Hr)];
    rewrite E in *.
  - destruct Hmono.
  - exists r. split; [reflexivity|]. simpl in Hmono.
    pose proof (round53_nonneg _ (proj1 Hq)). lia.
Qed.

Lemma floorZ_negative (m : positive) (e : Z) : floorZ (S754_finite true m e) < 0.
Proof.
  unfold floorZ, cond_Zopp. destruct (Z.leb_spec 0 e).
  - assert (0 < 2 ^ e) by (apply Z.pow_pos_nonneg; lia). nia.
  - apply Z.div_lt_upper_bound; [apply Z.pow_pos_nonneg; lia|]. lia.
Qed.

(** An integer from 1 on that [Number] leaves as it is, is as a double
    finite, positive and its own floor. *)
Lemma ofZ_of_exact (z : Z) :
  1 <= z -> Number z = Int z ->
  Number_isFinite (ofZ z) = true /\ number_leb (ofZ z) (S754_zero false) = false /\
  floorZ (ofZ z) = z.
Proof.
  intros Hz. unfold Number, Math_floor.
  destruct (ofZ z) as [s|s| |s m e]; try discriminate; intros H; injection H as H.
  - simpl in H. lia.
  - change (floorZ (S754_finite s m e) = z) in H.
    destruct s; [pose proof (floorZ_negative m e); lia|]. auto.
Qed.

Lemma shardCountOf_cases (x : number) :
  valid_binary prec emax x = true ->
  (x = S754_infinity false /\ shardCountOf x = Infinity false) \/
  (x <> S754_infinity false /\
   exists z, shardCountOf x = Int z /\ 1 <= z /\ Number z = Int z /\
             (Number_isFinite x = true -> z = Z.max 1 (floorZ x)) /\
             (Number_isFinite x = false -> z = 1)).
Proof.
  intros Hv. destruct x as [s|s| |s m e].
  - right. split; [discriminate|]. exists 1. destruct s; repeat split; discriminate.
  - destruct s.
    + right. split; [discriminate|]. exists 1. repeat split; discriminate.
    + left. split; reflexivity.
  - right. split; [discriminate|]. exists 1. repeat split; discriminate.
  - right. split; [discriminate|].
    exists (Z.max 1 (floorZ (S754_finite s m e))).
    split; [reflexivity|]. split; [lia|]. split; [|split; [reflexivity | discriminate]].
    destruct (Z.le_gt_cases (floorZ (S754_finite s m e)) 1) as [Hle|Hgt].
    + rewrite Z.max_l by lia. reflexivity.
    + rewrite Z.max_r by lia.
      destruct s; [pose proof (floorZ_negative m e); lia|].
      apply Number_floorZ. exact Hv.
Qed.

(** X26.  The shard count that the page works with is an integer from 1 on: the
    floor of the number in the input when that is finite and at least 1, and
    1 when it is less than 1, zero, NaN or minus infinity.  With it every
    hash key has a shard index between 0 and the count, and no
    'Invalid shardCount' is raised.  The one exception is plus infinity,
    which stays as it is and is refused. *)
Theorem shardCountOf_valid (x : number) :
  valid_binary prec emax x = true ->
  (x = S754_infinity false ->
   shardCountOf x = Infinity false /\
   forall h, hashKeyToShardIndex h (toNumber (shardCountOf x)) = Err InvalidShardCount) /\
  (x <> S754_infinity false ->
   exists z,
     shardCountOf x = Int z /\ 1 <= z /\
     (Number_isFinite x = true -> z = Z.max 1 (floorZ x)) /\
     (Number_isFinite x = false -> z = 1) /\
     forall h, 0 <= h <= 2 ^ 128 - 1 ->
               exists i, hashKeyToShardIndex h (toNumber (shardCountOf x)) = Ok (Int i) /\
                         0 <= i <= z).
Proof.
  intros Hv.
  destruct (shardCountOf_cases x Hv) as [[-> E]|[Hne (z & E & Hz & Hrep & Hfl & Hnf)]].
  - split; [|congruence]. intros _. split; [exact E|]. intros h. reflexivity.
  - split; [congruence|]. intros _. exists z. split; [exact E|]. split; [exact Hz|].
    split; [exact Hfl|]. split; [exact Hnf|]. intros h Hh. rewrite E. cbn [toNumber].
    destruct (ofZ_of_exact z Hz Hrep) as (Hf & Hl & Hn).
    exact (hashKeyToShardIndex_below h z (ofZ z) Hf Hl Hn Hrep Hh).
Qed.

Lemma shardCountOf_valid_witness :
  (exists z,
     shardCountOf (S754_finite true 5629499534213120 (-51)) = Int z /\ 1 <= z /\
     (Number_isFinite (S754_finite true 5629499534213120 (-51)) = true ->
      z = Z.max 1 (floorZ (S754_finite true 5629499534213120 (-51)))) /\
     (Number_isFinite (S754_finite true 5629499534213120 (-51)) = false -> z = 1) /\
     forall h, 0 <= h <= 2 ^ 128 - 1 ->
               exists i, hashKeyToShardIndex h
                           (toNumber (shardCountOf (S754_finite true 5629499534213120 (-51))))
                         = Ok (Int i) /\ 0 <= i <= z) /\
  (exists z,
     shardCountOf S754_nan = Int z /\ 1 <= z /\
     (Number_isFinite S754_nan = true -> z = Z.max 1 (floorZ S754_nan)) /\
     (Number_isFinite S754_nan = false -> z = 1) /\
     forall h, 0 <= h <= 2 ^ 128 - 1 ->
               exists i, hashKeyToShardIndex h (toNumber (shardCountOf S754_nan))
                         = Ok (Int i) /\ 0 <= i <= z) /\
  shardCountOf (S754_infinity false) = Infinity false.
Proof.
  split; [|split].
  - apply (shardCountOf_valid (S754_finite true 5629499534213120 (-51))); [reflexivity|].
    discriminate.
  - apply (shardCountOf_valid S754_nan); [reflexivity | discriminate].
  - apply (shardCountOf_valid (S754_infinity false)); reflexivity.
Defined.

Section Shown.

Variable md5Hex : jsstring -> jsstring.

(** X27.  The page shows one result for each key, in the order of the keys,
    whatever number is in the input for the shard count, provided every key
    has a well-formed digest; only with plus infinity it shows none. *)
Theorem results_for_every_key (keys : list jsstring) (x : number) :
  valid_binary prec emax x = true ->
  Forall (fun k => isDigest (toLowerCase (trim (md5Hex k)))) keys ->
  (x <> S754_infinity false ->
   List.map partitionKey (results md5Hex keys (toNumber (shardCountOf x))) = keys) /\
  (x = S754_infinity false ->
   results md5Hex keys (toNumber (shardCountOf x)) = []).
Proof.
  intros Hv Hk. destruct (shardCountOf_cases x Hv) as [[-> E]|[Hne (z & E & Hz & Hrep & _)]].
  - split; [congruence|]. intros _. rewrite E. unfold results.
    destruct keys as [|k keys]; [reflexivity|].
    inversion Hk as [|? ? Hk1 _]; subst.
    cbn [analyzePartitionKeys]. unfold bind, md5ToBigInt.
    rewrite (proj2 (isMd5Hex_spec _) Hk1). reflexivity.
  - split; [|congruence]. intros _. rewrite E. cbn [toNumber]. unfold results.
    destruct (ofZ_of_exact z Hz Hrep) as (Hf & Hl & Hn).
    assert (Hs : exists rs, analyzePartitionKeys md5Hex keys (ofZ z) = Ok rs /\
                            List.map partitionKey rs = keys).
    { induction Hk as [|k keys Hk1 _ (rs & Hrs & Hm)]; [exists []; split; reflexivity|].
      cbn [analyzePartitionKeys]. unfold bind, md5ToBigInt.
      rewrite (proj2 (isMd5Hex_spec _) Hk1). cbn [negb]. cbv iota.
      rewrite (hashKeyToShardIndex_ok _ (ofZ z) Hf Hl), Hrs.
      eexists. split; [reflexivity|]. cbn [List.map partitionKey]. rewrite Hm. reflexivity. }
    destruct Hs as (rs & -> & Hm). exact Hm.
Qed.

End Shown.

Lemma results_for_every_key_witness :
  List.map partitionKey
    (results (fun k => k)
       [str "00000000000000000000000000000000"; str "c0000000000000000000000000000000"]
       (toNumber (shardCountOf (S754_zero true))))
  = [str "00000000000000000000000000000000"; str "c0000000000000000000000000000000"] /\
  results (fun k => k)
    [str "00000000000000000000000000000000"; str "c0000000000000000000000000000000"]
    (toNumber (shardCountOf (S754_infinity false))) = [].
Proof.
  assert (Hk : Forall (fun k => isDigest (toLowerCase (trim k)))
                 [str "00000000000000000000000000000000";
                  str "c0000000000000000000000000000000"]).
  { constructor; [|constructor; [|constructor]]; apply isMd5Hex_spec; reflexivity. }
  split.
  - apply (proj1 (results_for_every_key (fun k => k) _ (S754_zero true) eq_refl Hk)).
    discriminate.
  - apply (proj2 (results_for_every_key (fun k => k) _ (S754_infinity false) eq_refl Hk)).
    reflexivity.
Defined.

(** ** The button that generates keys *)

(** The number of strings that [generateMany] is asked for and makes, from
    the number in the input for the count. *)
Lemma countOf_rounds (x : number) :
  valid_binary prec emax x = true ->
  (x = S754_infinity false ->
   Z.of_nat (rounds (clampCount (toNumber (countOf x)))) = 50000) /\
  (x = S754_nan \/ x = S754_infinity true ->
   Z.of_nat (rounds (clampCount (toNumber (countOf x)))) = 0) /\
  (Number_isFinite x = true ->
   Z.of_nat (rounds (clampCount (toNumber (countOf x)))) =
   Z.min 50000 (Z.max 0 (floorZ x))).
Proof.
  intros Hv. split; [intros ->; reflexivity|]. split; [intros [-> | ->]; reflexivity|].
  intros Hf. destruct x as [s|s| |s m e]; try discriminate.
  - destruct s; reflexivity.
  - change (countOf (S754_finite s m e)) with (Int (Z.max 0 (floorZ (S754_finite s m e)))).
    cbn [toNumber]. set (f := floorZ (S754_finite s m e)).
    assert (Hz : Number_isFinite (ofZ (Z.max 0 f)) = true /\
                 floorZ (ofZ (Z.max 0 f)) = Z.max 0 f).
    { destruct (Z.le_gt_cases f 0) as [Hle|Hgt].
      - rewrite Z.max_l by lia. split; reflexivity.
      - rewrite Z.max_r by lia. unfold f in *.
        destruct s; [pose proof (floorZ_negative m e); lia|].
        destruct (ofZ_of_exact (floorZ (S754_finite false m e)) ltac:(lia)
                    (Number_floorZ m e Hv)) as (H1 & _ & H3).
        auto. }
    destruct Hz as [Hfin Hfl].
    rewrite (proj2 (rounds_clampCount (ofZ (Z.max 0 f))) Hfin), Hfl. lia.
Qed.

(** X28.  What [onGenerate] does to the text area and to the error, for a finite
    number [x] in the input for the count.  For a pattern that compiles the
    error is cleared and the text area holds the generated strings, as many
    as the floor of [x] cut to [0, 50000], one after the other with line
    feeds between them.  For a pattern that does not compile the text area
    stays and the error of [compile] is kept, if [x] is at least 1; below 1
    the text area is emptied and no error is shown. *)
Theorem onGenerate_outcome (genPattern : jsstring) (x : number) (st : State) (r : rng)
        (n : nat) :
  valid_binary prec emax x = true -> Number_isFinite x = true ->
  Z.of_nat n = Z.min 50000 (Z.max 0 (floorZ x)) ->
  (forall pieces,
     compile genPattern = Ok pieces ->
     onGenerate genPattern x st r =
     ({| keysRaw := join [LF] (fst (generations n pieces r)); genError := None |},
      snd (generations n pieces r)) /\
     List.length (fst (generations n pieces r)) = n) /\
  (forall e,
     compile genPattern = Err e ->
     (1 <= floorZ x -> onGenerate genPattern x st r =
                       ({| keysRaw := keysRaw st; genError := Some e |}, r)) /\
     (floorZ x < 1 -> onGenerate genPattern x st r =
                      ({| keysRaw := []; genError := None |}, r))).
Proof.
  intros Hv Hf Hn.
  destruct (countOf_rounds x Hv) as (_ & _ & Hr). specialize (Hr Hf).
  assert (En : rounds (clampCount (toNumber (countOf x))) = n) by lia.
  unfold onGenerate, generateMany. rewrite En. split.
  - intros pieces Hc. rewrite (generateManyLoop_ok genPattern pieces Hc). cbn [app].
    split; [reflexivity | apply generations_length].
  - intros e Hc. split; intros Hx.
    + destruct n as [|n']; [lia|].
      cbn [generateManyLoop]. unfold generateFromRegexLikePattern. rewrite Hc. reflexivity.
    + replace n with O by lia. reflexivity.
Qed.

Lemma onGenerate_outcome_witness :
  onGenerate (str "a(") (ofZ 3) {| keysRaw := str "user-1"; genError := None |} zeroDraws
  = ({| keysRaw := str "user-1"; genError := Some GroupsUnsupported |}, zeroDraws) /\
  onGenerate (str "a(") (ofZ 0) {| keysRaw := str "user-1"; genError := None |} zeroDraws
  = ({| keysRaw := []; genError := None |}, zeroDraws).
Proof.
  split.
  - apply (proj2 (onGenerate_outcome (str "a(") (ofZ 3)
                    {| keysRaw := str "user-1"; genError := None |}
                    zeroDraws 3 eq_refl eq_refl eq_refl) GroupsUnsupported eq_refl).
    vm_compute. discriminate.
  - apply (proj2 (onGenerate_outcome (str "a(") (ofZ 0)
                    {| keysRaw := str "user-1"; genError := None |}
                    zeroDraws 0 eq_refl eq_refl eq_refl) GroupsUnsupported eq_refl).
    reflexivity.
Defined.

(** A run of characters none of which is white space is a key as it is. *)
Lemma trim_no_white (s : jsstring) :
  Forall (fun c => isWhiteSpace c = false) s -> trim s = s.
Proof.
  intros H. pose proof (trim_surrounded [] s []) as E. rewrite app_nil_r in E. apply E;
    [constructor | constructor | exact H].
Qed.

Lemma matches_no_white (pieces : list Piece) (s : jsstring) :
  Forall (fun p => Forall (fun c => isWhiteSpace c = false) (alphabet (atom p))) pieces ->
  matches pieces s -> Forall (fun c => isWhiteSpace c = false) s.
Proof.
  intros Hp (segs & -> & Hf). induction Hf as [|p seg pieces segs [_ Hseg] _ IH]; [constructor|].
  inversion Hp as [|? ? Hp1 Hp2]; subst. cbn [List.concat]. apply Forall_app. split.
  - rewrite Forall_forall in *. intros c Hc. apply Hp1, Hseg, Hc.
  - apply IH. exact Hp2.
Qed.

Lemma matches_length (pieces : list Piece) (s : jsstring) :
  matches pieces s -> minLength pieces <= Z.of_nat (List.length s).
Proof. intros (segs & -> & Hf). apply fits_length. exact Hf. Qed.

(** X29.  From the button back to the keys: when no atom of the pattern gives
    white space and the pattern asks for at least one character, the keys
    that [parseKeys] reads from the text area after [onGenerate] are the
    generated strings themselves, all of them and in their order.  The
    strings are drawn in doubles; the classes have fewer than 2^53
    characters, as every array has. *)
Theorem onGenerate_round_trip (genPattern : jsstring) (x : number) (st : State) (r : rng)
        (pieces : list Piece) :
  compile genPattern = Ok pieces ->
  Forall (fun p => Z.of_nat (List.length (alphabet (atom p))) < 2 ^ 53) pieces ->
  Forall (fun p => Forall (fun c => isWhiteSpace c = false) (alphabet (atom p))) pieces ->
  1 <= minLength pieces ->
  exists generated r',
    generateMany genPattern (toNumber (countOf x)) r = Ok (generated, r') /\
    onGenerate genPattern x st r =
    ({| keysRaw := join [LF] generated; genError := None |}, r') /\
    parseKeys (join [LF] generated) = generated.
Proof.
  intros Hc Hs Hw Hmin.
  pose proof (compile_bounds genPattern pieces Hc) as Hb.
  pose proof (compile_alphabet genPattern pieces Hc) as Ha.
  unfold onGenerate, generateMany.
  rewrite (generateManyLoop_ok genPattern pieces Hc). cbn [app].
  set (n := rounds (clampCount (toNumber (countOf x)))).
  pose proof (generations_matches pieces Hb Ha Hs n r) as Hm.
  destruct (generations n pieces r) as [generated r']. cbn [fst snd] in *.
  exists generated, r'. split; [reflexivity|]. split; [reflexivity|].
  assert (Hkeys : Forall (fun k => Forall (fun c => isWhiteSpace c = false) k /\ k <> [])
                         generated).
  { eapply Forall_impl; [|exact Hm]. intros k Hk. split.
    - eapply matches_no_white; eassumption.
    - pose proof (matches_length pieces k Hk). intros ->. simpl in *. lia. }
  rewrite parseKeys_joined.
  - clear Hm. induction Hkeys as [|k ks [Hk1 Hk2] _ IH]; [reflexivity|].
    cbn [List.map filter]. rewrite (trim_no_white k Hk1), IH.
    destruct k; [congruence | reflexivity].
  - eapply Forall_impl; [|exact Hkeys]. intros k [Hk _] Hin.
    rewrite Forall_forall in Hk. apply Hk in Hin. discriminate.
Qed.

Lemma onGenerate_round_trip_witness :
  exists generated r',
    generateMany (str "[A-C]{2}") (toNumber (countOf (ofZ 3))) zeroDraws
      = Ok (generated, r') /\
    onGenerate (str "[A-C]{2}") (ofZ 3) {| keysRaw := []; genError := None |} zeroDraws =
    ({| keysRaw := join [LF] generated; genError := None |}, r') /\
    parseKeys (join [LF] generated) = generated.
Proof.
  apply (onGenerate_round_trip (str "[A-C]{2}") (ofZ 3) {| keysRaw := []; genError := None |}
           zeroDraws
           [{| atom := CharClass [chr "A"; chr "B"; chr "C"]; min := 2; max := 2 |}]).
  - reflexivity.
  - repeat constructor.
  - repeat constructor.
  - vm_compute. discriminate.
Defined.
